(** * Reddit Mastermind: the weekly calendar generator and its text engine

    A shallow embedding of [src/lib/utils/calendarGenerator.ts],
    [hybridGenerator.ts], [textTools.ts], [topicTools.ts],
    [postPatterns.ts] and [personaTone.ts], followed by the properties
    of the specification that were checked against it.

    Conventions of the embedding.

    - Text is a [string]; the program's own phrase libraries use ASCII
      and the em dash, which is written here in its UTF-8 encoding.
      [trim], [toLowerCase], the [i] flag and the classes [\s], [\w] are
      the ASCII restrictions of their JavaScript counterparts; a bounded
      repetition such as [[^.]{0,30}] counts an em dash as three
      characters.  Where a statement depends on the difference, it is
      made of ASCII text ([isAscii]).
    - [Math.random ()] reads the next element of a stream
      [rand : nat -> Q]; the number of draws made so far is part of the
      mutable state.  Arithmetic on draws is exact.
    - The module-level variables of [hybridGenerator.ts]
      ([weekSeedHistory], [lastIntro], [lastComment]) are fields of the
      state [World] that every effectful function threads.
    - A [do ... while] loop without a bound in the source takes a fuel
      argument and yields [Diverge] when the fuel runs out.
    - The JSON seed libraries are not part of the sources at hand; they
      are a parameter, [SeedLibrary]. *)

From Stdlib Require Import String Ascii List Bool Arith ZArith QArith Qround Lia.
From Stdlib Require Import Permutation Lqa.
Import ListNotations.

Close Scope Q_scope.
Open Scope string_scope.
Open Scope list_scope.
Open Scope nat_scope.

(** string concatenation, [a + b] on JavaScript strings *)
Infix "+++" := String.append (right associativity, at level 60).

(* ================================================================== *)
(** ** Characters and strings *)

Definition chars := list ascii.

Definition s2l (s : string) : chars := list_ascii_of_string s.
Definition l2s (l : chars) : string := string_of_list_ascii l.

Definition ascii_n (c : ascii) : N := N_of_ascii c.

Definition between (lo hi : N) (c : ascii) : bool :=
  (lo <=? ascii_n c)%N && (ascii_n c <=? hi)%N.

Definition is_upper (c : ascii) : bool := between 65 90 c.
Definition is_lower (c : ascii) : bool := between 97 122 c.
Definition is_digit (c : ascii) : bool := between 48 57 c.

(** [\w] *)
Definition is_word (c : ascii) : bool :=
  is_upper c || is_lower c || is_digit c || (ascii_n c =? 95)%N.

(** [\s]: tab, line feed, vertical tab, form feed, carriage return, space *)
Definition is_space (c : ascii) : bool := between 9 13 c || (ascii_n c =? 32)%N.

(** line terminators, which [.] does not match *)
Definition is_newline (c : ascii) : bool := (ascii_n c =? 10)%N || (ascii_n c =? 13)%N.

Definition to_upper (c : ascii) : ascii :=
  if is_lower c then ascii_of_N (ascii_n c - 32) else c.
Definition to_lower (c : ascii) : ascii :=
  if is_upper c then ascii_of_N (ascii_n c + 32) else c.

Definition toLowerCase (s : string) : string := l2s (map to_lower (s2l s)).
Definition toUpperCase (s : string) : string := l2s (map to_upper (s2l s)).

Fixpoint trimStartL (l : chars) : chars :=
  match l with
  | c :: t => if is_space c then trimStartL t else l
  | [] => []
  end.

Definition trimEndL (l : chars) : chars := rev (trimStartL (rev l)).
Definition trimL (l : chars) : chars := trimEndL (trimStartL l).
Definition trim (s : string) : string := l2s (trimL (s2l s)).

Fixpoint prefixL (p l : chars) : bool :=
  match p, l with
  | [], _ => true
  | a :: p', b :: l' => Ascii.eqb a b && prefixL p' l'
  | _ :: _, [] => false
  end.

(** [s.includes (p)] *)
Fixpoint includesL (l p : chars) : bool :=
  prefixL p l || match l with [] => false | _ :: t => includesL t p end.
Definition includes (s p : string) : bool := includesL (s2l s) (s2l p).

(** [s.split (sep)] for a non-empty literal separator *)
Fixpoint splitL (fuel : nat) (sep l cur : chars) : list chars :=
  match fuel with
  | 0 => [rev cur ++ l]
  | S f =>
      match l with
      | [] => [rev cur]
      | c :: t =>
          if prefixL sep l then rev cur :: splitL f sep (skipn (List.length sep) l) []
          else splitL f sep t (c :: cur)
      end
  end.
Definition split (s sep : string) : list string :=
  map l2s (splitL (S (String.length s)) (s2l sep) (s2l s) []).

Fixpoint joinL (sep : string) (l : list string) : string :=
  match l with
  | [] => ""
  | [x] => x
  | x :: t => x +++ sep +++ joinL sep t
  end.

(** decimal rendering of a number, as template literals do *)
Fixpoint digitsN (fuel n : nat) (acc : chars) : chars :=
  match fuel with
  | 0 => acc
  | S f =>
      let d := ascii_of_nat (48 + n mod 10) in
      if n <? 10 then d :: acc else digitsN f (n / 10) (d :: acc)
  end.
Definition natToString (n : nat) : string := l2s (digitsN (S n) n []).
Definition ZToString (z : Z) : string :=
  if (z <? 0)%Z then "-" +++ natToString (Z.to_nat (- z)) else natToString (Z.to_nat z).

(** [s.padStart (n, "0")] *)
Definition padStart0 (n : nat) (s : string) : string :=
  l2s (repeat "0"%char (n - String.length s)) +++ s.

(** [s.charAt (0).toUpperCase () + s.slice (1)] *)
Definition capitalizeFirst (s : string) : string :=
  match s with
  | EmptyString => EmptyString
  | String c t => String (to_upper c) t
  end.

(** the em dash U+2014, UTF-8 encoded *)
Definition emdash : string :=
  String (ascii_of_nat 226) (String (ascii_of_nat 128) (String (ascii_of_nat 148) "")).

(* ================================================================== *)
(** ** Regular expressions

    A backtracking matcher for the fragment of ECMAScript regular
    expressions that the sources use: literals, classes, [.], [^], [$],
    [\b], sequence, ordered alternation, greedy bounded and unbounded
    repetition, capture groups, back-references and a one-character
    look-behind. *)

Inductive re : Type :=
| Eps : re
| Chr : ascii -> re                       (* a literal character *)
| Cls : (ascii -> bool) -> re             (* a class, given by its members *)
| NCls : (ascii -> bool) -> re            (* a negated class *)
| Dot : re                                (* [.] *)
| Bol : re                                (* [^] *)
| Eol : re                                (* [$] *)
| Wb : re                                 (* [\b] *)
| Seq : re -> re -> re
| Alt : re -> re -> re
| Rep : nat -> option nat -> re -> re     (* [{min,max}], greedy *)
| Grp : nat -> re -> re                   (* the capture group numbered [n] *)
| Bref : nat -> re                        (* [\n] *)
| Behind : (ascii -> bool) -> re.         (* [(?<=[...])] *)

Record mstate : Type := mkM {
  m_prev : option ascii;                  (* the character before the position *)
  m_rest : chars;                         (* the input from the position on *)
  m_pos : nat;
  m_caps : list (nat * chars)             (* captures, latest first *)
}.

Definition cont : Type := mstate -> option mstate.

Definition eqc (ci : bool) (a b : ascii) : bool :=
  if ci then Ascii.eqb (to_upper a) (to_upper b) else Ascii.eqb a b.

Definition in_cls (ci : bool) (p : ascii -> bool) (c : ascii) : bool :=
  if ci then p c || p (to_upper c) || p (to_lower c) else p c.

Definition step1 (st : mstate) : option (ascii * mstate) :=
  match m_rest st with
  | [] => None
  | c :: t => Some (c, mkM (Some c) t (S (m_pos st)) (m_caps st))
  end.

Definition word_before (st : mstate) : bool :=
  match m_prev st with Some c => is_word c | None => false end.
Definition word_after (st : mstate) : bool :=
  match m_rest st with c :: _ => is_word c | [] => false end.

Fixpoint get_cap (n : nat) (caps : list (nat * chars)) : chars :=
  match caps with
  | [] => []
  | (k, v) :: t => if k =? n then v else get_cap n t
  end.

(** consume the literal text [l] *)
Fixpoint eat (ci : bool) (l : chars) (st : mstate) : option mstate :=
  match l with
  | [] => Some st
  | a :: l' =>
      match step1 st with
      | Some (c, st') => if eqc ci a c then eat ci l' st' else None
      | None => None
      end
  end.

(** Greedy repetition of the matcher [ma]: [mn] mandatory iterations,
    then optional ones up to [mx]; an optional iteration that consumes
    nothing is rejected. *)
Fixpoint rep_loop (ma : mstate -> cont -> option mstate) (fuel mn : nat)
    (mx : option nat) (st : mstate) (k : cont) : option mstate :=
  match fuel with
  | 0 => if mn =? 0 then k st else None
  | S f =>
      match mx with
      | Some 0 => if mn =? 0 then k st else None
      | _ =>
          let more :=
            ma st (fun st1 =>
              if (mn =? 0) && (m_pos st1 =? m_pos st) then None
              else rep_loop ma f (pred mn) (option_map pred mx) st1 k) in
          match mn with
          | S _ => more
          | 0 => match more with Some r => Some r | None => k st end
          end
      end
  end.

Fixpoint rmatch (ci : bool) (r : re) : mstate -> cont -> option mstate :=
  match r with
  | Eps => fun st k => k st
  | Chr a => fun st k =>
      match step1 st with
      | Some (c, st') => if eqc ci a c then k st' else None
      | None => None
      end
  | Cls p => fun st k =>
      match step1 st with
      | Some (c, st') => if in_cls ci p c then k st' else None
      | None => None
      end
  | NCls p => fun st k =>
      match step1 st with
      | Some (c, st') => if in_cls ci p c then None else k st'
      | None => None
      end
  | Dot => fun st k =>
      match step1 st with
      | Some (c, st') => if is_newline c then None else k st'
      | None => None
      end
  | Bol => fun st k => if m_pos st =? 0 then k st else None
  | Eol => fun st k => match m_rest st with [] => k st | _ => None end
  | Wb => fun st k => if xorb (word_before st) (word_after st) then k st else None
  | Seq a b => fun st k => rmatch ci a st (fun st1 => rmatch ci b st1 k)
  | Alt a b => fun st k =>
      match rmatch ci a st k with
      | Some x => Some x
      | None => rmatch ci b st k
      end
  | Rep mn mx a =>
      let ma := rmatch ci a in
      fun st k => rep_loop ma (S (mn + List.length (m_rest st))) mn mx st k
  | Grp n a => fun st k =>
      rmatch ci a st (fun st1 =>
        k (mkM (m_prev st1) (m_rest st1) (m_pos st1)
             ((n, firstn (m_pos st1 - m_pos st) (m_rest st)) :: m_caps st1)))
  | Bref n => fun st k =>
      match eat ci (get_cap n (m_caps st)) st with
      | Some st' => k st'
      | None => None
      end
  | Behind p => fun st k =>
      match m_prev st with
      | Some c => if p c then k st else None
      | None => None
      end
  end.

(** One attempt at the current position. *)
Definition match_here (ci : bool) (r : re) (st : mstate) : option mstate :=
  rmatch ci r (mkM (m_prev st) (m_rest st) (m_pos st) []) Some.

(** What a replacer sees of one match. *)
Record rmatchinfo : Type := mkInfo {
  mi_text : string;                       (* the matched text *)
  mi_caps : list (nat * chars);
  mi_offset : nat
}.

Definition mi_group (n : nat) (m : rmatchinfo) : string := l2s (get_cap n (mi_caps m)).

Inductive piece : Type :=
| PLit : ascii -> piece
| PMatch : rmatchinfo -> piece.

(** The successive matches of a scan over the input, with the unmatched
    characters between them.  With [global = false] only the first
    match is taken. *)
Fixpoint scan (fuel : nat) (global ci : bool) (r : re) (st : mstate) : list piece :=
  match fuel with
  | 0 => map PLit (m_rest st)
  | S f =>
      match match_here ci r st with
      | Some st' =>
          let info := mkInfo (l2s (firstn (m_pos st' - m_pos st) (m_rest st)))
                        (m_caps st') (m_pos st) in
          if m_pos st' =? m_pos st then
            match step1 st with
            | Some (c, st1) =>
                PMatch info :: PLit c ::
                  (if global then scan f global ci r st1 else map PLit (m_rest st1))
            | None => [PMatch info]
            end
          else
            PMatch info ::
              (if global then scan f global ci r st' else map PLit (m_rest st'))
      | None =>
          match step1 st with
          | Some (c, st1) => PLit c :: scan f global ci r st1
          | None => []
          end
      end
  end.

Definition pieces (global ci : bool) (r : re) (s : string) : list piece :=
  scan (S (String.length s)) global ci r (mkM None (s2l s) 0 []).

Definition matchesOf (ci : bool) (r : re) (s : string) : list rmatchinfo :=
  flat_map (fun p => match p with PMatch m => [m] | PLit _ => [] end)
           (pieces true ci r s).

(** [r.test (s)] *)
Definition test (ci : bool) (r : re) (s : string) : bool :=
  match matchesOf ci r s with [] => false | _ => true end.

(** [s.replace (r, f)] with a replacer function *)
Definition replaceWith (global ci : bool) (r : re) (f : rmatchinfo -> string)
    (s : string) : string :=
  fold_right (fun p acc =>
    match p with
    | PLit c => String c acc
    | PMatch m => f m +++ acc
    end) "" (pieces global ci r s).

(** The number of capture groups of a pattern. *)
Fixpoint ngroups (r : re) : nat :=
  match r with
  | Seq a b | Alt a b => Nat.max (ngroups a) (ngroups b)
  | Rep _ _ a => ngroups a
  | Grp n a => Nat.max n (ngroups a)
  | _ => 0
  end.

Definition digit_val (c : ascii) : nat := N.to_nat (ascii_n c - 48).

(** Expansion of a replacement string: [$$], [$&] and [$1]..[$99]. *)
Fixpoint expandL (ng : nat) (t : chars) (m : rmatchinfo) : chars :=
  match t with
  | [] => []
  | c :: t1 =>
      if negb (Ascii.eqb c "$"%char) then c :: expandL ng t1 m
      else
        match t1 with
        | d :: t2 =>
            if Ascii.eqb d "$"%char then "$"%char :: expandL ng t2 m
            else if Ascii.eqb d "&"%char then s2l (mi_text m) ++ expandL ng t2 m
            else if is_digit d then
              match t2 with
              | e :: t3 =>
                  let two := 10 * digit_val d + digit_val e in
                  if is_digit e && (1 <=? two) && (two <=? ng)
                  then get_cap two (mi_caps m) ++ expandL ng t3 m
                  else if (1 <=? digit_val d) && (digit_val d <=? ng)
                  then get_cap (digit_val d) (mi_caps m) ++ expandL ng t2 m
                  else c :: expandL ng t1 m
              | [] =>
                  if (1 <=? digit_val d) && (digit_val d <=? ng)
                  then get_cap (digit_val d) (mi_caps m)
                  else c :: expandL ng t1 m
              end
            else c :: expandL ng t1 m
        | [] => [c]
        end
  end.

(** [s.replace (r, t)] with a replacement string *)
Definition replace (global ci : bool) (r : re) (t : string) (s : string) : string :=
  replaceWith global ci r (fun m => l2s (expandL (ngroups r) (s2l t) m)) s.

(** Pattern notation. *)
Fixpoint lit (l : chars) : re :=
  match l with
  | [] => Eps
  | [c] => Chr c
  | c :: t => Seq (Chr c) (lit t)
  end.
Definition L (s : string) : re := lit (s2l s).

Fixpoint seqs (l : list re) : re :=
  match l with
  | [] => Eps
  | [r] => r
  | r :: t => Seq r (seqs t)
  end.

Fixpoint alts (l : list re) : re :=
  match l with
  | [] => Eps
  | [r] => r
  | r :: t => Alt r (alts t)
  end.

Definition star (r : re) : re := Rep 0 None r.
Definition plus (r : re) : re := Rep 1 None r.
Definition opt (r : re) : re := Rep 0 (Some 1) r.
Definition sp_plus : re := plus (Cls is_space).   (* [\s+] *)
Definition sp_star : re := star (Cls is_space).   (* [\s*] *)
Definition w_plus : re := plus (Cls is_word).     (* [\w+] *)
Definition oneof (s : string) : ascii -> bool :=
  fun c => existsb (Ascii.eqb c) (s2l s).
Definition words (l : list string) : re := alts (map L l).

(** [s.split (r)] for a pattern [r] without capture groups: a match is
    attempted at every position before the end; one that ends where the
    current segment starts is skipped. *)
Fixpoint splitScan (fuel : nat) (ci : bool) (r : re) (p : nat) (cur : chars)
    (st : mstate) : list string :=
  match fuel with
  | 0 => [l2s (rev cur ++ m_rest st)]
  | S f =>
      match step1 st with
      | None => [l2s (rev cur)]
      | Some (c, st1) =>
          match match_here ci r st with
          | Some st' =>
              if m_pos st' =? p then splitScan f ci r p (c :: cur) st1
              else l2s (rev cur) ::
                   splitScan f ci r (m_pos st') []
                     (mkM (m_prev st') (m_rest st') (m_pos st') [])
          | None => splitScan f ci r p (c :: cur) st1
          end
      end
  end.

Definition splitRe (ci : bool) (r : re) (s : string) : list string :=
  match s with
  | EmptyString =>
      match match_here ci r (mkM None [] 0 []) with Some _ => [] | None => [""] end
  | _ => splitScan (S (String.length s)) ci r 0 [] (mkM None (s2l s) 0 [])
  end.

(* ================================================================== *)
(** ** Effects: random draws, module state, exceptions and divergence *)

Inductive Result (A : Type) : Type :=
| Ok : A -> Result A
| Throw : string -> Result A            (* [throw new Error (msg)] *)
| Diverge : Result A.                   (* the fuel of a loop ran out *)
Arguments Ok {A} _.
Arguments Throw {A} _.
Arguments Diverge {A}.

Inductive LengthMode : Type := short | medium | long.
Inductive StyleMode : Type := analytical | introspective | motivational | casual.

Definition LengthMode_eqb (a b : LengthMode) : bool :=
  match a, b with
  | short, short | medium, medium | long, long => true
  | _, _ => false
  end.

Definition StyleMode_eqb (a b : StyleMode) : bool :=
  match a, b with
  | analytical, analytical | introspective, introspective
  | motivational, motivational | casual, casual => true
  | _, _ => false
  end.

(** [interface WeekSeedHistory] *)
Record WeekSeedHistory : Type := mkHistory {
  intros_ : list string;
  reflections : list string;
  struggles : list string;
  advice : list string;
  closings : list string;
  shortReplies : list string;
  affirmations : list string;
  humor : list string;
  patterns : list string;
  styles : list StyleMode;
  lastLengthMode : option LengthMode
}.

(** The mutable state of the module [hybridGenerator] together with the
    position of the random source. *)
Record World : Type := mkWorld {
  draws : nat;
  weekSeedHistory : WeekSeedHistory;
  lastIntro : string;
  lastComment : string
}.

Definition M (A : Type) : Type := World -> Result (A * World).

Definition ret {A} (a : A) : M A := fun w => Ok (a, w).
Definition bind {A B} (m : M A) (k : A -> M B) : M B :=
  fun w => match m w with
           | Ok (a, w') => k a w'
           | Throw msg => Throw msg
           | Diverge => Diverge
           end.
Definition throw {A} (msg : string) : M A := fun _ => Throw msg.
Definition diverge {A} : M A := fun _ => Diverge.
Definition getW : M World := fun w => Ok (w, w).
Definition modifyW (f : World -> World) : M unit := fun w => Ok (tt, f w).

Notation "x <- m ;; k" := (bind m (fun x => k))
  (at level 61, m at next level, right associativity).
Notation "m ;;; k" := (bind m (fun _ => k))
  (at level 61, right associativity).

Definition setHistory (h : WeekSeedHistory) : M unit :=
  modifyW (fun w => mkWorld (draws w) h (lastIntro w) (lastComment w)).
Definition setLastIntro (s : string) : M unit :=
  modifyW (fun w => mkWorld (draws w) (weekSeedHistory w) s (lastComment w)).
Definition setLastComment (s : string) : M unit :=
  modifyW (fun w => mkWorld (draws w) (weekSeedHistory w) (lastIntro w) s).

(** The fractional part: a draw lies in [0, 1). *)
Definition frac (q : Q) : Q := (q - inject_Z (Qfloor q))%Q.

Definition Qltb (a b : Q) : bool := negb (Qle_bool b a).

(** hundredths: [pct 55] is the literal [0.55] *)
Definition pct (n : Z) : Q := Qmake n 100.

(** [Math.floor (r * n)] *)
Definition floorMul (r : Q) (n : nat) : nat :=
  Z.to_nat (Qfloor (r * inject_Z (Z.of_nat n))%Q).

(** the state after one more draw *)
Definition tick (w : World) : World :=
  mkWorld (S (draws w)) (weekSeedHistory w) (lastIntro w) (lastComment w).

Section Engine.

(** The random source. *)
Variable rand : nat -> Q.

(** [Math.random ()] *)
Definition random : M Q := fun w => Ok (frac (rand (draws w)), tick w).

(** [Math.random () < p] *)
Definition chance (p : Q) : M bool := r <- random ;; ret (Qltb r p).

(** [pick] of textTools: a random element, an error on the empty array *)
Definition pick {T} (arr : list T) : M T :=
  match arr with
  | [] => throw "Cannot pick from empty array"
  | d :: _ => r <- random ;; ret (nth (floorMul r (List.length arr)) arr d)
  end.

(** [pickWeighted]: subtract the weights in key order from a draw scaled
    by their sum; the last key when nothing reached zero *)
Fixpoint pickWeightedLoop {T} (items : list (T * Q)) (x : Q) (last : T) : T :=
  match items with
  | [] => last
  | (t, wgt) :: rest =>
      let x' := (x - wgt)%Q in
      if Qle_bool x' 0 then t else pickWeightedLoop rest x' last
  end.

Definition pickWeighted {T} (dflt : T) (weights : list (T * Q)) : M T :=
  r <- random ;;
  let total := fold_left (fun s p => (s + snd p)%Q) weights 0%Q in
  ret (pickWeightedLoop weights (r * total)%Q (last (map fst weights) dflt)).

(** [s.replace (r, f)] when the replacer draws random numbers: the
    replacer runs once per match, from left to right. *)
Fixpoint replacePieces (f : rmatchinfo -> M string) (ps : list piece) : M string :=
  match ps with
  | [] => ret ""
  | PLit c :: t => rest <- replacePieces f t ;; ret (String c rest)
  | PMatch m :: t => x <- f m ;; rest <- replacePieces f t ;; ret (x +++ rest)
  end.

Definition replaceWithM (global ci : bool) (r : re) (f : rmatchinfo -> M string)
    (s : string) : M string :=
  replacePieces f (pieces global ci r s).

(* ================================================================== *)
(** ** textTools.ts *)

Definition punct5 : ascii -> bool := oneof ".,!?;:".
Definition punct3 : ascii -> bool := oneof ".!?".
Definition punct4 : ascii -> bool := oneof ".,!?".

(** The pattern that [replaceTopicRepetition] builds from the topic: its
    words, each escaped to a literal, joined by [\s+] between [\b]. *)
Definition topicPattern (topic : string) : re :=
  let topicWords := splitRe false sp_plus (trim topic) in
  let fix join (ws : list string) : re :=
    match ws with
    | [] => Eps
    | [w] => L w
    | w :: t => Seq (L w) (Seq sp_plus (join t))
    end in
  Seq Wb (Seq (join topicWords) Wb).

Definition topicPronouns : list string :=
  [ "this"; "these challenges"; "this issue"; "what I'm dealing with";
    "this part of it"; "this whole thing"; "that"; "these" ].

Definition replaceTopicRepetition (text topic : string) : M string :=
  if (text =? "")%string || (topic =? "")%string then ret text
  else
    let pat := topicPattern topic in
    let matches := matchesOf true pat text in
    if List.length matches <? 2 then ret text
    else
      replaceWithM true true pat (fun m =>
        let beforeText := substring 0 (mi_offset m) text in
        let occurrenceIndex := List.length (matchesOf true pat beforeText) in
        if occurrenceIndex =? 0 then ret (mi_text m)
        else pick topicPronouns) text.

(** [\b((?:\w+\s+){len-1}\w+)\s+\1\b] *)
Definition repeatedSpan (len : nat) : re :=
  seqs [ Wb; Grp 1 (Seq (Rep (len - 1) (Some (len - 1)) (Seq w_plus sp_plus)) w_plus);
         sp_plus; Bref 1; Wb ].

Definition dealingWithVariants : list string :=
  [ "what I'm working through"; "what's been on my plate";
    "what I'm trying to figure out"; "the stuff I'm sorting out" ].

Definition struggleVariants : list string :=
  [ "the thing that gets in my way"; "the habit I keep slipping on";
    "the part that trips me up"; "what I'm still figuring out" ].

(** [arr[Math.floor (Math.random () * arr.length)]] inside a replacer *)
Definition randomOf (arr : list string) : M string :=
  r <- random ;; ret (nth (floorMul r (List.length arr)) arr "undefined").

Definition learned : re := words ["found"; "learned"; "realized"; "discovered"].

Definition smoothText (str : string) : M string :=
  if (str =? "")%string then ret ""
  else
    let s := trim str in
    let s := replace true false sp_plus " " s in
    let s := replace true false (Seq sp_plus (Grp 1 (Cls punct5))) "$1" s in
    let s := replace true false (Seq (Grp 1 (Cls punct5)) sp_star) "$1 " s in
    let s := replace true false sp_plus " " s in
    let s := trim s in
    (* repeated words *)
    let s := replace true true (seqs [Wb; Grp 1 w_plus; sp_plus; Bref 1; Wb]) "$1" s in
    (* repeated spans of five words down to one *)
    let s := fold_left (fun acc len => replace true true (repeatedSpan len) "$1" acc)
               [5; 4; 3; 2; 1] s in
    (* "with X with X" *)
    let s := replace true true
               (seqs [ Wb;
                       Grp 1 (words ["with"; "for"; "at"; "on"; "about"; "around"; "of"; "in"]);
                       sp_plus;
                       Grp 2 (Seq w_plus (Rep 0 (Some 5) (Seq sp_plus w_plus)));
                       sp_plus; Bref 1; sp_plus; Bref 2; Wb ])
               "$1 $2" s in
    (* "What I'm learning is that What really helped" *)
    let s := replaceWith true true
               (seqs [ Wb; Grp 1 (words ["what"; "that"; "how"; "when"; "where"]);
                       sp_plus; Rep 0 (Some 30) (NCls (oneof "."));
                       sp_plus; words ["is"; "was"; "are"; "were"];
                       sp_plus; opt (Seq (L "that") sp_plus);
                       Grp 2 (words ["what"; "that"; "how"]); sp_plus ])
               (fun m =>
                  replace false true
                    (seqs [ sp_plus; opt (Seq (L "that") sp_plus);
                            L (mi_group 2 m); sp_plus ])
                    " " (mi_text m)) s in
    let s := replace true true
               (seqs [ Wb; L "I "; learned; L " "; opt (L "that "); L "I "; learned ])
               "I found" s in
    let s := replace true true
               (seqs [ Wb; L "what "; words ["I"; "you"; "we"]; L " "; learned; L " ";
                       opt (L "that "); L "is "; opt (L "that ");
                       Grp 1 (words ["what"; "I found"]) ])
               "what I found is " s in
    let s := replace true true
               (seqs [ Wb; Grp 1 (words ["What"; "That"; "How"]); sp_plus; w_plus;
                       Rep 0 (Some 5) (Seq sp_plus w_plus); sp_plus; L "is"; sp_plus;
                       opt (Seq (L "that") sp_plus);
                       Grp 2 (words ["What"; "That"; "How"]); sp_plus ])
               "$1 I'm learning is " s in
    let s := replace true true (L "what I'm finding is I'm working on works best")
               "what I'm finding is the system I'm using works best" s in
    let s := replace true true (L "what I'm working on works best")
               "the system I'm using works best" s in
    s <- replaceWithM true true (L "what I've been dealing with")
           (fun _ => randomOf dealingWithVariants) s ;;
    s <- replaceWithM true true (L "the part I struggle with")
           (fun _ => randomOf struggleVariants) s ;;
    (* awkward transitions *)
    let s := replace true true (seqs [Wb; L "but but"; Wb]) "but" s in
    let s := replace true true (seqs [Wb; L "and and"; Wb]) "and" s in
    let s := replace true true (seqs [Wb; L "so so"; Wb]) "so" s in
    let s := replace true true (seqs [Wb; L "however however"; Wb]) "however" s in
    let s := replace true false (seqs [L emdash; sp_star; L emdash]) emdash s in
    let s := replace true false (seqs [plus (L ","); sp_star; L ","]) "," s in
    (* duplicate punctuation *)
    let s := replace true false (Seq (L ".") (plus (L "."))) "." s in
    let s := replace true false (Seq (L "?") (plus (L "!"))) "?" s in
    let s := replace true false (Seq (L "!") (plus (L "?"))) "!" s in
    let s := capitalizeFirst s in
    let s := replace true false (seqs [sp_star; L emdash; sp_star])
               (" " +++ emdash +++ " ") s in
    let s := replace true false (Rep 2 None (Cls is_space)) " " s in
    ret (trim s).

Definition fillerVariants : list string :=
  [ "this"; "this issue"; "this challenge"; "what I'm working on"; "my routine";
    "the habit I'm building"; "the part that trips me up"; "this goal";
    "what I'm dealing with"; "this area I'm trying to improve" ].

Definition replaceGenericFillers (text : string) : M string :=
  replaceWithM true true (L "this part of it") (fun _ => pick fillerVariants) text.

Definition removeFillerPhrases (text : string) : M string :=
  replaceGenericFillers text.

(** the loop of [removeDuplicateSentences] over the split parts *)
Fixpoint dedupSentences (parts : list string) (last : string) : list string :=
  match parts with
  | [] => []
  | p :: t =>
      let trimmed := trim p in
      if negb (trimmed =? "")%string
         && negb (toLowerCase trimmed =? toLowerCase last)%string
      then trimmed :: dedupSentences t trimmed
      else dedupSentences t last
  end.

Definition removeDuplicateSentences (text : string) : string :=
  if (text =? "")%string || (String.length (trim text) =? 0) then text
  else
    let parts := splitRe false (Seq (Behind punct3) sp_plus) text in
    joinL " " (dedupSentences parts "").

Definition pluralNouns : re :=
  words [ "spots"; "points"; "things"; "items"; "elements"; "aspects"; "factors";
          "challenges"; "issues"; "problems" ].

(** [\w+(?:s|es)] *)
Definition pluralWord : re := Seq w_plus (Alt (L "s") (L "es")).

Definition polishGrammar (text : string) : string :=
  if (text =? "")%string then ""
  else
    let p := text in
    (* repeated persona intros *)
    let p := replace true false
               (Seq (Grp 1 (seqs [Wb; Cls is_upper; plus (Cls is_lower); L " "; L emdash; sp_star]))
                    (plus (Bref 1))) "$1" p in
    let p := replace true true
               (Seq (Grp 1 (seqs [ Wb; plus (Cls (fun c => is_upper c || is_lower c));
                                   opt (L ","); sp_star; L emdash; sp_star ]))
                    (plus (Bref 1))) "$1" p in
    (* determiners *)
    let p := replace true true (L "this these") "these" p in
    let p := replace true true (L "that this") "that" p in
    let p := replace true true (L "this this") "this" p in
    (* floating periods *)
    let p := replace true false (seqs [Bol; sp_star; L "."; sp_star]) "" p in
    let p := replace true false (seqs [sp_plus; L "."; sp_plus]) ". " p in
    (* punctuation *)
    let p := replace true false (Seq (L emdash) (L ".")) emdash p in
    let p := replace true false (Rep 2 None (L ".")) "." p in
    let p := replace true false (Rep 2 None (L emdash)) emdash p in
    let p := replaceWith true false (Seq sp_plus (Grp 1 (Cls punct4)))
               (fun m => trim (mi_text m)) p in
    let p := replace true false (plus (L "!")) "!" p in
    let p := replace true false (plus (L "?")) "?" p in
    let p := replace true false (seqs [L "."; sp_plus; L "."]) "." p in
    let p := replace true false (Seq sp_plus (L emdash)) (" " +++ emdash) p in
    let p := replace true false (Seq (L emdash) sp_plus) (" " +++ emdash +++ " ") p in
    (* verb agreement *)
    let p := replace true true
               (seqs [ L "challenge"; opt (L "s"); L " "; Grp 1 (words ["I'm"; "I am"]);
                       L " facing "; Grp 2 (words ["in"; "with"]); L " ";
                       plus (NCls (oneof " ")); L " has " ])
               "the challenges I'm facing have " p in
    let p := replace true true
               (seqs [ L "challenge"; opt (L "s"); L " "; Grp 1 (words ["seems"; "seem"]);
                       L " harder" ])
               "these challenges seem harder" p in
    let p := replace true true (L "mistakes people make in my workload")
               "mistakes people make when managing their workload" p in
    let p := replace true true (L "mistakes people make in productivity that lasts")
               "mistakes people make when trying to stay productive" p in
    let p := replace true true
               (seqs [Wb; Grp 1 pluralNouns; sp_plus; Grp 2 (words ["seems"; "is"; "was"]); Wb])
               "$1 seem" p in
    let p := replace true true
               (seqs [ Wb; Grp 1 pluralNouns; sp_plus; L "are"; sp_plus;
                       Grp 2 (words ["seems"; "is"; "was"]); Wb ])
               "$1 are" p in
    let p := replace true true
               (seqs [Wb; Grp 1 pluralWord; sp_plus; L "seems"; sp_plus; L "they"; Wb])
               "$1 seem they" p in
    (* repeated words *)
    let p := replace true true (seqs [Wb; Grp 1 w_plus; sp_plus; Bref 1; Wb]) "$1" p in
    let p := replace true true
               (seqs [ Wb; Grp 1 (words ["time"; "day"; "week"; "month"; "year"]);
                       sp_plus; Bref 1; Wb ]) "$1" p in
    let p := replace true true
               (seqs [ Wb;
                       Grp 1 (words ["common"; "certain"; "many"; "some"; "various"; "different"]);
                       sp_plus; Grp 2 pluralWord; sp_plus;
                       Grp 3 (words ["seems"; "is"; "was"]); Wb ])
               "$1 $2 seem" p in
    (* terminal punctuation *)
    let p := if negb (test false (Seq (Cls punct3) Eol) (trim p)) then trim p +++ "." else p in
    (* sentence capitals *)
    let p := replaceWith true false
               (Seq (Grp 1 (alts [ Bol; Seq (L ".") sp_plus; Seq (L "!") sp_plus;
                                   Seq (L "?") sp_plus ]))
                    (Grp 2 (Cls is_lower)))
               (fun m => mi_group 1 m +++ toUpperCase (mi_group 2 m)) p in
    let p := trim (replace true false sp_plus " " p) in
    let p := replace true false (Seq (Grp 1 (Cls punct3)) (Rep 2 None (Cls is_space))) "$1 " p in
    let p := replace true true (seqs [Wb; L "that that"; Wb]) "that" p in
    let p := replace true true (seqs [Wb; L "it it"; Wb]) "it" p in
    let p := replace true true
               (seqs [Wb; Grp 1 (words ["a"; "an"]); sp_plus; Bref 1; Wb]) "$1" p in
    (* spacing around punctuation *)
    let p := replace true false (Seq sp_plus (Grp 1 (Cls punct5))) "$1" p in
    let p := replace true false (Seq (Grp 1 (Cls punct5)) (Grp 2 (NCls is_space))) "$1 $2" p in
    let p := replace true false
               (seqs [Grp 1 (Cls punct3); sp_star; Grp 2 (Cls is_lower)]) "$1 $2" p in
    trim p.

Definition humanSmooth (text : string) : string :=
  let t := replace true true (L "the challenges I'm facing in handling my workload has")
             "the challenges I'm facing in handling my workload have" text in
  let t := replace true true (L "avoids mistakes people make") "mistakes people often make" t in
  let t := replace true true (L "what work for you guys") "what works for you?" t in
  let t := replace true true (L "I keep running into the same mistakes repeatedly")
             "I keep running into the same mistakes over and over" t in
  let t := replace true true (L "common blind spots seem that") "common blind spots is that" t in
  let t := replace true true (L "common blind spots are that") "common blind spots is that" t in
  let t := replace true true
             (seqs [ L "what I've learned about ";
                     Grp 1 (words ["getting started"; "improving"]); L " am that" ])
             "what I've learned about $1 is that" t in
  let t := replace true true (L "Focus come easier") "Focus comes easier" t in
  let t := replace true true (L "would appreciate hearing what work for me is")
             "would appreciate hearing what works for you" t in
  replace true true (L "Would loves to hear") "Would love to hear" t.

(* ================================================================== *)
(** ** topicTools.ts *)

(** The version of [cleanTopic] that goes with the generator modelled
    here (it exports [topicSimplify] and its companions). *)
Definition cleanTopic (topic : string) : string :=
  let c := replace true false (seqs [sp_star; L ","; sp_star]) ", " topic in
  let c := replace true false (L ", ") " & " c in
  let c := trim (replace true false sp_plus " " c) in
  let c := replaceWith true true (Seq (L "how to get better at ") (Grp 1 (plus Dot)))
             (fun m =>
                let theme := mi_group 1 m in
                if test false (Seq w_plus (L "ing")) theme
                then "getting better at " +++ theme
                else "improving my " +++ theme) c in
  let c := replaceWith true true (Seq (L "struggles people face with ") (Grp 1 (plus Dot)))
             (fun m => "common challenges in " +++ mi_group 1 m) c in
  match split c " & " with
  | p0 :: p1 :: _ :: _ => p0 +++ " and " +++ p1
  | _ => c
  end.

Definition synonymMap : list (string * list string) :=
  [ ("task prioritization",
      [ "getting better at prioritizing tasks"; "learning to prioritize better";
        "figuring out how to prioritize tasks" ]);
    ("sustainable productivity",
      [ "trying to stay productive long-term"; "working on keeping my productivity steady";
        "building a sustainable productivity habit" ]);
    ("improving my sustainable productivity",
      [ "trying to stay productive long-term"; "working on keeping my productivity steady";
        "building a sustainable productivity habit" ]);
    ("improving sustainable productivity",
      [ "trying to stay productive long-term"; "working on keeping my productivity steady";
        "building a sustainable productivity habit" ]);
    ("managing workload",
      [ "handling my workload"; "keeping up with everything I need to do";
        "trying to stay on top of my tasks" ]);
    ("improving focus",
      [ "trying to stay focused"; "getting better at focusing";
        "figuring out how to focus better" ]);
    ("avoiding burnout", [ "preventing burnout"; "avoiding burnout"; "keeping burnout at bay" ]);
    ("procrastination", [ "putting things off"; "procrastinating"; "delaying tasks" ]);
    ("common challenges", [ "these challenges"; "typical challenges"; "the challenges" ]);
    ("best practices", [ "what usually works"; "proven approaches"; "effective methods" ]);
    ("common mistakes", [ "the mistakes we all make"; "common pitfalls"; "typical mistakes" ]) ].

Definition leadingPhrases : list string :=
  [ "tips on"; "advice for"; "best practices for"; "struggles people face with";
    "how to get better at"; "common mistakes in"; "what people overlook about" ].

Definition simplifyTopic (topic : string) : string :=
  let lower := toLowerCase topic in
  if includes lower "best practices" then "improving over time"
  else if includes lower "advice for newcomers" then "getting started"
  else if includes lower "struggles people face" then "common challenges"
  else if includes lower "tips on" then "making progress"
  else if includes lower "fitness" && includes lower "health" then "building healthier habits"
  else if includes lower "how to get better" then "making progress"
  else if includes lower "common mistakes" then "avoiding mistakes"
  else if includes lower "what people overlook" then "common blind spots"
  else
    let simplified :=
      trim (replace false true (seqs [Bol; Grp 1 (words leadingPhrases); sp_plus]) "" topic) in
    if (toLowerCase simplified =? "getting better")%string then "making progress"
    else simplified.

(** [key.replace (/\s+/g, '\\s+')] read back as a pattern *)
Definition keyPattern (key : string) : re :=
  let fix join (ws : list string) : re :=
    match ws with
    | [] => Eps
    | [w] => L w
    | w :: t => Seq (L w) (Seq sp_plus (join t))
    end in
  join (splitRe false sp_plus key).

Fixpoint firstKey (ok : string -> bool) (m : list (string * list string))
    : option (string * list string) :=
  match m with
  | [] => None
  | (key, syn) :: t => if ok key then Some (key, syn) else firstKey ok t
  end.

Definition topicSimplify (topic : string) : M string :=
  let lower := toLowerCase topic in
  match firstKey (fun key => includes lower key) synonymMap with
  | Some (key, synonyms) =>
      synonym <- pick synonyms ;;
      ret (replace true true (L key) synonym topic)
  | None =>
      match firstKey (fun key => test true (keyPattern key) topic) synonymMap with
      | Some (key, synonyms) =>
          synonym <- pick synonyms ;;
          ret (replace true true (keyPattern key) synonym topic)
      | None => ret (simplifyTopic topic)
      end
  end.

Definition ing : re := Seq (plus (Cls is_lower)) (L "ing").   (* [[a-z]+ing] *)

Definition fixImprovingMyPhrases (text : string) : string :=
  let f := replace true true (L "improving at improving") "getting better at" text in
  let f := replace true true (L "improving my improving") "improving" f in
  let f := replace true true (L "improving my avoiding") "getting better at avoiding" f in
  let f := replace true true (L "improving my preventing") "getting better at preventing" f in
  let f := replace true true (L "improving my managing") "getting better at managing" f in
  let f := replace true true (Seq (L "tips on improving at ") (Grp 1 ing))
             "tips on getting better at $1" f in
  let f := replace true true (Seq (L "improving at ") (Grp 1 ing)) "getting better at $1" f in
  let f := replace true true
             (Seq (L "improving my ")
                  (Grp 1 (words [ "avoiding"; "preventing"; "managing"; "handling";
                                  "focusing"; "prioritizing" ])))
             "getting better at $1" f in
  let f := replace true true (Seq (L "improving my ") (Grp 1 ing)) "working on $1" f in
  let f := replace true true
             (seqs [L "improving my "; Grp 1 (plus (Cls is_lower)); L " my"])
             "improving my $1" f in
  let f := replace true true (L "improving my procrastination") "working on procrastination" f in
  let f := replace true true (L "improving my productivity") "staying productive" f in
  replace true true (L "improving my focus") "staying focused" f.

Definition rewriteTopicKeywords (text : string) : string :=
  let t := replace true true (L "preventing burnout") "avoiding burnout" text in
  let t := replace true true (L "burnout prevention") "avoiding burnout" t in
  let t := replace true true (L "improving focus") "staying focused" t in
  let t := replace true true (L "task prioritization") "prioritizing tasks" t in
  let t := replace true true (L "sustainable productivity") "staying productive" t in
  let t := replace true true (L "managing workload") "handling my workload" t in
  let t := replace true true (L "common challenges") "the challenges I'm facing" t in
  let t := replace true true (L "best practices") "what usually works" t in
  let t := replace true true (L "common mistakes") "mistakes people make" t in
  let t := replace true true (L "improving productivity") "staying productive" t in
  let t := replace true true (L "productivity improvement") "staying productive" t in
  let t := replace true true (L "focus improvement") "staying focused" t in
  replace true true (L "workload management") "handling my workload" t.

Definition rewriteDualThemes (topic : string) : M string :=
  r <- (if includes (toLowerCase topic) "managing workload and avoiding burnout"
        then replaceWithM true true (L "managing workload and avoiding burnout")
               (fun _ => pick [ "balancing workload without burning out";
                                "juggling workload while preventing burnout";
                                "managing my workload without hitting burnout";
                                "trying to stay productive without burning out" ]) topic
        else ret topic) ;;
  r <- replaceWithM true true (L "managing workload")
         (fun _ => pick [ "handling my workload"; "managing my tasks";
                          "keeping up with everything I need to do" ]) r ;;
  replaceWithM true true (L "avoiding burnout")
    (fun _ => pick [ "preventing burnout"; "making sure I don't burn out";
                     "trying to stay mentally fresh" ]) r.

Definition injectTopic (template topic : string) : M string :=
  simplified <- topicSimplify topic ;;
  let simplified := fixImprovingMyPhrases simplified in
  let simplified := rewriteTopicKeywords simplified in
  ret (replace true false (L "{{topic}}") simplified template).

(* ================================================================== *)
(** ** postPatterns.ts *)

(** [interface PatternTokens]; an absent optional token is the empty
    string, as [tokens.x || ''] makes it. *)
Record PatternTokens : Type := mkTokens {
  tk_intro : string;
  tk_reflection : string;
  tk_struggle : string;
  tk_advice : string;
  tk_closing : string;
  tk_shortReply : string;
  tk_affirmation : string;
  tk_humor : string
}.

Definition postPatterns : list string :=
  [ "{intro} {reflection}. {struggle}. {advice}. {closing}";
    "{intro} {reflection}. {closing}";
    "{intro} {struggle}. {closing}";
    "{intro} {advice}. {closing}";
    "{intro} {reflection}. {struggle}. {closing}";
    "{intro} {reflection}. {reflection}. {closing}";
    "{intro} {struggle}. {advice}. {closing}";
    "{intro} {reflection}. {struggle}. {advice}. {closing}";
    "{intro} {reflection}. {advice}. {advice}. {closing}" ].

Definition commentPatterns : list string :=
  [ "{intro} {struggle}. {advice}. {closing}";
    "{intro} I've been there. {struggle}. {advice}.";
    "{intro} {struggle}. {advice}.";
    "{intro} I relate to this. {advice}. {closing}";
    "{intro} {struggle}. {advice}. {closing}";
    "{intro} {affirmation}. {advice}.";
    "{intro} {shortReply} {advice}." ].

Definition shortPatterns : list string :=
  [ "{shortReply}";
    "{intro} {shortReply}";
    "{intro} {shortReply} {closing}";
    "{shortReply} {affirmation}";
    "{intro} {humor}";
    "{intro} {shortReply} {humor}" ].

Definition applyPattern (pattern : string) (tokens : PatternTokens) : string :=
  let r := replace true false (L "{intro}") (tk_intro tokens) pattern in
  let r := replace true false (L "{reflection}") (tk_reflection tokens) r in
  let r := replace true false (L "{struggle}") (tk_struggle tokens) r in
  let r := replace true false (L "{advice}") (tk_advice tokens) r in
  let r := replace true false (L "{closing}") (tk_closing tokens) r in
  let r := replace true false (L "{shortReply}") (tk_shortReply tokens) r in
  let r := replace true false (L "{affirmation}") (tk_affirmation tokens) r in
  let r := replace true false (L "{humor}") (tk_humor tokens) r in
  replace true false (seqs [L "{"; w_plus; L "}"]) "" r.

(* ================================================================== *)
(** ** Data model ([types.ts]) and personaTone.ts *)

Record CompanyInfo : Type := mkCompany {
  c_name : string;
  valueProp : string;
  idealCustomer : string;
  c_tone : string
}.

Record Persona : Type := mkPersona {
  name : string;
  background : string;
  voice : string;
  painPoints : list string
}.

Record CalendarPost : Type := mkPost {
  date : string;
  subreddit : string;
  poster : string;
  commenter : string;
  topic : string;
  postText : string;
  commentText : string
}.

Record WeeklyCalendar : Type := mkCalendar {
  weekStart : string;
  posts : list CalendarPost
}.

Record GenerationInput : Type := mkInput {
  company : CompanyInfo;
  personas : list Persona;
  subreddits : list string;
  themes : list string;
  postsPerWeek : Z
}.

Definition dash (s : string) : string := s +++ " " +++ emdash.

Definition friendlyPrefixes : list string :=
  map dash [ "Hey team"; "Hope you're well"; "Just wanted to ask"; "Hi there"; "Hey everyone" ].

(** [tonePrefixes], looked up by its own keys *)
Definition tonePrefixes : list (string * list string) :=
  [ ("casual", map dash ["Hey"; "Hi folks"; "Quick thought"; "Yo"; "What's up"]);
    ("friendly", friendlyPrefixes);
    ("analytical",
      map dash [ "From my experience"; "Looking at this logically"; "Analyzing this";
                 "Data point"; "From what I've observed" ]);
    ("formal",
      map dash [ "Greetings"; "A question for the community"; "I'd appreciate insights";
                 "Good day"; "I'd like to inquire" ]);
    ("professional",
      map dash [ "Hello"; "I have a question"; "Seeking advice";
                 "Wondering if anyone can help"; "Looking for guidance" ]) ].

Definition getPersonaTone (persona : Persona) : M string :=
  let v := toLowerCase (voice persona) in
  let v := if (v =? "")%string then "friendly" else v in
  let options :=
    match firstKey (fun key => (key =? v)%string) tonePrefixes with
    | Some (_, o) => o
    | None => friendlyPrefixes
    end in
  pick options.

Definition stylePrefixes (style : StyleMode) : list string :=
  match style with
  | analytical =>
      map dash [ "Looking at this logically"; "From a practical standpoint";
                 "Analyzing this objectively"; "From a data perspective" ]
  | introspective =>
      map dash [ "Lately I've been thinking a lot about this";
                 "Something I've noticed in myself"; "I've been reflecting on this";
                 "This made me realize" ]
  | motivational =>
      map dash [ "You're not alone in this"; "Honestly, small wins add up";
                 "Keep pushing forward"; "Remember, progress takes time" ]
  | casual =>
      map dash [ "Not gonna lie"; "Real talk"; "Honestly"; "Gonna be real with you" ]
  end.

Definition getStylePrefix (style : StyleMode) : M string := pick (stylePrefixes style).

(* ================================================================== *)
(** ** hybridGenerator.ts *)

(** The seed libraries ([lib/ai/seeds/*.json]). *)
Record SeedLibrary : Type := mkSeeds {
  introSeeds : list string;
  reflectionSeeds : list string;
  struggleSeeds : list string;
  adviceSeeds : list string;
  closingSeeds : list string;
  shortReplySeeds : list string;
  affirmationSeeds : list string;
  humorSeeds : list string
}.

Variable seeds : SeedLibrary.

Definition emptyHistory : WeekSeedHistory :=
  mkHistory [] [] [] [] [] [] [] [] [] [] None.

Definition resetWeekHistory : M unit := setHistory emptyHistory.

(** One of the arrays of [weekSeedHistory], as the place that
    [pickWeekUnique] reads and pushes to. *)
Record Category (T : Type) : Type := mkCategory {
  cat_get : WeekSeedHistory -> list T;
  cat_set : list T -> WeekSeedHistory -> WeekSeedHistory
}.
Arguments cat_get {T} _ _.
Arguments cat_set {T} _ _ _.

Definition cIntros : Category string :=
  mkCategory _ intros_
    (fun l h => mkHistory l (reflections h) (struggles h) (advice h) (closings h)
                  (shortReplies h) (affirmations h) (humor h) (patterns h) (styles h)
                  (lastLengthMode h)).
Definition cReflections : Category string :=
  mkCategory _ reflections
    (fun l h => mkHistory (intros_ h) l (struggles h) (advice h) (closings h)
                  (shortReplies h) (affirmations h) (humor h) (patterns h) (styles h)
                  (lastLengthMode h)).
Definition cStruggles : Category string :=
  mkCategory _ struggles
    (fun l h => mkHistory (intros_ h) (reflections h) l (advice h) (closings h)
                  (shortReplies h) (affirmations h) (humor h) (patterns h) (styles h)
                  (lastLengthMode h)).
Definition cAdvice : Category string :=
  mkCategory _ advice
    (fun l h => mkHistory (intros_ h) (reflections h) (struggles h) l (closings h)
                  (shortReplies h) (affirmations h) (humor h) (patterns h) (styles h)
                  (lastLengthMode h)).
Definition cClosings : Category string :=
  mkCategory _ closings
    (fun l h => mkHistory (intros_ h) (reflections h) (struggles h) (advice h) l
                  (shortReplies h) (affirmations h) (humor h) (patterns h) (styles h)
                  (lastLengthMode h)).
Definition cShortReplies : Category string :=
  mkCategory _ shortReplies
    (fun l h => mkHistory (intros_ h) (reflections h) (struggles h) (advice h) (closings h)
                  l (affirmations h) (humor h) (patterns h) (styles h)
                  (lastLengthMode h)).
Definition cAffirmations : Category string :=
  mkCategory _ affirmations
    (fun l h => mkHistory (intros_ h) (reflections h) (struggles h) (advice h) (closings h)
                  (shortReplies h) l (humor h) (patterns h) (styles h)
                  (lastLengthMode h)).
Definition cHumor : Category string :=
  mkCategory _ humor
    (fun l h => mkHistory (intros_ h) (reflections h) (struggles h) (advice h) (closings h)
                  (shortReplies h) (affirmations h) l (patterns h) (styles h)
                  (lastLengthMode h)).
Definition cPatterns : Category string :=
  mkCategory _ patterns
    (fun l h => mkHistory (intros_ h) (reflections h) (struggles h) (advice h) (closings h)
                  (shortReplies h) (affirmations h) (humor h) l (styles h)
                  (lastLengthMode h)).
Definition cStyles : Category StyleMode :=
  mkCategory _ styles
    (fun l h => mkHistory (intros_ h) (reflections h) (struggles h) (advice h) (closings h)
                  (shortReplies h) (affirmations h) (humor h) (patterns h) l
                  (lastLengthMode h)).

Definition setLastLengthMode (m : LengthMode) : M unit :=
  w <- getW ;;
  let h := weekSeedHistory w in
  setHistory (mkHistory (intros_ h) (reflections h) (struggles h) (advice h) (closings h)
                (shortReplies h) (affirmations h) (humor h) (patterns h) (styles h) (Some m)).

(** [history.slice (-2)] *)
Definition lastTwo {T} (history : list T) : list T :=
  skipn (List.length history - 2) history.

(** [pickWeekUnique]: avoid the last two values of the history; a pick
    made under that constraint is pushed, the history keeping its ten
    most recent entries. *)
Definition pickWeekUnique {T} (eqb : T -> T -> bool) (arr : list T) (c : Category T)
    : M T :=
  match arr with
  | [] => throw "Cannot pick from empty array"
  | [x] => ret x
  | _ =>
      w <- getW ;;
      let history := cat_get c (weekSeedHistory w) in
      let filtered :=
        filter (fun item => negb (existsb (eqb item) (lastTwo history))) arr in
      match filtered with
      | [] => pick arr
      | _ =>
          selected <- pick filtered ;;
          let pushed := history ++ [selected] in
          let kept := if 10 <? List.length pushed then tl pushed else pushed in
          w' <- getW ;;
          setHistory (cat_set c kept (weekSeedHistory w')) ;;;
          ret selected
      end
  end.

Definition pickSeed := pickWeekUnique String.eqb.

Definition isTopicComplex (topic : string) : bool :=
  let lower := toLowerCase topic in
  includes lower "best practices" || includes lower "common challenges"
  || includes lower "common mistakes" || includes lower "tips on"
  || includes lower "improving my".

Definition pickLengthMode (topic : string) : M LengthMode :=
  w <- getW ;;
  mode <- (if isTopicComplex topic
           then pickWeighted long [(medium, pct 55); (long, pct 35)]
           else
             match lastLengthMode (weekSeedHistory w) with
             | Some short => pickWeighted long [(medium, pct 60); (long, pct 40)]
             | _ => pickWeighted long
                      [(short, pct 10); (medium, pct 55); (long, pct 35)]
             end) ;;
  setLastLengthMode mode ;;;
  ret mode.

Definition COMPANY_MENTION_PROBABILITY : Q := pct 20.

Definition shouldMentionCompany : M bool := chance COMPANY_MENTION_PROBABILITY.

Inductive TopicRefMode : Type := direct | implied | pronoun.

Definition getTopicReference (topic : string) (mode : TopicRefMode) : M string :=
  match mode with
  | direct => topicSimplify topic
  | implied =>
      pick [ "this situation"; "the part I struggle with"; "my biggest hurdle";
             "what I've been dealing with"; "this whole thing"; "what I'm working on" ]
  | pronoun =>
      pick [ "this"; "these challenges"; "this issue"; "what I'm dealing with";
             "this part of it" ]
  end.

Definition pickTopicRefMode : M TopicRefMode := pick [direct; implied; pronoun].

(** The hand-written sentence that stands for the company, chosen by
    keywords of its value proposition. *)
Definition naturalAdvice (company : CompanyInfo) : string :=
  let vp := toLowerCase (valueProp company) in
  if includes vp "tasks" || includes vp "smart prioritization" || includes vp "prioritization"
  then "Using tools that automate small decisions really helped me."
  else if includes vp "progress" || includes vp "track"
  then "Tracking my progress in a simple way helped me stay consistent."
  else if includes vp "focus" || includes vp "suggestions"
  then "Breaking things into simple daily focus points made a difference."
  else "Using tools that simplify the process really helped me.".

(** [result.replace (new RegExp (escaped valueProp, 'gi'), '')], done
    when the value proposition is not empty *)
Definition stripValueProp (company : CompanyInfo) (result : string) : string :=
  if (valueProp company =? "")%string then result
  else replace true true (L (valueProp company)) "" result.

(** The cleanup passes at the end of [generateHybridPost]. *)
Definition cleanupPipeline (topicSimple result : string) : M string :=
  let result := simplifyTopic result in
  result <- rewriteDualThemes result ;;
  let result := fixImprovingMyPhrases result in
  result <- removeFillerPhrases result ;;
  result <- replaceTopicRepetition result topicSimple ;;
  let result := polishGrammar result in
  let result := humanSmooth result in
  smoothText result.

Definition shortIntroSeeds : list string :=
  map dash [ "Not gonna lie"; "Real talk"; "Same here"; "This one hits hard"; "Honestly";
             "Gonna be real"; "Lowkey struggling with this"; "Okay but actually";
             "Hey everyone"; "Quick question" ].

Definition mediumPatterns : list string :=
  [ "{intro} {reflection}. {closing}";
    "{intro} {struggle}. {closing}";
    "{intro} {advice}. {closing}";
    "{intro} {reflection}. {struggle}. {closing}" ].

(** [do { introSeed = pickWeekUnique (introSeeds, ...) }
     while (introSeed === lastIntro && introSeeds.length > 1)] *)
Fixpoint pickIntro (fuel : nat) : M string :=
  match fuel with
  | 0 => diverge
  | S f =>
      introSeed <- pickSeed (introSeeds seeds) cIntros ;;
      w <- getW ;;
      if (introSeed =? lastIntro w)%string && (1 <? List.length (introSeeds seeds))
      then pickIntro f
      else ret introSeed
  end.

Definition generateHybridPost (fuel : nat) (persona : Persona) (topic : string)
    (company : CompanyInfo) : M string :=
  let topicClean := cleanTopic topic in
  topicSimple <- topicSimplify topicClean ;;
  topicSimple <- rewriteDualThemes topicSimple ;;
  let topicSimple := rewriteTopicKeywords (fixImprovingMyPhrases topicSimple) in
  lengthMode <- pickLengthMode topicClean ;;
  styleMode <- pickWeekUnique StyleMode_eqb
                 [analytical; introspective; motivational; casual] cStyles ;;
  introSeed <- pickIntro fuel ;;
  setLastIntro introSeed ;;;
  reflectionSeed <- pickSeed (reflectionSeeds seeds) cReflections ;;
  struggleSeed <- pickSeed (struggleSeeds seeds) cStruggles ;;
  adviceSeed <- pickSeed (adviceSeeds seeds) cAdvice ;;
  closingSeed <- pickSeed (closingSeeds seeds) cClosings ;;
  tonePrefix <- getPersonaTone persona ;;
  stylePrefix <- getStylePrefix styleMode ;;
  usePersonaIntro <- chance (pct 25) ;;
  match lengthMode with
  | short =>
      shortIntro <- pick shortIntroSeeds ;;
      shortReply <- pickSeed (shortReplySeeds seeds) cShortReplies ;;
      closing <- pickSeed (closingSeeds seeds) cClosings ;;
      useHumor <- chance (pct 30) ;;
      humor <- (if useHumor then pickSeed (humorSeeds seeds) cHumor else ret "") ;;
      let tokens :=
        mkTokens shortIntro "" "" "" (if useHumor then "" else closing)
          shortReply "" (if useHumor then humor else "") in
      pattern <- pick shortPatterns ;;
      let result := applyPattern pattern tokens in
      let result := if usePersonaIntro then tonePrefix +++ " " +++ result else result in
      result <- cleanupPipeline topicSimple result ;;
      ret (removeDuplicateSentences result)
  | _ =>
      topicRefMode <- pickTopicRefMode ;;
      topicRef <- getTopicReference topicSimple topicRefMode ;;
      let shown := match topicRefMode with direct => topicSimple | _ => topicRef end in
      reflection <- injectTopic reflectionSeed shown ;;
      struggle <- injectTopic struggleSeed shown ;;
      mention <- shouldMentionCompany ;;
      advice <- (if mention then ret (naturalAdvice company)
                 else injectTopic adviceSeed topicRef) ;;
      pattern <- (match lengthMode with
                  | medium => pickSeed mediumPatterns cPatterns
                  | _ => pickSeed postPatterns cPatterns
                  end) ;;
      useStylePrefix <- chance (pct 40) ;;
      let finalIntro :=
        if usePersonaIntro then
          if useStylePrefix then stylePrefix +++ " " +++ tonePrefix +++ " " +++ introSeed
          else tonePrefix +++ " " +++ introSeed
        else introSeed in
      let tokens := mkTokens finalIntro reflection struggle advice closingSeed "" "" "" in
      let result := applyPattern pattern tokens in
      let result := stripValueProp company result in
      cleanupPipeline topicSimple result
  end.

Definition noIntroComments : list string :=
  [ "Same here."; "Totally relate."; "Honestly, me too."; "Oh wow, this hit hard.";
    "Been dealing with this myself."; "Following this."; "Needed to hear this today." ].

Definition ultraShortComments : list string :=
  [ "Same."; "Totally relate."; "Oh wow, this is me."; "Following.";
    "Needed to hear this."; "Honestly " +++ emdash +++ " same boat." ].

Definition enhancers : list string :=
  [ "Same here."; "Been dealing with this too."; "Following for more ideas.";
    "Would love to hear more viewpoints."; "Honestly, this hits home." ].

Definition commentIntroOptions (tonePrefix : string) : list string :=
  map dash [ "Real talk"; "Honestly"; "Not gonna lie"; "Lowkey"; "True story";
             "Quick thought"; "Hot take" ] ++ [tonePrefix].

Definition shortCommentPatterns : list string :=
  [ "{intro} {shortReply}"; "{intro} {shortReply} {affirmation}";
    "{intro} {shortReply} {advice}" ].

Definition mediumCommentPatterns : list string :=
  [ "{intro} {struggle}. {advice}.";
    "{intro} I've been there. {struggle}. {advice}.";
    "{intro} {struggle}. {closing}";
    "{intro} {affirmation}. {advice}." ].

(** [result.trim ().split (/\s+/).length] *)
Definition wordCount (result : string) : nat :=
  List.length (splitRe false sp_plus (trim result)).

(** [do { pattern = pick (...); result = applyPattern (...); attempts++ }
     while (result === lastComment && attempts < 10)]; [more] is the
    number of further attempts allowed. *)
Fixpoint pickShortComment (more : nat) (tokens : PatternTokens) : M string :=
  pattern <- pick shortCommentPatterns ;;
  let result := applyPattern pattern tokens in
  w <- getW ;;
  match more with
  | S m => if (result =? lastComment w)%string then pickShortComment m tokens
           else ret result
  | 0 => ret result
  end.

(** The end of both comment paths: the optional intro, the enhancement
    of very short comments, and the record of the last comment. *)
Definition finishComment (useIntro : bool) (tonePrefix result : string) : M string :=
  result <- (if useIntro && (12 <=? wordCount result)
             then selectedIntro <- pick (commentIntroOptions tonePrefix) ;;
                  ret (selectedIntro +++ " " +++ result)
             else ret result) ;;
  result <- (if wordCount result <? 8
             then
               ultra <- (if wordCount result <? 10 then chance (pct 15) else ret false) ;;
               if ultra then pick ultraShortComments
               else enhancer <- pick enhancers ;; ret (result +++ " " +++ enhancer)
             else ret result) ;;
  setLastComment result ;;;
  ret result.

Definition generateHybridComment (persona : Persona) (topic : string)
    (company : CompanyInfo) (postLength : option LengthMode) : M string :=
  canned <- chance (pct 20) ;;
  if canned then pick noIntroComments
  else
    let topicClean := cleanTopic topic in
    topicSimple <- topicSimplify topicClean ;;
    topicSimple <- rewriteDualThemes topicSimple ;;
    let topicSimple := rewriteTopicKeywords (fixImprovingMyPhrases topicSimple) in
    let continue (lengthMode : LengthMode) : M string :=
      tonePrefix <- getPersonaTone persona ;;
      struggleSeed <- pickSeed (struggleSeeds seeds) cStruggles ;;
      adviceSeed <- pickSeed (adviceSeeds seeds) cAdvice ;;
      closingSeed <- pickSeed (closingSeeds seeds) cClosings ;;
      useIntro <- chance (pct 20) ;;
      topicRefMode <- pickTopicRefMode ;;
      topicRef <- getTopicReference topicSimple topicRefMode ;;
      let shown := match topicRefMode with direct => topicSimple | _ => topicRef end in
      struggle <- injectTopic struggleSeed shown ;;
      mention <- shouldMentionCompany ;;
      advice <- (if mention then ret (naturalAdvice company)
                 else injectTopic adviceSeed topicRef) ;;
      match lengthMode with
      | short =>
          shortReply <- pickSeed (shortReplySeeds seeds) cShortReplies ;;
          half <- chance (pct 50) ;;
          affirmation <- (if half then pickSeed (affirmationSeeds seeds) cAffirmations
                          else ret "") ;;
          let tokens :=
            mkTokens "" "" "" (if (affirmation =? "")%string then advice else "") ""
              shortReply affirmation "" in
          result <- pickShortComment 9 tokens ;;
          let result := stripValueProp company result in
          let result := simplifyTopic result in
          result <- rewriteDualThemes result ;;
          let result := fixImprovingMyPhrases result in
          result <- removeFillerPhrases result ;;
          let result := polishGrammar result in
          let result := humanSmooth result in
          result <- smoothText result ;;
          let result := removeDuplicateSentences result in
          finishComment useIntro tonePrefix result
      | _ =>
          some <- chance (pct 30) ;;
          affirmation <- (if some then pickSeed (affirmationSeeds seeds) cAffirmations
                          else ret "") ;;
          pattern <- (match lengthMode with
                      | medium => pick mediumCommentPatterns
                      | _ => pickSeed commentPatterns cPatterns
                      end) ;;
          let tokens := mkTokens "" "" struggle advice closingSeed "" affirmation "" in
          let result := applyPattern pattern tokens in
          let result := stripValueProp company result in
          result <- cleanupPipeline topicSimple result ;;
          let result := removeDuplicateSentences result in
          finishComment useIntro tonePrefix result
      end in
    match postLength with
    | Some long => m <- pickWeighted medium [(short, pct 60); (medium, pct 40)] ;; continue m
    | Some medium => m <- pickWeighted medium [(short, pct 50); (medium, pct 50)] ;; continue m
    | Some short =>
        funny <- chance (pct 10) ;;
        if funny then
          humor <- pickSeed (humorSeeds seeds) cHumor ;;
          tonePrefix <- getPersonaTone persona ;;
          result <- smoothText (tonePrefix +++ " " +++ humor) ;;
          ret (polishGrammar result)
        else continue short
    | None =>
        m <- pickWeighted long [(short, pct 40); (medium, pct 50); (long, pct 10)] ;;
        continue m
    end.

(* ================================================================== *)
(** ** calendarGenerator.ts *)

(** [choose]: [arr[Math.floor (Math.random () * arr.length)]], which is
    [undefined] on the empty array *)
Definition choose {T} (arr : list T) : M (option T) :=
  r <- random ;; ret (nth_error arr (floorMul r (List.length arr))).

Definition normalizeSubreddit (sub : string) : string :=
  "r/" +++ trim (replace false false (Seq Bol (L "r/")) "" sub).

Definition expandTheme (theme : string) : list string :=
  [ "best practices for " +++ theme;
    "struggles people face with " +++ theme;
    "tips on improving at " +++ theme;
    "how to get better at " +++ theme;
    "common mistakes in " +++ theme;
    "what people overlook about " +++ theme;
    "advice for newcomers on " +++ theme ].

Definition expandThemesToTopics (themes : list string) : list string :=
  flat_map (fun theme =>
              let cleanTheme := cleanTopic theme in
              map cleanTopic (expandTheme cleanTheme) ++ [cleanTheme]) themes.

(** the stable sort of [Array.prototype.sort] under [(a, b) => a.r - b.r] *)
Fixpoint insertByKey {T} (p : T * Q) (l : list (T * Q)) : list (T * Q) :=
  match l with
  | [] => [p]
  | q :: t => if Qltb (snd q) (snd p) then q :: insertByKey p t else p :: q :: t
  end.

Definition sortByKey {T} (l : list (T * Q)) : list (T * Q) :=
  fold_right insertByKey [] l.

(** [arr.map (x => ({ x, r: Math.random () }))] *)
Fixpoint withKeys {T} (arr : list T) : M (list (T * Q)) :=
  match arr with
  | [] => ret []
  | x :: t => r <- random ;; rest <- withKeys t ;; ret ((x, r) :: rest)
  end.

Definition shuffle {T} (arr : list T) : M (list T) :=
  keyed <- withKeys arr ;; ret (map fst (sortByKey keyed)).

Definition pickDifferentPersona (personas : list Persona) (poster : Persona)
    : M (option Persona) :=
  let filtered := filter (fun p => negb (name p =? name poster)%string) personas in
  match filtered with
  | [] => ret (nth_error personas 0)
  | _ => choose filtered
  end.

(** *** Dates

    A [Date] is the number of its local calendar day, counted from
    1970-01-01, or the invalid date.  The day numbers are not bounded
    here, while a date of the source becomes invalid 100,000,000 days
    from 1970-01-01; statements on the dates of a week are made
    between [firstDay] and [lastDay], where the two agree. *)
Definition Date : Type := option Z.

Definition civilFromDays (z : Z) : Z * Z * Z :=
  let z := (z + 719468)%Z in
  let era := (z / 146097)%Z in
  let doe := (z - era * 146097)%Z in
  let yoe := ((doe - doe / 1460 + doe / 36524 - doe / 146096) / 365)%Z in
  let doy := (doe - (365 * yoe + yoe / 4 - yoe / 100))%Z in
  let mp := ((5 * doy + 2) / 153)%Z in
  let d := (doy - (153 * mp + 2) / 5 + 1)%Z in
  let m := (if mp <? 10 then mp + 3 else mp - 9)%Z in
  ((yoe + era * 400 + (if m <=? 2 then 1 else 0))%Z, m, d).

(** the day number of the first day of month [m] (1 to 12) of year [y] *)
Definition daysFromCivil (y m : Z) : Z :=
  let y := (if m <=? 2 then y - 1 else y)%Z in
  let era := (y / 400)%Z in
  let yoe := (y - era * 400)%Z in
  let doy := ((153 * (if 2 <? m then m - 3 else m + 9) + 2) / 5)%Z in
  (era * 146097 + (yoe * 365 + yoe / 4 - yoe / 100 + doy) - 719468)%Z.

(** [new Date (year, monthIndex, day)]: month and day overflow into the
    neighbouring months; the years 0 to 99 mean 1900 to 1999. *)
Definition makeDate (year monthIndex day : Z) : Z :=
  let year := (if (0 <=? year) && (year <=? 99) then 1900 + year else year)%Z in
  let y := (year + monthIndex / 12)%Z in
  let m := (monthIndex mod 12 + 1)%Z in
  (daysFromCivil y m + day - 1)%Z.

(** [Number (s)] for a field of decimal digits; the empty field is 0 and
    anything else is taken to be [NaN]. *)
Definition numberOf (s : string) : option Z :=
  if forallb is_digit (s2l s)
  then Some (fold_left (fun acc c => (10 * acc + Z.of_nat (digit_val c))%Z) (s2l s) 0%Z)
  else None.

Definition parseDate (dateStr : string) : Date :=
  match map numberOf (split dateStr "-") with
  | Some year :: Some month :: Some day :: _ => Some (makeDate year (month - 1) day)
  | _ => None
  end.

Definition formatDate (d : Date) : string :=
  match d with
  | None => "NaN-NaN-NaN"
  | Some z =>
      let '(y, m, dd) := civilFromDays z in
      ZToString y +++ "-" +++ padStart0 2 (ZToString m) +++ "-" +++ padStart0 2 (ZToString dd)
  end.

Definition addDays (d : Date) (days : Z) : Date := option_map (fun z => (z + days)%Z) d.

(** The clock: the day number of the current date. *)
Variable today : Z.

Definition getMondayOfWeek : Date :=
  let day := ((today + 4) mod 7)%Z in          (* 0 = Sunday *)
  Some (today - day + (if day =? 0 then -6 else 1))%Z.

(** *** The scheduler *)

(** [Set<string>], in insertion order *)
Definition set_has (s : list string) (x : string) : bool := existsb (String.eqb x) s.
Definition set_add (s : list string) (x : string) : list string :=
  if set_has s x then s else s ++ [x].

(** [Map<number, Set<string>>] *)
Fixpoint map_get (m : list (nat * list string)) (k : nat) : option (list string) :=
  match m with
  | [] => None
  | (k', v) :: t => if k' =? k then Some v else map_get t k
  end.
Fixpoint map_set (m : list (nat * list string)) (k : nat) (v : list string)
    : list (nat * list string) :=
  match m with
  | [] => [(k, v)]
  | (k', v') :: t => if k' =? k then (k, v) :: t else (k', v') :: map_set t k v
  end.

(** The local variables of [generateWeeklyCalendar] that its loops
    update. *)
Record Sched : Type := mkSched {
  s_posts : list CalendarPost;
  usedTopics : list string;
  usedSubredditsPerDay : list (nat * list string);
  lastSubreddit : option string;
  topicIndex : nat;
  subredditIndex : nat;
  personaIndex : nat
}.

(** What stays fixed during the loops. *)
Record Plan : Type := mkPlan {
  p_input : GenerationInput;
  allTopics : list string;
  shuffledTopics : list string;
  shuffledPersonas : list Persona;
  shuffledSubreddits : list string;
  p_weekStart : Date
}.

(** [Math.ceil (a / b)] for a positive [b] *)
Definition ceilDiv (a b : Z) : Z := (- ((- a) / b))%Z.

(** *** The topic loop:
    [do { ... } while (usedTopics.has (topic) && usedTopics.size < allTopics.length)].
    It yields the topic and the new [topicIndex], or nothing when the
    fuel runs out. *)
(** The body of the topic loop: the candidate topic and the new
    [topicIndex]. *)
Definition nextTopic (pl : Plan) (nposts topicIndex : nat) : string * nat :=
  let themes := themes (p_input pl) in
  if List.length (shuffledTopics pl) <=? topicIndex then
    let baseTheme := cleanTopic (nth (nposts mod List.length themes) themes "") in
    (baseTheme +++ " - part " +++ natToString (nposts / List.length themes + 2), 0)
  else (nth topicIndex (shuffledTopics pl) "", S topicIndex).

Fixpoint selectTopic (fuel : nat) (pl : Plan) (nposts : nat) (used : list string)
    (topicIndex : nat) : option (string * nat) :=
  match fuel with
  | 0 => None
  | S f =>
      let '(topic, topicIndex) := nextTopic pl nposts topicIndex in
      if set_has used topic && (List.length used <? List.length (allTopics pl))
      then selectTopic f pl nposts used topicIndex
      else Some (topic, topicIndex)
  end.

Definition same_as (last : option string) (x : string) : bool :=
  match last with Some l => (x =? l)%string | None => false end.

(** The community loop:
    [do { ...; attempts++; ... } while ((daySubreddits.has (raw) ||
    raw === lastSubreddit) && attempts < shuffledSubreddits.length * 3)].
    The [continue] in its body jumps to this test and changes nothing. *)
Fixpoint selectSubreddit (fuel : nat) (pl : Plan) (daySubreddits : list string)
    (last : option string) (subredditIndex attempts : nat) : option (string * nat) :=
  match fuel with
  | 0 => None
  | S f =>
      let n := List.length (shuffledSubreddits pl) in
      let rawSubreddit := nth (subredditIndex mod n) (shuffledSubreddits pl) "" in
      let subredditIndex := S subredditIndex in
      let attempts := S attempts in
      if (set_has daySubreddits rawSubreddit || same_as last rawSubreddit)
         && (attempts <? n * 3)
      then selectSubreddit f pl daySubreddits last subredditIndex attempts
      else Some (rawSubreddit, subredditIndex)
  end.

Definition typeError {A} : M A :=
  throw "TypeError: Cannot read properties of undefined".

(** One turn of the inner loop: the slot for the next post of the day. *)
Definition scheduleSlot (fuel : nat) (pl : Plan) (dayOffset : nat) (dateStr : string)
    (st : Sched) : M Sched :=
  match selectTopic fuel pl (List.length (s_posts st)) (usedTopics st) (topicIndex st) with
  | None => diverge
  | Some (topic, topicIndex') =>
      let used := set_add (usedTopics st) topic in
      let daySubreddits :=
        match map_get (usedSubredditsPerDay st) dayOffset with
        | Some s => s
        | None => []
        end in
      match selectSubreddit fuel pl daySubreddits (lastSubreddit st) (subredditIndex st) 0 with
      | None => diverge
      | Some (rawSubreddit, subredditIndex') =>
          let perDay :=
            map_set (usedSubredditsPerDay st) dayOffset (set_add daySubreddits rawSubreddit) in
          let subreddit := normalizeSubreddit rawSubreddit in
          match nth_error (shuffledPersonas pl)
                  (personaIndex st mod List.length (shuffledPersonas pl)) with
          | None => typeError
          | Some poster =>
              oc <- pickDifferentPersona (shuffledPersonas pl) poster ;;
              postText <- generateHybridPost fuel poster topic (company (p_input pl)) ;;
              match oc with
              | None => typeError
              | Some commenter =>
                  commentText <-
                    generateHybridComment commenter topic (company (p_input pl)) None ;;
                  let post :=
                    mkPost dateStr subreddit (name poster) (name commenter) topic
                      postText commentText in
                  ret (mkSched (s_posts st ++ [post]) used perDay (Some rawSubreddit)
                         topicIndex' subredditIndex' (S (personaIndex st)))
              end
          end
      end
  end.

Definition moreWanted (pl : Plan) (st : Sched) : bool :=
  (Z.of_nat (List.length (s_posts st)) <? postsPerWeek (p_input pl))%Z.

(** [for (let i = 0; i < postsToday && posts.length < postsPerWeek; i++)];
    [left] is [postsToday - i]. *)
Fixpoint dayLoop (fuel : nat) (pl : Plan) (dayOffset : nat) (dateStr : string)
    (left : nat) (st : Sched) : M Sched :=
  match left with
  | 0 => ret st
  | S left' =>
      if moreWanted pl st then
        st' <- scheduleSlot fuel pl dayOffset dateStr st ;;
        dayLoop fuel pl dayOffset dateStr left' st'
      else ret st
  end.

Definition postsToday (pl : Plan) (dayOffset : nat) (st : Sched) : Z :=
  let remainingDays := (7 - Z.of_nat dayOffset)%Z in
  let remainingPosts := (postsPerWeek (p_input pl) - Z.of_nat (List.length (s_posts st)))%Z in
  ceilDiv remainingPosts remainingDays.

(** [for (let dayOffset = 0; dayOffset < 7 && posts.length < postsPerWeek; dayOffset++)];
    [days] is [7 - dayOffset]. *)
Fixpoint weekLoop (fuel : nat) (pl : Plan) (days dayOffset : nat) (st : Sched) : M Sched :=
  match days with
  | 0 => ret st
  | S days' =>
      if moreWanted pl st then
        let dateStr := formatDate (addDays (p_weekStart pl) (Z.of_nat dayOffset)) in
        let perDay :=
          match map_get (usedSubredditsPerDay st) dayOffset with
          | Some _ => usedSubredditsPerDay st
          | None => map_set (usedSubredditsPerDay st) dayOffset []
          end in
        let st := mkSched (s_posts st) (usedTopics st) perDay (lastSubreddit st)
                    (topicIndex st) (subredditIndex st) (personaIndex st) in
        st' <- dayLoop fuel pl dayOffset dateStr
                 (Z.to_nat (postsToday pl dayOffset st)) st ;;
        weekLoop fuel pl days' (S dayOffset) st'
      else ret st
  end.

Definition initialSched : Sched := mkSched [] [] [] None 0 0 0.

(** [weekStartOverride ? parseDate (weekStartOverride) : getMondayOfWeek ()];
    an absent override and the empty string are both falsy. *)
Definition chooseWeekStart (weekStartOverride : option string) : Date :=
  match weekStartOverride with
  | Some s => if (s =? "")%string then getMondayOfWeek else parseDate s
  | None => getMondayOfWeek
  end.

Definition generateWeeklyCalendar (fuel : nat) (input : GenerationInput)
    (weekStartOverride : option string) : M WeeklyCalendar :=
  resetWeekHistory ;;;
  if List.length (personas input) <? 2 then throw "At least 2 personas are required"
  else if List.length (subreddits input) =? 0 then throw "At least 1 subreddit is required"
  else if List.length (themes input) =? 0 then throw "At least 1 theme is required"
  else
    let allTopics := expandThemesToTopics (themes input) in
    shuffledTopics <- shuffle allTopics ;;
    shuffledPersonas <- shuffle (personas input) ;;
    shuffledSubreddits <- shuffle (subreddits input) ;;
    let weekStart := chooseWeekStart weekStartOverride in
    let pl := mkPlan input allTopics shuffledTopics shuffledPersonas shuffledSubreddits
                weekStart in
    st <- weekLoop fuel pl 7 0 initialSched ;;
    ret (mkCalendar (formatDate weekStart) (s_posts st)).

End Engine.

(* ================================================================== *)
(** ** Sample data

    A small seed library and a few inputs on which the functions above
    are evaluated below.  The library stands in for the JSON files; its
    phrases are samples, not the program's own. *)

Definition sampleSeeds : SeedLibrary :=
  mkSeeds
    [ "So here is something I keep coming back to"; "I have been meaning to ask about this";
      "Something has been on my mind lately" ]
    [ "I noticed that {{topic}} takes patience"; "Looking back, {{topic}} taught me a lot";
      "It turns out {{topic}} matters more than I thought" ]
    [ "My main struggle is {{topic}}"; "I keep getting stuck on {{topic}}";
      "The hard part of {{topic}} is consistency" ]
    [ "What helped was small steps with {{topic}}"; "Try keeping notes on {{topic}}";
      "Start small with {{topic}}" ]
    [ "Anyone else?"; "What works for you?"; "Curious what you think." ]
    [ "Same boat here."; "This is so real."; "Felt that." ]
    [ "You've got this."; "Great point."; "Well said." ]
    [ "My list has a list."; "Send coffee."; "Asking for a friend." ].

Definition alex : Persona := mkPersona "Alex" "developer" "casual" ["time"].
Definition blair : Persona := mkPersona "Blair" "manager" "formal" ["focus"].

Definition acme : CompanyInfo :=
  mkCompany "Acme" "smart task prioritization" "busy teams" "friendly".

(** a source of draws that visits the unit interval unevenly *)
Definition sampleRand : nat -> Q := fun i => Qmake (Z.of_nat ((i * 37 + 11) mod 101)) 101.

Definition freshWorld : World := mkWorld 0 emptyHistory "" "".

(** Monday 2024-01-01 *)
Definition monday2024 : Z := 19723.

Definition sampleInput : GenerationInput :=
  mkInput acme [alex; blair] ["r/productivity"; "running"]
    ["task prioritization"; "focus"] 3.

(** two themes that are the same theme *)
Definition repeatedThemeInput : GenerationInput :=
  mkInput acme [alex; blair] ["r/productivity"]
    ["time management"; "time management"] 10.

(** two themes that differ as written and agree once cleaned *)
Definition sameCleanedThemeInput : GenerationInput :=
  mkInput acme [alex; blair] ["r/fitness"] ["fitness, health"; "fitness & health"] 10.

(** one theme, more posts than its eight topics *)
Definition oneThemeInput : GenerationInput :=
  mkInput acme [alex; blair] ["r/productivity"] ["study habits"] 10.

(** two communities, eight posts *)
Definition twoCommunitiesInput : GenerationInput :=
  mkInput acme [alex; blair] ["r/running"; "r/cycling"] ["trail running"] 8.



(** one post *)
Definition onePostInput : GenerationInput :=
  mkInput acme [alex; blair] ["r/productivity"] ["focus"] 1.

(** The state that a build leaves behind, with the random source read
    again from its start: what the next build of a process meets when
    it is given the same draws. *)
Definition replay (w : World) : World :=
  mkWorld 0 (weekSeedHistory w) (lastIntro w) (lastComment w).

(* ================================================================== *)
(** ** The distribution over the week, in the words of the specification

    For day [i], [postsToday = ceil (remainingPosts / remainingDays)]. *)

Fixpoint quotas (days dayOffset : nat) (remainingPosts : Z) : list nat :=
  match days with
  | 0 => []
  | S days' =>
      let remainingDays := (7 - Z.of_nat dayOffset)%Z in
      let k := Z.to_nat (ceilDiv remainingPosts remainingDays) in
      k :: quotas days' (S dayOffset) (remainingPosts - Z.of_nat k)
  end.

Definition slotsPerDay (postsPerWeek : Z) : list nat := quotas 7 0 postsPerWeek.

(** the dates of the slots, day after day *)
Fixpoint datesFrom (weekStart : Date) (dayOffset : nat) (qs : list nat) : list string :=
  match qs with
  | [] => []
  | k :: t =>
      repeat (formatDate (addDays weekStart (Z.of_nat dayOffset))) k
      ++ datesFrom weekStart (S dayOffset) t
  end.

(** the day on which the slot at position [i] falls *)
Fixpoint dayOfSlot (qs : list nat) (i : nat) : nat :=
  match qs with
  | [] => 0
  | k :: t => if i <? k then 0 else S (dayOfSlot t (i - k))
  end.

(* ================================================================== *)
(** * Properties *)

(** ** Strings *)

Lemma l2s_s2l (s : string) : l2s (s2l s) = s.
Proof. apply string_of_list_ascii_of_string. Qed.

Lemma s2l_l2s (l : chars) : s2l (l2s l) = l.
Proof. apply list_ascii_of_string_of_list_ascii. Qed.

Lemma l2s_app (a b : chars) : l2s (a ++ b) = l2s a +++ l2s b.
Proof. induction a as [|c a IH]; simpl; [reflexivity | now rewrite IH]. Qed.

(** a list that does not begin with white space *)
Definition no_lead (l : chars) : Prop :=
  match l with
  | c :: _ => is_space c = false
  | [] => True
  end.

Lemma trimStartL_no_lead (l : chars) : no_lead (trimStartL l).
Proof.
  induction l as [|c l IH]; simpl; [exact I|].
  destruct (is_space c) eqn:E; [exact IH | simpl; exact E].
Qed.

Lemma trimStartL_fix (l : chars) : no_lead l -> trimStartL l = l.
Proof. destruct l as [|c l]; simpl; intros H; [reflexivity | now rewrite H]. Qed.

Lemma trimStartL_suffix (l : chars) :
  exists sp, l = sp ++ trimStartL l /\ forallb is_space sp = true.
Proof.
  induction l as [|c l (sp & E & H)]; simpl.
  - exists []. split; reflexivity.
  - destruct (is_space c) eqn:Ec.
    + exists (c :: sp). split; [simpl; congruence | simpl; now rewrite Ec].
    + exists []. split; reflexivity.
Qed.

Lemma trimEndL_prefix (l : chars) : exists sp, l = trimEndL l ++ sp.
Proof.
  unfold trimEndL. destruct (trimStartL_suffix (rev l)) as (sp & E & _).
  exists (rev sp). rewrite <- rev_app_distr, <- E. now rewrite rev_involutive.
Qed.

Lemma trimEndL_no_lead (l : chars) : no_lead l -> no_lead (trimEndL l).
Proof.
  intros H. destruct (trimEndL_prefix l) as (sp & E).
  destruct (trimEndL l) as [|c t] eqn:Et; [exact I|].
  rewrite E in H. exact H.
Qed.

Lemma trimEndL_idem (l : chars) : trimEndL (trimEndL l) = trimEndL l.
Proof.
  unfold trimEndL. rewrite rev_involutive.
  now rewrite (trimStartL_fix _ (trimStartL_no_lead (rev l))).
Qed.

Lemma trimL_idem (l : chars) : trimL (trimL l) = trimL l.
Proof.
  unfold trimL.
  rewrite (trimStartL_fix (trimEndL (trimStartL l))).
  - apply trimEndL_idem.
  - apply trimEndL_no_lead, trimStartL_no_lead.
Qed.

Lemma trim_idem (s : string) : trim (trim s) = trim s.
Proof. unfold trim. now rewrite s2l_l2s, trimL_idem. Qed.

(** ** The pattern [^r/] *)

Definition rslash : re := Seq Bol (L "r/").

(** Away from the start of the input, a pattern anchored by [^] finds
    nothing. *)
Lemma scan_anchored_later (r : re) (fuel : nat) (g ci : bool) (st : mstate) :
  m_pos st <> 0 ->
  List.length (m_rest st) < fuel ->
  scan fuel g ci (Seq Bol r) st = map PLit (m_rest st).
Proof.
  revert st. induction fuel as [|f IH]; intros st Hpos Hlen; [lia|].
  simpl. unfold match_here. simpl.
  destruct (m_pos st =? 0) eqn:E; [apply Nat.eqb_eq in E; contradiction|].
  unfold step1. destruct (m_rest st) as [|c t] eqn:Er; [reflexivity|].
  simpl. f_equal. rewrite IH; simpl; [reflexivity | discriminate | simpl in Hlen; lia].
Qed.

Lemma replace_lits (g : rmatchinfo -> string -> string) (l : chars) :
  fold_right (fun p acc => match p with
                           | PLit c => String c acc
                           | PMatch m => g m acc
                           end) "" (map PLit l) = l2s l.
Proof. induction l as [|c l IH]; simpl; [reflexivity | now rewrite IH]. Qed.

Lemma String_length_s2l (s : string) : List.length (s2l s) = String.length s.
Proof. induction s as [|c s IH]; simpl; [reflexivity | now rewrite IH]. Qed.

(** [s.replace (/^r\//, '')] removes the prefix [r/] when there is one. *)
Lemma replace_rslash_prefixed (s : string) :
  replace false false rslash "" ("r/" +++ s) = s.
Proof.
  unfold replace, replaceWith, pieces.
  cbn [String.append String.length scan s2l list_ascii_of_string].
  unfold match_here. cbn -[firstn Nat.sub].
  rewrite (replace_lits (fun _ acc => acc)). apply l2s_s2l.
Qed.

Lemma scan_miss (f : nat) (g ci : bool) (r : re) (st : mstate) :
  match_here ci r st = None ->
  scan (S f) g ci r st =
    match step1 st with
    | Some (c, st1) => PLit c :: scan f g ci r st1
    | None => []
    end.
Proof. intros H. cbn [scan]. now rewrite H. Qed.

Lemma replace_rslash_other (s : string) :
  prefixL (s2l "r/") (s2l s) = false ->
  replace false false rslash "" s = s.
Proof.
  intros H. unfold replace, replaceWith, pieces.
  destruct s as [|c s]; [reflexivity|].
  assert (Hm : match_here false rslash (mkM None (s2l (String c s)) 0 []) = None).
  { unfold match_here, rslash, L. cbn -[Ascii.eqb]. cbn -[Ascii.eqb] in H.
    destruct (Ascii.eqb "r" c) eqn:E1; [|reflexivity].
    destruct s as [|d s]; cbn -[Ascii.eqb]; [reflexivity|].
    cbn -[Ascii.eqb] in H.
    destruct (Ascii.eqb "/" d) eqn:E2; [discriminate | reflexivity]. }
  rewrite (scan_miss _ _ _ _ _ Hm). unfold step1. cbn [s2l list_ascii_of_string m_rest m_pos m_caps].
  unfold rslash. rewrite scan_anchored_later.
  - cbn [m_rest fold_right map].
    rewrite (replace_lits
               (fun m acc => l2s (expandL (ngroups (Seq Bol (L "r/"))) (s2l "") m) +++ acc)).
    now rewrite l2s_s2l.
  - cbn. discriminate.
  - cbn. rewrite String_length_s2l. lia.
Qed.

Lemma normalizeSubreddit_prefixed (s : string) :
  normalizeSubreddit ("r/" +++ s) = "r/" +++ trim s.
Proof.
  unfold normalizeSubreddit. fold rslash. now rewrite replace_rslash_prefixed.
Qed.

(** ** Random draws *)

Lemma frac_range (q : Q) : (0 <= frac q)%Q /\ (frac q < 1)%Q.
Proof.
  unfold frac. pose proof (Qfloor_le q) as H1. pose proof (Qlt_floor q) as H2.
  rewrite inject_Z_plus in H2. change (inject_Z 1) with 1%Q in H2.
  split; lra.
Qed.

(** [Math.floor (r * n)] is an index of an array of length [n]. *)
Lemma floorMul_lt (r : Q) (n : nat) :
  (0 <= r)%Q -> (r < 1)%Q -> 0 < n -> floorMul r n < n.
Proof.
  intros H0 H1 Hn. unfold floorMul.
  set (x := (r * inject_Z (Z.of_nat n))%Q).
  assert (Hn' : (0 < inject_Z (Z.of_nat n))%Q).
  { change 0%Q with (inject_Z 0). rewrite <- Zlt_Qlt. lia. }
  assert (Hx0 : (0 <= x)%Q).
  { unfold x. apply Qmult_le_0_compat; [exact H0 | apply Qlt_le_weak; exact Hn']. }
  assert (Hx1 : (x < inject_Z (Z.of_nat n))%Q).
  { unfold x. rewrite <- (Qmult_1_l (inject_Z (Z.of_nat n))) at 2.
    apply Qmult_lt_r; assumption. }
  assert (Hf0 : (0 <= Qfloor x)%Z).
  { change 0%Z with (Qfloor 0). apply Qfloor_resp_le. exact Hx0. }
  assert (Hf1 : (Qfloor x < Z.of_nat n)%Z).
  { rewrite Zlt_Qlt. eapply Qle_lt_trans; [apply Qfloor_le | exact Hx1]. }
  lia.
Qed.

Lemma floorMul_frac_lt (q : Q) (n : nat) : 0 < n -> floorMul (frac q) n < n.
Proof. intros. destruct (frac_range q). now apply floorMul_lt. Qed.

(** ** The monad *)

Lemma bind_Ok {A B} (m : M A) (k : A -> M B) (w : World) (r : B * World) :
  bind m k w = Ok r -> exists a w1, m w = Ok (a, w1) /\ k a w1 = Ok r.
Proof.
  unfold bind. destruct (m w) as [[a w1]| |]; intros H; try discriminate.
  now exists a, w1.
Qed.

Lemma bind_Throw {A B} (m : M A) (k : A -> M B) (w : World) (msg : string) :
  bind m k w = Throw msg ->
  m w = Throw msg \/ exists a w1, m w = Ok (a, w1) /\ k a w1 = Throw msg.
Proof.
  unfold bind. destruct (m w) as [[a w1]| |]; intros H; try discriminate.
  - right. now exists a, w1.
  - left. now inversion H.
Qed.

Lemma bind_of_Ok {A B} (m : M A) (k : A -> M B) (w w1 : World) (a : A) :
  m w = Ok (a, w1) -> bind m k w = k a w1.
Proof. unfold bind. now intros ->. Qed.

Tactic Notation "inv_bind" hyp(H) "as" ident(a) ident(w) ident(H1) :=
  apply bind_Ok in H; destruct H as (a & w & H1 & H).

(** A computation that raises no exception. *)
Definition NoThrow {A} (m : M A) : Prop := forall w msg, m w <> Throw msg.

Lemma NoThrow_ret {A} (a : A) : NoThrow (ret a).
Proof. intros w msg. discriminate. Qed.

Lemma NoThrow_bind {A B} (m : M A) (k : A -> M B) :
  NoThrow m -> (forall a, NoThrow (k a)) -> NoThrow (bind m k).
Proof.
  intros Hm Hk w msg H. apply bind_Throw in H as [H | (a & w1 & _ & H)].
  - exact (Hm _ _ H).
  - exact (Hk _ _ _ H).
Qed.

Lemma NoThrow_getW : NoThrow getW.
Proof. intros w msg. discriminate. Qed.

Lemma NoThrow_modifyW (f : World -> World) : NoThrow (modifyW f).
Proof. intros w msg. discriminate. Qed.

Lemma NoThrow_diverge {A} : NoThrow (@diverge A).
Proof. intros w msg. discriminate. Qed.

Lemma NoThrow_random (rand : nat -> Q) : NoThrow (random rand).
Proof. intros w msg. discriminate. Qed.

Lemma NoThrow_if {A} (b : bool) (m1 m2 : M A) :
  NoThrow m1 -> NoThrow m2 -> NoThrow (if b then m1 else m2).
Proof. now destruct b. Qed.

Lemma NoThrow_pick {T} (rand : nat -> Q) (arr : list T) :
  arr <> [] -> NoThrow (pick rand arr).
Proof.
  intros H. destruct arr as [|d t]; [contradiction|].
  unfold pick. apply NoThrow_bind; [apply NoThrow_random | intros; apply NoThrow_ret].
Qed.

Lemma pick_eq {T} (rand : nat -> Q) (d : T) (t : list T) (w : World) :
  pick rand (d :: t) w =
    Ok (nth (floorMul (frac (rand (draws w))) (List.length (d :: t))) (d :: t) d, tick w).
Proof. reflexivity. Qed.

Lemma pick_Ok {T} (rand : nat -> Q) (arr : list T) (w w' : World) (x : T) :
  pick rand arr w = Ok (x, w') -> In x arr.
Proof.
  destruct arr as [|d t]; [discriminate|]. rewrite pick_eq. intros H.
  replace x with (nth (floorMul (frac (rand (draws w))) (List.length (d :: t))) (d :: t) d)
    by congruence.
  apply nth_In. apply floorMul_frac_lt. simpl. lia.
Qed.

(** ** No exception is raised by the text engine

    The only [throw] of the text engine is the one of [pick] and
    [pickWeekUnique] on an empty array; every array they are given is
    either a constant of the program or one of the seed libraries. *)

Definition seedsNonEmpty (seeds : SeedLibrary) : Prop :=
  introSeeds seeds <> [] /\ reflectionSeeds seeds <> [] /\ struggleSeeds seeds <> []
  /\ adviceSeeds seeds <> [] /\ closingSeeds seeds <> [] /\ shortReplySeeds seeds <> []
  /\ affirmationSeeds seeds <> [] /\ humorSeeds seeds <> [].

Section NoThrowEngine.

Variable rand : nat -> Q.

Lemma NoThrow_chance (p : Q) : NoThrow (chance rand p).
Proof.
  unfold chance. apply NoThrow_bind; [apply NoThrow_random | intros; apply NoThrow_ret].
Qed.

Lemma NoThrow_pickWeighted {T} (d : T) (ws : list (T * Q)) : NoThrow (pickWeighted rand d ws).
Proof.
  unfold pickWeighted. apply NoThrow_bind; [apply NoThrow_random | intros; apply NoThrow_ret].
Qed.

Lemma NoThrow_replacePieces (f : rmatchinfo -> M string) (ps : list piece) :
  (forall m, NoThrow (f m)) -> NoThrow (replacePieces f ps).
Proof.
  intros Hf. induction ps as [|[c|m] ps IH]; simpl.
  - apply NoThrow_ret.
  - apply NoThrow_bind; [exact IH | intros; apply NoThrow_ret].
  - apply NoThrow_bind; [apply Hf|]. intros.
    apply NoThrow_bind; [exact IH | intros; apply NoThrow_ret].
Qed.

Lemma NoThrow_replaceWithM (g ci : bool) (r : re) (f : rmatchinfo -> M string) (s : string) :
  (forall m, NoThrow (f m)) -> NoThrow (replaceWithM g ci r f s).
Proof. intros. now apply NoThrow_replacePieces. Qed.

Lemma NoThrow_randomOf (arr : list string) : NoThrow (randomOf rand arr).
Proof.
  unfold randomOf. apply NoThrow_bind; [apply NoThrow_random | intros; apply NoThrow_ret].
Qed.

Lemma NoThrow_setHistory (h : WeekSeedHistory) : NoThrow (setHistory h).
Proof. apply NoThrow_modifyW. Qed.

Lemma NoThrow_setLastIntro (s : string) : NoThrow (setLastIntro s).
Proof. apply NoThrow_modifyW. Qed.

Lemma NoThrow_setLastComment (s : string) : NoThrow (setLastComment s).
Proof. apply NoThrow_modifyW. Qed.

(** One step of the search for a proof of [NoThrow]. *)
Ltac nothrow_step :=
  match goal with
  | |- NoThrow (bind _ _) => apply NoThrow_bind; [|intros ?]
  | |- NoThrow (ret _) => apply NoThrow_ret
  | |- NoThrow getW => apply NoThrow_getW
  | |- NoThrow (modifyW _) => apply NoThrow_modifyW
  | |- NoThrow (setHistory _) => apply NoThrow_setHistory
  | |- NoThrow (setLastIntro _) => apply NoThrow_setLastIntro
  | |- NoThrow (setLastComment _) => apply NoThrow_setLastComment
  | |- NoThrow diverge => apply NoThrow_diverge
  | |- NoThrow (random _) => apply NoThrow_random
  | |- NoThrow (chance _ _) => apply NoThrow_chance
  | |- NoThrow (randomOf _ _) => apply NoThrow_randomOf
  | |- NoThrow (pickWeighted _ _ _) => apply NoThrow_pickWeighted
  | |- NoThrow (replaceWithM _ _ _ _ _) => apply NoThrow_replaceWithM; intros ?
  | |- NoThrow (pick _ (_ :: _)) => apply NoThrow_pick; discriminate
  | |- NoThrow (pick _ (map _ (_ :: _))) => apply NoThrow_pick; discriminate
  | |- NoThrow (pick _ (_ ++ [_])) =>
      apply NoThrow_pick; let H := fresh in intros H; now apply app_eq_nil in H
  | H : NoThrow ?m |- NoThrow ?m => exact H
  | H : forall x, NoThrow _ |- NoThrow _ => apply H
  | |- NoThrow (if ?b then _ else _) => destruct b
  | |- NoThrow (match ?x with _ => _ end) => destruct x
  | |- NoThrow (let _ := _ in _) => cbv zeta
  end.

Ltac nothrow := repeat nothrow_step.

Lemma NoThrow_replaceTopicRepetition (text topic : string) :
  NoThrow (replaceTopicRepetition rand text topic).
Proof. unfold replaceTopicRepetition, topicPronouns. nothrow. Qed.

Lemma NoThrow_smoothText (str : string) : NoThrow (smoothText rand str).
Proof. unfold smoothText. nothrow. Qed.

Lemma NoThrow_removeFillerPhrases (text : string) : NoThrow (removeFillerPhrases rand text).
Proof. unfold removeFillerPhrases, replaceGenericFillers, fillerVariants. nothrow. Qed.

Lemma NoThrow_rewriteDualThemes (topic : string) : NoThrow (rewriteDualThemes rand topic).
Proof. unfold rewriteDualThemes. nothrow. Qed.

Lemma firstKey_In (ok : string -> bool) (m : list (string * list string)) key syn :
  firstKey ok m = Some (key, syn) -> In (key, syn) m.
Proof.
  induction m as [|[k s] m IH]; simpl; [discriminate|].
  destruct (ok k); intros H; [left; congruence | right; auto].
Qed.

Lemma synonymMap_nonempty key syn : In (key, syn) synonymMap -> syn <> [].
Proof.
  unfold synonymMap. simpl.
  intros H. repeat (destruct H as [H|H]; [injection H as <- <-; discriminate|]).
  contradiction.
Qed.

Lemma NoThrow_topicSimplify (topic : string) : NoThrow (topicSimplify rand topic).
Proof.
  unfold topicSimplify.
  destruct (firstKey (fun key => includes (toLowerCase topic) key) synonymMap)
    as [[key syn]|] eqn:E1.
  - apply firstKey_In, synonymMap_nonempty in E1.
    apply NoThrow_bind; [now apply NoThrow_pick | intros; apply NoThrow_ret].
  - destruct (firstKey (fun key => test true (keyPattern key) topic) synonymMap)
      as [[key syn]|] eqn:E2; [|apply NoThrow_ret].
    apply firstKey_In, synonymMap_nonempty in E2.
    apply NoThrow_bind; [now apply NoThrow_pick | intros; apply NoThrow_ret].
Qed.

Lemma NoThrow_injectTopic (template topic : string) : NoThrow (injectTopic rand template topic).
Proof.
  unfold injectTopic. apply NoThrow_bind; [apply NoThrow_topicSimplify|].
  intros. apply NoThrow_ret.
Qed.

Lemma tonePrefixes_nonempty key o : In (key, o) tonePrefixes -> o <> [].
Proof.
  unfold tonePrefixes. simpl.
  intros H. repeat (destruct H as [H|H]; [injection H as <- <-; discriminate|]).
  contradiction.
Qed.

Lemma NoThrow_getPersonaTone (persona : Persona) : NoThrow (getPersonaTone rand persona).
Proof.
  unfold getPersonaTone. cbv zeta.
  destruct (firstKey _ tonePrefixes) as [[key o]|] eqn:E.
  - apply firstKey_In, tonePrefixes_nonempty in E. now apply NoThrow_pick.
  - apply NoThrow_pick. discriminate.
Qed.

Lemma NoThrow_getStylePrefix (style : StyleMode) : NoThrow (getStylePrefix rand style).
Proof. unfold getStylePrefix. destruct style; apply NoThrow_pick; discriminate. Qed.

Lemma NoThrow_pickWeekUnique {T} (eqb : T -> T -> bool) (arr : list T) (c : Category T) :
  arr <> [] -> NoThrow (pickWeekUnique rand eqb arr c).
Proof.
  intros H. unfold pickWeekUnique.
  destruct arr as [|x [|y t]]; [contradiction | apply NoThrow_ret |].
  apply NoThrow_bind; [apply NoThrow_getW | intros w].
  destruct (filter _ (x :: y :: t)) as [|z f] eqn:E.
  - apply NoThrow_pick. discriminate.
  - nothrow.
Qed.

Lemma NoThrow_pickLengthMode (topic : string) : NoThrow (pickLengthMode rand topic).
Proof. unfold pickLengthMode, setLastLengthMode. nothrow. Qed.

Lemma NoThrow_getTopicReference (topic : string) (mode : TopicRefMode) :
  NoThrow (getTopicReference rand topic mode).
Proof. destruct mode; simpl; [apply NoThrow_topicSimplify | nothrow | nothrow]. Qed.

Lemma NoThrow_cleanupPipeline (topicSimple result : string) :
  NoThrow (cleanupPipeline rand topicSimple result).
Proof.
  unfold cleanupPipeline. cbv zeta.
  apply NoThrow_bind; [apply NoThrow_rewriteDualThemes | intros].
  apply NoThrow_bind; [apply NoThrow_removeFillerPhrases | intros].
  apply NoThrow_bind; [apply NoThrow_replaceTopicRepetition | intros].
  apply NoThrow_smoothText.
Qed.

Variable seeds : SeedLibrary.
Hypothesis seeds_ok : seedsNonEmpty seeds.

Lemma NoThrow_pickIntro (fuel : nat) : NoThrow (pickIntro rand seeds fuel).
Proof.
  induction fuel as [|f IH]; simpl; [apply NoThrow_diverge|].
  apply NoThrow_bind; [apply NoThrow_pickWeekUnique; apply seeds_ok | intros].
  apply NoThrow_bind; [apply NoThrow_getW | intros].
  apply NoThrow_if; [exact IH | apply NoThrow_ret].
Qed.

Ltac seed_pick :=
  match goal with
  | |- NoThrow (pickSeed _ _ _) =>
      apply NoThrow_pickWeekUnique; first [apply seeds_ok | discriminate]
  | |- NoThrow (pickWeekUnique _ _ _ _) =>
      apply NoThrow_pickWeekUnique; first [apply seeds_ok | discriminate]
  | |- NoThrow (topicSimplify _ _) => apply NoThrow_topicSimplify
  | |- NoThrow (rewriteDualThemes _ _) => apply NoThrow_rewriteDualThemes
  | |- NoThrow (pickLengthMode _ _) => apply NoThrow_pickLengthMode
  | |- NoThrow (pickIntro _ _ _) => apply NoThrow_pickIntro
  | |- NoThrow (getPersonaTone _ _) => apply NoThrow_getPersonaTone
  | |- NoThrow (getStylePrefix _ _) => apply NoThrow_getStylePrefix
  | |- NoThrow (cleanupPipeline _ _ _) => apply NoThrow_cleanupPipeline
  | |- NoThrow (getTopicReference _ _ _) => apply NoThrow_getTopicReference
  | |- NoThrow (injectTopic _ _ _) => apply NoThrow_injectTopic
  | |- NoThrow (smoothText _ _) => apply NoThrow_smoothText
  | |- NoThrow (removeFillerPhrases _ _) => apply NoThrow_removeFillerPhrases
  | |- NoThrow (shouldMentionCompany _) => apply NoThrow_chance
  | |- NoThrow (pickTopicRefMode _) => apply NoThrow_pick; discriminate
  | |- NoThrow (pick _ shortIntroSeeds) => apply NoThrow_pick; discriminate
  | |- NoThrow (pick _ shortPatterns) => apply NoThrow_pick; discriminate
  | |- NoThrow (pick _ shortCommentPatterns) => apply NoThrow_pick; discriminate
  | |- NoThrow (pick _ mediumCommentPatterns) => apply NoThrow_pick; discriminate
  | |- NoThrow (pick _ noIntroComments) => apply NoThrow_pick; discriminate
  | |- NoThrow (pick _ ultraShortComments) => apply NoThrow_pick; discriminate
  | |- NoThrow (pick _ enhancers) => apply NoThrow_pick; discriminate
  | |- NoThrow (pick _ (commentIntroOptions _)) => apply NoThrow_pick; discriminate
  | _ => nothrow_step
  end.

Lemma NoThrow_generateHybridPost (fuel : nat) (persona : Persona) (topic : string)
    (company : CompanyInfo) :
  NoThrow (generateHybridPost rand seeds fuel persona topic company).
Proof. unfold generateHybridPost. repeat seed_pick. Qed.

Lemma NoThrow_pickShortComment (more : nat) (tokens : PatternTokens) :
  NoThrow (pickShortComment rand more tokens).
Proof.
  induction more as [|m IH]; cbn [pickShortComment]; repeat seed_pick.
Qed.

Lemma NoThrow_finishComment (useIntro : bool) (tonePrefix result : string) :
  NoThrow (finishComment rand useIntro tonePrefix result).
Proof. unfold finishComment. repeat seed_pick. Qed.

Lemma NoThrow_generateHybridComment (persona : Persona) (topic : string)
    (company : CompanyInfo) (postLength : option LengthMode) :
  NoThrow (generateHybridComment rand seeds persona topic company postLength).
Proof.
  unfold generateHybridComment.
  repeat first [ apply NoThrow_pickShortComment | apply NoThrow_finishComment | seed_pick ].
Qed.

End NoThrowEngine.

(** ** Shuffling *)

Section Scheduler.

Variable rand : nat -> Q.
Variable seeds : SeedLibrary.
Variable today : Z.

Lemma insertByKey_perm {T} (p : T * Q) (l : list (T * Q)) :
  Permutation (p :: l) (insertByKey p l).
Proof.
  induction l as [|q t IH]; simpl; [reflexivity|].
  destruct (Qltb (snd q) (snd p)); [|reflexivity].
  rewrite perm_swap. now apply perm_skip.
Qed.

Lemma sortByKey_perm {T} (l : list (T * Q)) : Permutation l (sortByKey l).
Proof.
  induction l as [|p t IH]; simpl; [reflexivity|].
  rewrite <- insertByKey_perm. now apply perm_skip.
Qed.

Lemma withKeys_Ok {T} (arr : list T) (w : World) :
  exists keyed w', withKeys rand arr w = Ok (keyed, w') /\ map fst keyed = arr
                   /\ weekSeedHistory w' = weekSeedHistory w
                   /\ lastIntro w' = lastIntro w /\ lastComment w' = lastComment w.
Proof.
  revert w. induction arr as [|x t IH]; intros w; simpl.
  - exists [], w. repeat split; reflexivity.
  - destruct (IH (tick w)) as (keyed & w' & E & Hm & H1 & H2 & H3).
    exists ((x, frac (rand (draws w))) :: keyed), w'.
    unfold bind, random. rewrite E. simpl. rewrite Hm. repeat split; assumption.
Qed.

(** [shuffle] always returns, and what it returns is a rearrangement of
    its argument. *)
Lemma shuffle_Ok {T} (arr : list T) (w : World) :
  exists l w', shuffle rand arr w = Ok (l, w') /\ Permutation arr l
               /\ weekSeedHistory w' = weekSeedHistory w
               /\ lastIntro w' = lastIntro w /\ lastComment w' = lastComment w.
Proof.
  destruct (withKeys_Ok arr w) as (keyed & w' & E & Hm & Hw).
  exists (map fst (sortByKey keyed)), w'. unfold shuffle, bind. rewrite E. simpl.
  split; [reflexivity|]. split; [|exact Hw].
  rewrite <- Hm. apply Permutation_map, sortByKey_perm.
Qed.

(** ** The commenter *)

Definition others (personas : list Persona) (poster : Persona) : list Persona :=
  filter (fun p => negb (name p =? name poster)%string) personas.

(** What [pickDifferentPersona] may return: one of the other personas,
    or the first persona when there is no other. *)
Definition commenterOf (personas : list Persona) (poster commenter : Persona) : Prop :=
  match others personas poster with
  | [] => nth_error personas 0 = Some commenter
  | _ => In commenter (others personas poster)
  end.

Lemma choose_Ok {T} (arr : list T) (w w' : World) (o : option T) :
  arr <> [] -> choose rand arr w = Ok (o, w') -> exists x, o = Some x /\ In x arr.
Proof.
  intros Hne H. unfold choose, bind, random in H. simpl in H.
  injection H as <- _.
  destruct (nth_error arr (floorMul (frac (rand (draws w))) (List.length arr))) eqn:E.
  - exists t. split; [reflexivity|]. eapply nth_error_In; eassumption.
  - apply nth_error_None in E.
    pose proof (floorMul_frac_lt (rand (draws w)) (List.length arr)).
    destruct arr; [contradiction|]. simpl in *. lia.
Qed.

Lemma pickDifferentPersona_Ok (personas : list Persona) (poster : Persona)
    (w w' : World) (o : option Persona) :
  personas <> [] ->
  pickDifferentPersona rand personas poster w = Ok (o, w') ->
  exists c, o = Some c /\ commenterOf personas poster c.
Proof.
  intros Hne H. unfold pickDifferentPersona in H. unfold commenterOf, others.
  destruct (filter _ personas) as [|x f] eqn:E.
  - injection H as <- _. destruct personas as [|p t]; [contradiction|].
    exists p. split; reflexivity.
  - apply choose_Ok in H; [|discriminate]. exact H.
Qed.

Lemma NoThrow_pickDifferentPersona (personas : list Persona) (poster : Persona) :
  NoThrow (pickDifferentPersona rand personas poster).
Proof.
  unfold pickDifferentPersona. destruct (filter _ personas); [apply NoThrow_ret|].
  unfold choose. apply NoThrow_bind; [apply NoThrow_random | intros; apply NoThrow_ret].
Qed.

(** ** One slot *)

Definition daySet (st : Sched) (dayOffset : nat) : list string :=
  match map_get (usedSubredditsPerDay st) dayOffset with
  | Some s => s
  | None => []
  end.

(** What a completed turn of the inner loop did to the state. *)
Definition SlotStep (fuel : nat) (pl : Plan) (dayOffset : nat) (dateStr : string)
    (st st' : Sched) : Prop :=
  exists topic ti raw si poster commenter postText commentText,
    selectTopic fuel pl (List.length (s_posts st)) (usedTopics st) (topicIndex st)
      = Some (topic, ti)
    /\ selectSubreddit fuel pl (daySet st dayOffset) (lastSubreddit st) (subredditIndex st) 0
      = Some (raw, si)
    /\ nth_error (shuffledPersonas pl)
         (personaIndex st mod List.length (shuffledPersonas pl)) = Some poster
    /\ commenterOf (shuffledPersonas pl) poster commenter
    /\ st' = mkSched
               (s_posts st ++
                  [mkPost dateStr (normalizeSubreddit raw) (name poster) (name commenter)
                     topic postText commentText])
               (set_add (usedTopics st) topic)
               (map_set (usedSubredditsPerDay st) dayOffset
                  (set_add (daySet st dayOffset) raw))
               (Some raw) ti si (S (personaIndex st)).

Lemma scheduleSlot_Ok (fuel : nat) (pl : Plan) (d : nat) (ds : string)
    (st st' : Sched) (w w' : World) :
  scheduleSlot rand seeds fuel pl d ds st w = Ok (st', w') ->
  SlotStep fuel pl d ds st st'.
Proof.
  unfold scheduleSlot, SlotStep. fold (daySet st d).
  destruct (selectTopic _ _ _ _ _) as [[topic ti]|]; [|discriminate].
  destruct (selectSubreddit _ _ _ _ _ _) as [[raw si]|]; [|discriminate].
  destruct (nth_error _ _) as [poster|] eqn:Ep; [|discriminate].
  intros H. inv_bind H as oc w1 Hoc.
  assert (Hne : shuffledPersonas pl <> []).
  { intros E. rewrite E in Ep. now destruct (personaIndex st mod _). }
  destruct (pickDifferentPersona_Ok _ _ _ _ _ Hne Hoc) as (c & -> & Hc).
  inv_bind H as postText w2 Hpost. inv_bind H as commentText w3 Hcomment.
  injection H as <- _.
  exists topic, ti, raw, si, poster, c, postText, commentText. repeat split; assumption.
Qed.

Lemma NoThrow_bind_post {A B} (P : A -> Prop) (m : M A) (k : A -> M B) :
  (forall w a w', m w = Ok (a, w') -> P a) ->
  NoThrow m -> (forall a, P a -> NoThrow (k a)) -> NoThrow (bind m k).
Proof.
  intros HP Hm Hk w msg H. apply bind_Throw in H as [H | (a & w1 & E & H)].
  - exact (Hm _ _ H).
  - exact (Hk _ (HP _ _ _ E) _ _ H).
Qed.

Hypothesis seeds_ok : seedsNonEmpty seeds.

Lemma NoThrow_scheduleSlot (fuel : nat) (pl : Plan) (d : nat) (ds : string) (st : Sched) :
  shuffledPersonas pl <> [] ->
  NoThrow (scheduleSlot rand seeds fuel pl d ds st).
Proof.
  intros Hne. unfold scheduleSlot.
  destruct (selectTopic _ _ _ _ _) as [[topic ti]|]; [|apply NoThrow_diverge].
  destruct (selectSubreddit _ _ _ _ _ _) as [[raw si]|]; [|apply NoThrow_diverge].
  destruct (nth_error _ _) as [poster|] eqn:Ep.
  - apply (NoThrow_bind_post (fun o => o <> None)).
    + intros w a w' H. apply pickDifferentPersona_Ok in H as (c & -> & _);
        [discriminate | exact Hne].
    + apply NoThrow_pickDifferentPersona.
    + intros [c|] Hc; [|contradiction].
      apply NoThrow_bind; [now apply NoThrow_generateHybridPost | intros].
      apply NoThrow_bind; [now apply NoThrow_generateHybridComment | intros].
      apply NoThrow_ret.
  - apply nth_error_None in Ep.
    pose proof (Nat.mod_upper_bound (personaIndex st) (List.length (shuffledPersonas pl))).
    destruct (shuffledPersonas pl); [contradiction | simpl in *; lia].
Qed.

Lemma NoThrow_dayLoop (fuel : nat) (pl : Plan) (d : nat) (ds : string) (left : nat)
    (st : Sched) :
  shuffledPersonas pl <> [] ->
  NoThrow (dayLoop rand seeds fuel pl d ds left st).
Proof.
  intros Hne. revert st. induction left as [|l IH]; intros st; simpl.
  - apply NoThrow_ret.
  - destruct (moreWanted pl st); [|apply NoThrow_ret].
    apply NoThrow_bind; [now apply NoThrow_scheduleSlot | intros; apply IH].
Qed.

Lemma NoThrow_weekLoop (fuel : nat) (pl : Plan) (days d : nat) (st : Sched) :
  shuffledPersonas pl <> [] ->
  NoThrow (weekLoop rand seeds fuel pl days d st).
Proof.
  intros Hne. revert d st. induction days as [|n IH]; intros d st; simpl.
  - apply NoThrow_ret.
  - destruct (moreWanted pl st); [|apply NoThrow_ret].
    apply NoThrow_bind; [now apply NoThrow_dayLoop | intros; apply IH].
Qed.

End Scheduler.

(** ** The shape of a run of the loops *)

Section Runs.

Variable rand : nat -> Q.
Variable seeds : SeedLibrary.
Variable fuel : nat.
Variable pl : Plan.

(** the number of posts still wanted *)
Definition wanted (st : Sched) : nat :=
  Z.to_nat (postsPerWeek (p_input pl) - Z.of_nat (List.length (s_posts st))).

Lemma moreWanted_wanted (st : Sched) : moreWanted pl st = true <-> 0 < wanted st.
Proof. unfold moreWanted, wanted. rewrite Z.ltb_lt. lia. Qed.

(** [k] consecutive turns of the inner loop *)
Inductive DayRun (d : nat) (ds : string) : nat -> Sched -> Sched -> Prop :=
| DayRun_nil st : DayRun d ds 0 st st
| DayRun_cons k st st1 st2 :
    SlotStep fuel pl d ds st st1 -> DayRun d ds k st1 st2 -> DayRun d ds (S k) st st2.

Lemma SlotStep_posts d ds st st' :
  SlotStep fuel pl d ds st st' ->
  exists p, s_posts st' = s_posts st ++ [p] /\ date p = ds.
Proof.
  intros (topic & ti & raw & si & poster & c & pt & ct & _ & _ & _ & _ & ->).
  eexists. split; reflexivity.
Qed.

Lemma SlotStep_wanted d ds st st' :
  SlotStep fuel pl d ds st st' -> wanted st' = wanted st - 1.
Proof.
  intros H. apply SlotStep_posts in H as (p & E & _). unfold wanted. rewrite E.
  rewrite length_app. simpl. lia.
Qed.

Lemma dayLoop_Ok (d : nat) (ds : string) (left : nat) (st st' : Sched) (w w' : World) :
  dayLoop rand seeds fuel pl d ds left st w = Ok (st', w') ->
  DayRun d ds (Nat.min left (wanted st)) st st'.
Proof.
  revert st w. induction left as [|l IH]; intros st w H; simpl in H.
  - injection H as <- _. constructor.
  - destruct (moreWanted pl st) eqn:Em.
    + inv_bind H as st1 w1 Hs. apply scheduleSlot_Ok in Hs.
      apply IH in H. apply moreWanted_wanted in Em.
      rewrite (SlotStep_wanted _ _ _ _ Hs) in H.
      replace (Nat.min (S l) (wanted st)) with (S (Nat.min l (wanted st - 1))) by lia.
      econstructor; eassumption.
    + injection H as <- _.
      assert (wanted st = 0).
      { destruct (wanted st) eqn:E; [reflexivity|].
        assert (moreWanted pl st = true) by (apply moreWanted_wanted; lia). congruence. }
      replace (Nat.min (S l) (wanted st)) with 0 by lia. constructor.
Qed.

(** the state at the start of a day: its set of communities exists *)
Definition startDay (d : nat) (st : Sched) : Sched :=
  mkSched (s_posts st) (usedTopics st)
    (match map_get (usedSubredditsPerDay st) d with
     | Some _ => usedSubredditsPerDay st
     | None => map_set (usedSubredditsPerDay st) d []
     end)
    (lastSubreddit st) (topicIndex st) (subredditIndex st) (personaIndex st).

Definition dateOf (d : nat) : string :=
  formatDate (addDays (p_weekStart pl) (Z.of_nat d)).

(** the number of slots that day [d] receives when it starts in [st] *)
Definition quotaAt (d : nat) (st : Sched) : nat := Z.to_nat (postsToday pl d st).

(** the days [d], [d+1], ... of the outer loop *)
Inductive WeekRun : nat -> nat -> Sched -> Sched -> Prop :=
| WeekRun_nil d st : WeekRun 0 d st st
| WeekRun_stop days d st : wanted st = 0 -> WeekRun days d st st
| WeekRun_day days d st st1 st2 :
    0 < wanted st ->
    DayRun d (dateOf d) (quotaAt d st) (startDay d st) st1 ->
    WeekRun days (S d) st1 st2 ->
    WeekRun (S days) d st st2.

Lemma ceilDiv_bounds (a b : Z) :
  (0 < b)%Z -> (a <= ceilDiv a b * b)%Z /\ (ceilDiv a b * b < a + b)%Z.
Proof.
  intros Hb. unfold ceilDiv.
  pose proof (Z.div_mod (- a) b ltac:(lia)) as E.
  pose proof (Z.mod_pos_bound (- a) b Hb) as Hm.
  split; nia.
Qed.

Lemma quotaAt_le_wanted (d : nat) (st : Sched) :
  d < 7 -> 0 < wanted st -> 0 < quotaAt d st <= wanted st.
Proof.
  intros Hd Hw. unfold quotaAt, postsToday, wanted in *.
  set (r := (postsPerWeek (p_input pl) - Z.of_nat (List.length (s_posts st)))%Z) in *.
  destruct (ceilDiv_bounds r (7 - Z.of_nat d) ltac:(lia)) as [H1 H2].
  assert (0 < r)%Z by lia.
  assert (0 < ceilDiv r (7 - Z.of_nat d))%Z by nia.
  assert (ceilDiv r (7 - Z.of_nat d) <= r)%Z by nia.
  lia.
Qed.

Lemma weekLoop_Ok (days d : nat) (st st' : Sched) (w w' : World) :
  d + days <= 7 ->
  weekLoop rand seeds fuel pl days d st w = Ok (st', w') ->
  WeekRun days d st st'.
Proof.
  revert d st w. induction days as [|n IH]; intros d st w Hd H; simpl in H.
  - injection H as <- _. constructor.
  - destruct (moreWanted pl st) eqn:Em.
    + apply moreWanted_wanted in Em.
      inv_bind H as st1 w1 Hday. apply dayLoop_Ok in Hday.
      fold (startDay d st) in Hday.
      change (Z.to_nat (postsToday pl d (startDay d st))) with (quotaAt d st) in Hday.
      change (wanted (startDay d st)) with (wanted st) in Hday.
      rewrite Nat.min_l in Hday by (apply quotaAt_le_wanted; lia).
      eapply WeekRun_day; [exact Em | exact Hday |].
      eapply IH; [lia | exact H].
    + injection H as <- _. apply WeekRun_stop.
      destruct (wanted st) eqn:E; [reflexivity|].
      assert (moreWanted pl st = true) by (apply moreWanted_wanted; lia). congruence.
Qed.

(** A property of states that every slot preserves holds at the end of
    the week. *)
Lemma DayRun_inv (P : Sched -> Prop) d ds k st st' :
  (forall st st', P st -> SlotStep fuel pl d ds st st' -> P st') ->
  DayRun d ds k st st' -> P st -> P st'.
Proof. intros HP H. induction H; eauto. Qed.

Lemma WeekRun_inv (P : Sched -> Prop) days d st st' :
  (forall d st, P st -> P (startDay d st)) ->
  (forall d ds st st', P st -> SlotStep fuel pl d ds st st' -> P st') ->
  WeekRun days d st st' -> P st -> P st'.
Proof.
  intros H0 HP H. induction H; intros Hst; auto.
  apply IHWeekRun. eapply DayRun_inv; [apply HP | eassumption | now apply H0].
Qed.

End Runs.

(** ** What a returned calendar was made of *)

Section Build.

Variable rand : nat -> Q.
Variable seeds : SeedLibrary.
Variable today : Z.

Definition planOf (input : GenerationInput) (ov : option string)
    (sT : list string) (sP : list Persona) (sS : list string) : Plan :=
  mkPlan input (expandThemesToTopics (themes input)) sT sP sS (chooseWeekStart today ov).

Lemma generateWeeklyCalendar_Ok (fuel : nat) (input : GenerationInput)
    (ov : option string) (w w' : World) (cal : WeeklyCalendar) :
  generateWeeklyCalendar rand seeds today fuel input ov w = Ok (cal, w') ->
  2 <= List.length (personas input) /\ subreddits input <> [] /\ themes input <> []
  /\ exists sT sP sS st,
       Permutation (expandThemesToTopics (themes input)) sT
       /\ Permutation (personas input) sP
       /\ Permutation (subreddits input) sS
       /\ WeekRun fuel (planOf input ov sT sP sS) 7 0 initialSched st
       /\ cal = mkCalendar (formatDate (chooseWeekStart today ov)) (s_posts st).
Proof.
  unfold generateWeeklyCalendar. intros H.
  inv_bind H as u w0 Hreset.
  destruct (List.length (personas input) <? 2) eqn:E1; [discriminate|].
  destruct (List.length (subreddits input) =? 0) eqn:E2; [discriminate|].
  destruct (List.length (themes input) =? 0) eqn:E3; [discriminate|].
  apply Nat.ltb_ge in E1. apply Nat.eqb_neq in E2, E3.
  split; [exact E1|]. split; [now destruct (subreddits input)|].
  split; [now destruct (themes input)|].
  inv_bind H as sT w1 HT. inv_bind H as sP w2 HP. inv_bind H as sS w3 HS.
  inv_bind H as st w4 Hrun. injection H as <- _.
  destruct (shuffle_Ok rand (expandThemesToTopics (themes input)) w0)
    as (l1 & ? & F1 & P1 & _).
  destruct (shuffle_Ok rand (personas input) w1) as (l2 & ? & F2 & P2 & _).
  destruct (shuffle_Ok rand (subreddits input) w2) as (l3 & ? & F3 & P3 & _).
  assert (l1 = sT) by congruence. assert (l2 = sP) by congruence.
  assert (l3 = sS) by congruence. subst.
  exists sT, sP, sS, st. repeat split; try assumption.
  eapply weekLoop_Ok; [|exact Hrun]. lia.
Qed.

End Build.

(** ** Poster and commenter *)






(** ** Validation *)

(** C9.  Supposing that no seed library is empty, [generateWeeklyCalendar]
    throws exactly when there are fewer than two personas, or no
    community, or no theme; the message names the first of these that
    fails; and the error does not depend on the random source, on the
    seed libraries or on the fuel: it is raised before any draw is made
    and before any loop is entered, so that no slot has been scheduled. *)
Theorem validation_errors
    (rand : nat -> Q) (seeds : SeedLibrary) (today : Z) (fuel : nat)
    (input : GenerationInput) (ov : option string) (w : World) :
  seedsNonEmpty seeds ->
  (forall msg,
     generateWeeklyCalendar rand seeds today fuel input ov w = Throw msg <->
       (List.length (personas input) < 2 /\ msg = "At least 2 personas are required")
       \/ (2 <= List.length (personas input) /\ subreddits input = []
           /\ msg = "At least 1 subreddit is required")
       \/ (2 <= List.length (personas input) /\ subreddits input <> []
           /\ themes input = [] /\ msg = "At least 1 theme is required"))
  /\ (forall msg,
        generateWeeklyCalendar rand seeds today fuel input ov w = Throw msg ->
        forall rand' seeds' fuel',
          generateWeeklyCalendar rand' seeds' today fuel' input ov w = Throw msg).
Proof.
  intros Hseeds.
  assert (Hiff : forall msg,
     generateWeeklyCalendar rand seeds today fuel input ov w = Throw msg <->
       (List.length (personas input) < 2 /\ msg = "At least 2 personas are required")
       \/ (2 <= List.length (personas input) /\ subreddits input = []
           /\ msg = "At least 1 subreddit is required")
       \/ (2 <= List.length (personas input) /\ subreddits input <> []
           /\ themes input = [] /\ msg = "At least 1 theme is required")).
  { intros msg. unfold generateWeeklyCalendar.
    rewrite (bind_of_Ok _ _ w
               (mkWorld (draws w) emptyHistory (lastIntro w) (lastComment w)) tt)
      by reflexivity.
    destruct (List.length (personas input) <? 2) eqn:E1.
    { apply Nat.ltb_lt in E1. unfold throw. split.
      - intros H. injection H as <-. left. split; [exact E1 | reflexivity].
      - intros [[_ ->]|[(H & _)|(H & _)]]; [reflexivity | lia | lia]. }
    apply Nat.ltb_ge in E1.
    destruct (List.length (subreddits input) =? 0) eqn:E2.
    { apply Nat.eqb_eq, length_zero_iff_nil in E2. unfold throw. split.
      - intros H. injection H as <-. right. left. repeat split; assumption.
      - intros [[H _]|[(_ & _ & ->)|(_ & H & _)]]; [lia | reflexivity | contradiction]. }
    apply Nat.eqb_neq in E2.
    assert (Hs : subreddits input <> []) by (now destruct (subreddits input)).
    destruct (List.length (themes input) =? 0) eqn:E3.
    { apply Nat.eqb_eq, length_zero_iff_nil in E3. unfold throw. split.
      - intros H. injection H as <-. right. right. repeat split; assumption.
      - intros [[H _]|[(_ & H & _)|(_ & _ & _ & ->)]]; [lia | contradiction | reflexivity]. }
    apply Nat.eqb_neq in E3.
    assert (Ht : themes input <> []) by (now destruct (themes input)).
    split.
    - intros H. exfalso. revert H.
      set (w0 := mkWorld (draws w) emptyHistory (lastIntro w) (lastComment w)).
      destruct (shuffle_Ok rand (expandThemesToTopics (themes input)) w0)
        as (sT & w1 & F1 & _).
      destruct (shuffle_Ok rand (personas input) w1) as (sP & w2 & F2 & P2 & _).
      destruct (shuffle_Ok rand (subreddits input) w2) as (sS & w3 & F3 & _).
      rewrite (bind_of_Ok _ _ _ _ _ F1), (bind_of_Ok _ _ _ _ _ F2),
        (bind_of_Ok _ _ _ _ _ F3).
      apply NoThrow_bind; [|intros; apply NoThrow_ret].
      apply NoThrow_weekLoop; [exact Hseeds|]. cbn [shuffledPersonas].
      intros E. apply Permutation_length in P2. rewrite E in P2. simpl in P2. lia.
    - intros [[H _]|[(_ & H & _)|(_ & _ & H & _)]]; [lia | contradiction | contradiction]. }
  split; [exact Hiff|].
  intros msg H rand' seeds' fuel'. apply Hiff in H.
  unfold generateWeeklyCalendar.
  rewrite (bind_of_Ok _ _ w
             (mkWorld (draws w) emptyHistory (lastIntro w) (lastComment w)) tt)
    by reflexivity.
  destruct H as [[H ->]|[(H1 & H2 & ->)|(H1 & H2 & H3 & ->)]].
  - apply Nat.ltb_lt in H. now rewrite H.
  - apply Nat.ltb_ge in H1. rewrite H1, H2. reflexivity.
  - apply Nat.ltb_ge in H1. rewrite H1, H3.
    destruct (subreddits input); [contradiction | reflexivity].
Qed.

(** ** Community labels *)

(** C10.  [normalizeSubreddit] removes at most one leading [r/] before
    it puts one in front.  A label that begins with [r/] loses that one
    prefix, and no other label loses anything; what is left is trimmed
    and prefixed.  So the result begins with [r/], a second application
    changes nothing, and what follows the first prefix is kept, an
    inner [r/] included.  The prefix is matched in lower case only. *)
Theorem normalizeSubreddit_idempotent :
  (forall s, exists t, normalizeSubreddit s = "r/" +++ t)
  /\ (forall s, normalizeSubreddit (normalizeSubreddit s) = normalizeSubreddit s)
  /\ (forall s, normalizeSubreddit ("r/" +++ s) = "r/" +++ trim s)
  /\ (forall s, prefixL (s2l "r/") (s2l s) = false ->
        normalizeSubreddit s = "r/" +++ trim s)
  /\ normalizeSubreddit "running" = "r/running"
  /\ normalizeSubreddit "r/running" = "r/running"
  /\ normalizeSubreddit "r/r/tennis" = "r/r/tennis"
  /\ normalizeSubreddit "R/running" = "r/R/running"
  /\ normalizeSubreddit " r/running " = "r/r/running".
Proof.
  split; [|split; [|split; [|split; [|repeat split]]]].
  - intros s. eexists. reflexivity.
  - intros s. unfold normalizeSubreddit at 2.
    rewrite normalizeSubreddit_prefixed. rewrite trim_idem. reflexivity.
  - apply normalizeSubreddit_prefixed.
  - intros s H. unfold normalizeSubreddit. fold rslash.
    now rewrite (replace_rslash_other s H).
Qed.

(** ** More fuel changes no result *)

(** [m2] agrees with [m1] wherever [m1] does not run out of fuel. *)
Definition Extends {A} (m1 m2 : M A) : Prop :=
  forall w, m1 w <> Diverge -> m2 w = m1 w.

Lemma Extends_refl {A} (m : M A) : Extends m m.
Proof. intros w _. reflexivity. Qed.

Lemma Extends_bind {A B} (m1 m2 : M A) (k1 k2 : A -> M B) :
  Extends m1 m2 -> (forall a, Extends (k1 a) (k2 a)) ->
  Extends (bind m1 k1) (bind m2 k2).
Proof.
  intros Hm Hk w H. unfold bind in *.
  destruct (m1 w) as [[a w1]| |] eqn:E.
  - rewrite (Hm w) by (rewrite E; discriminate). rewrite E. now apply Hk.
  - rewrite (Hm w) by (rewrite E; discriminate). now rewrite E.
  - contradiction.
Qed.

Lemma Extends_if {A} (b : bool) (m1 m2 n1 n2 : M A) :
  Extends m1 m2 -> Extends n1 n2 ->
  Extends (if b then m1 else n1) (if b then m2 else n2).
Proof. now destruct b. Qed.

Lemma bind_assoc {A B C} (m : M A) (k : A -> M B) (h : B -> M C) (w : World) :
  bind (bind m k) h w = bind m (fun a => bind (k a) h) w.
Proof. unfold bind. now destruct (m w) as [[a w1]| |]. Qed.

Lemma bind_ext {A B} (m : M A) (k1 k2 : A -> M B) (w : World) :
  (forall a w1, k1 a w1 = k2 a w1) -> bind m k1 w = bind m k2 w.
Proof. intros H. unfold bind. now destruct (m w) as [[a w1]| |]. Qed.

Section Fuel.

Variable rand : nat -> Q.
Variable seeds : SeedLibrary.

Lemma pickIntro_mono (f f' : nat) :
  f <= f' -> Extends (pickIntro rand seeds f) (pickIntro rand seeds f').
Proof.
  revert f'. induction f as [|f IH]; intros f' Hle.
  - intros w H. now contradiction H.
  - destruct f' as [|f']; [lia|]. cbn [pickIntro].
    apply Extends_bind; [apply Extends_refl | intros introSeed].
    apply Extends_bind; [apply Extends_refl | intros w].
    apply Extends_if; [apply IH; lia | apply Extends_refl].
Qed.

Lemma generateHybridPost_mono (f f' : nat) persona topic company :
  f <= f' ->
  Extends (generateHybridPost rand seeds f persona topic company)
          (generateHybridPost rand seeds f' persona topic company).
Proof.
  intros Hle. unfold generateHybridPost.
  repeat (apply Extends_bind; [apply Extends_refl | intros ?]).
  apply Extends_bind; [now apply pickIntro_mono | intros; apply Extends_refl].
Qed.

Lemma selectTopic_mono (f f' : nat) pl nposts used idx r :
  f <= f' -> selectTopic f pl nposts used idx = Some r ->
  selectTopic f' pl nposts used idx = Some r.
Proof.
  revert f' idx. induction f as [|f IH]; intros f' idx Hle H; [discriminate|].
  destruct f' as [|f']; [lia|]. cbn [selectTopic] in *.
  destruct (nextTopic pl nposts idx) as [t i].
  destruct (set_has used t && _); [apply IH; [lia | exact H] | exact H].
Qed.

Lemma selectSubreddit_mono (f f' : nat) pl day last idx attempts r :
  f <= f' -> selectSubreddit f pl day last idx attempts = Some r ->
  selectSubreddit f' pl day last idx attempts = Some r.
Proof.
  revert f' idx attempts. induction f as [|f IH]; intros f' idx attempts Hle H;
    [discriminate|].
  destruct f' as [|f']; [lia|]. cbn [selectSubreddit] in *. cbv zeta in *.
  destruct ((set_has day _ || same_as last _) && _); [apply IH; [lia | exact H] | exact H].
Qed.

Lemma scheduleSlot_mono (f f' : nat) pl d ds st :
  f <= f' ->
  Extends (scheduleSlot rand seeds f pl d ds st) (scheduleSlot rand seeds f' pl d ds st).
Proof.
  intros Hle. unfold scheduleSlot.
  destruct (selectTopic f _ _ _ _) as [[topic ti]|] eqn:Et;
    [|intros w H; now contradiction H].
  rewrite (selectTopic_mono _ _ _ _ _ _ _ Hle Et).
  destruct (selectSubreddit f _ _ _ _ _) as [[raw si]|] eqn:Es;
    [|intros w H; now contradiction H].
  rewrite (selectSubreddit_mono _ _ _ _ _ _ _ _ Hle Es).
  destruct (nth_error _ _); [|apply Extends_refl].
  apply Extends_bind; [apply Extends_refl | intros oc].
  apply Extends_bind; [now apply generateHybridPost_mono | intros; apply Extends_refl].
Qed.

Lemma dayLoop_mono (f f' : nat) pl d ds left st :
  f <= f' ->
  Extends (dayLoop rand seeds f pl d ds left st) (dayLoop rand seeds f' pl d ds left st).
Proof.
  intros Hle. revert st. induction left as [|l IH]; intros st; cbn [dayLoop].
  - apply Extends_refl.
  - apply Extends_if; [|apply Extends_refl].
    apply Extends_bind; [now apply scheduleSlot_mono | intros; apply IH].
Qed.

Lemma weekLoop_mono (f f' : nat) pl days d st :
  f <= f' ->
  Extends (weekLoop rand seeds f pl days d st) (weekLoop rand seeds f' pl days d st).
Proof.
  intros Hle. revert d st. induction days as [|n IH]; intros d st; cbn [weekLoop].
  - apply Extends_refl.
  - apply Extends_if; [|apply Extends_refl].
    apply Extends_bind; [now apply dayLoop_mono | intros; apply IH].
Qed.

Lemma generateWeeklyCalendar_mono (today : Z) (f f' : nat) input ov :
  f <= f' ->
  Extends (generateWeeklyCalendar rand seeds today f input ov)
          (generateWeeklyCalendar rand seeds today f' input ov).
Proof.
  intros Hle. unfold generateWeeklyCalendar.
  apply Extends_bind; [apply Extends_refl | intros ?].
  repeat (apply Extends_if; [apply Extends_refl|]).
  repeat (apply Extends_bind; [apply Extends_refl | intros ?]).
  apply Extends_bind; [now apply weekLoop_mono | intros; apply Extends_refl].
Qed.

(** The days of the outer loop can be run in two parts. *)
Lemma weekLoop_split (f : nat) pl (a b d : nat) st w :
  weekLoop rand seeds f pl (a + b) d st w =
  bind (weekLoop rand seeds f pl a d st)
       (fun st' => weekLoop rand seeds f pl b (d + a) st') w.
Proof.
  revert d st w. induction a as [|a IH]; intros d st w.
  - simpl. unfold bind, ret. now rewrite Nat.add_0_r.
  - cbn [Nat.add weekLoop]. destruct (moreWanted pl st) eqn:Em.
    + rewrite bind_assoc. apply bind_ext. intros st1 w1.
      rewrite IH. now replace (S d + a) with (d + S a) by lia.
    + unfold bind, ret. destruct b; cbn [weekLoop]; [reflexivity | now rewrite Em].
Qed.

(** If, after some days, more posts are wanted and the topic loop cannot
    leave the state that was reached, the build does not return,
    whatever the fuel. *)
Lemma weekLoop_stuck (f0 : nat) pl (a b : nat) st0 w0 st w :
  weekLoop rand seeds f0 pl a 0 st0 w0 = Ok (st, w) ->
  moreWanted pl st = true ->
  0 < quotaAt pl a st ->
  (forall f, selectTopic f pl (List.length (s_posts st)) (usedTopics st) (topicIndex st)
             = None) ->
  forall f, f0 <= f -> weekLoop rand seeds f pl (a + S b) 0 st0 w0 = Diverge.
Proof.
  intros Hrun Hmore Hq Hstuck f Hle.
  rewrite weekLoop_split.
  rewrite (bind_of_Ok _ _ _ w st).
  - cbn [weekLoop Nat.add]. rewrite Hmore.
    unfold quotaAt in Hq.
    destruct (Z.to_nat (postsToday pl a _)) as [|k] eqn:Ek.
    { exfalso. cbn in Ek. unfold quotaAt in Hq.
      change (postsToday pl a
                (mkSched (s_posts st) (usedTopics st)
                   match map_get (usedSubredditsPerDay st) a with
                   | Some _ => usedSubredditsPerDay st
                   | None => map_set (usedSubredditsPerDay st) a []
                   end (lastSubreddit st) (topicIndex st) (subredditIndex st)
                   (personaIndex st)))
        with (postsToday pl a st) in Ek. lia. }
    cbn [dayLoop]. unfold moreWanted at 1. cbn [s_posts].
    fold (moreWanted pl st). rewrite Hmore.
    unfold bind at 1. unfold bind at 1. unfold scheduleSlot. cbn [s_posts usedTopics topicIndex].
    rewrite Hstuck. reflexivity.
  - rewrite (weekLoop_mono f0 f pl a 0 st0 Hle); [exact Hrun|].
    rewrite Hrun. discriminate.
Qed.

End Fuel.

(** ** The layout of a calendar *)

Lemma ceilDiv_unique (a b c : Z) :
  (0 < b)%Z -> (a <= c * b)%Z -> (c * b < a + b)%Z -> ceilDiv a b = c.
Proof.
  intros Hb H1 H2. destruct (ceilDiv_bounds a b Hb) as [H3 H4]. nia.
Qed.

Lemma ceilDiv_nonpos (a b : Z) : (0 < b)%Z -> (a <= 0)%Z -> (ceilDiv a b <= 0)%Z.
Proof. intros Hb Ha. destruct (ceilDiv_bounds a b Hb) as [H3 H4]. nia. Qed.

Lemma quotas_nonpos (ws : Date) (days d : nat) (r : Z) :
  d + days <= 7 -> (r <= 0)%Z -> datesFrom ws d (quotas days d r) = [].
Proof.
  revert d r. induction days as [|n IH]; intros d r Hd Hr; cbn [quotas datesFrom];
    [reflexivity|].
  assert (Hk : Z.to_nat (ceilDiv r (7 - Z.of_nat d)) = 0).
  { pose proof (ceilDiv_nonpos r (7 - Z.of_nat d) ltac:(lia) Hr). lia. }
  rewrite Hk. cbn [repeat app Z.of_nat]. rewrite Z.sub_0_r. apply IH; [lia | exact Hr].
Qed.

Section Layout.

Variable fuel : nat.
Variable pl : Plan.

Lemma DayRun_posts d ds k st st' :
  DayRun fuel pl d ds k st st' ->
  exists new, s_posts st' = s_posts st ++ new /\ map date new = repeat ds k.
Proof.
  intros H. induction H as [st|k st st1 st2 Hs _ (new & E & Hd)].
  - exists []. split; [now rewrite app_nil_r | reflexivity].
  - apply SlotStep_posts in Hs as (p & Ep & Hp).
    exists (p :: new). rewrite E, Ep, <- app_assoc. split; [reflexivity|].
    simpl. now rewrite Hp, Hd.
Qed.

Lemma WeekRun_layout days d st st' :
  d + days <= 7 ->
  WeekRun fuel pl days d st st' ->
  exists new,
    s_posts st' = s_posts st ++ new
    /\ map date new =
       datesFrom (p_weekStart pl) d
         (quotas days d (postsPerWeek (p_input pl) - Z.of_nat (List.length (s_posts st)))).
Proof.
  intros Hd H. induction H as [d st|days d st Hw|days d st st1 st2 Hw Hday Hrest IH].
  - exists []. split; [now rewrite app_nil_r | reflexivity].
  - exists []. split; [now rewrite app_nil_r|].
    rewrite quotas_nonpos; [reflexivity | exact Hd | unfold wanted in Hw; lia].
  - apply DayRun_posts in Hday as (new1 & E1 & D1). cbn [startDay s_posts] in E1.
    destruct IH as (new2 & E2 & D2); [lia|].
    exists (new1 ++ new2). split; [rewrite E2, E1; now rewrite app_assoc|].
    rewrite map_app, D1, D2. cbn [quotas datesFrom].
    fold (postsToday pl d st). fold (quotaAt pl d st). unfold dateOf.
    f_equal. f_equal. f_equal. rewrite E1, length_app.
    assert (List.length new1 = quotaAt pl d st).
    { rewrite <- (length_map date), D1. apply repeat_length. }
    lia.
Qed.

Lemma DayRun_wanted d ds k st st' :
  DayRun fuel pl d ds k st st' -> wanted pl st' = wanted pl st - k.
Proof.
  intros H. induction H as [st|k st st1 st2 Hs _ IH]; [lia|].
  rewrite IH, (SlotStep_wanted _ _ _ _ _ _ Hs). lia.
Qed.

(** At the end of the seventh day no post is wanted any more. *)
Lemma WeekRun_complete days d st st' :
  d + days = 7 -> 0 < days ->
  WeekRun fuel pl days d st st' -> wanted pl st' = 0.
Proof.
  intros Hd Hpos H. induction H as [d st|days d st Hw|days d st st1 st2 Hw Hday Hrest IH].
  - lia.
  - exact Hw.
  - destruct days as [|days'].
    + inversion Hrest; subst.
      * rewrite (DayRun_wanted _ _ _ _ _ Hday).
        assert (d = 6) by lia. subst d.
        unfold quotaAt, postsToday, wanted in *.
        set (r := (postsPerWeek (p_input pl) - Z.of_nat (List.length (s_posts st)))%Z) in *.
        change (7 - Z.of_nat 6)%Z with 1%Z.
        rewrite (ceilDiv_unique r 1 r) by lia. cbn [startDay s_posts]. subst r. lia.
      * assumption.
    + apply IH; lia.
Qed.

End Layout.

(** The closed form of the distribution: with [postsPerWeek = 7 q + s]
    and [s < 7], the first [s] days receive [q + 1] slots and the others
    [q]. *)
Lemma quotas_closed (days d : nat) (q s : nat) :
  d + days = 7 -> (s < days \/ s = 0) ->
  quotas days d (Z.of_nat (q * days + s)) = repeat (S q) s ++ repeat q (days - s).
Proof.
  revert d s. induction days as [|m IH]; intros d s Hd Hs.
  - assert (s = 0) by lia. subst. reflexivity.
  - cbn [quotas].
    assert (Hm : (7 - Z.of_nat d = Z.of_nat (S m))%Z) by lia. rewrite Hm.
    destruct s as [|s'].
    + rewrite (ceilDiv_unique _ _ (Z.of_nat q)); [|lia|nia|nia].
      rewrite Nat2Z.id.
      replace (Z.of_nat (q * S m + 0) - Z.of_nat q)%Z with (Z.of_nat (q * m + 0)) by nia.
      rewrite (IH (S d) 0); [|lia|lia]. simpl. now rewrite Nat.sub_0_r.
    + rewrite (ceilDiv_unique _ _ (Z.of_nat (S q))); [|lia|nia|nia].
      rewrite Nat2Z.id.
      replace (Z.of_nat (q * S m + S s') - Z.of_nat (S q))%Z with (Z.of_nat (q * m + s'))
        by nia.
      rewrite (IH (S d) s'); [|lia|lia]. reflexivity.
Qed.

Lemma slotsPerDay_closed (ppw : Z) :
  (0 <= ppw)%Z ->
  let q := Z.to_nat (ppw / 7) in
  let s := Z.to_nat (ppw mod 7) in
  slotsPerDay ppw = repeat (S q) s ++ repeat q (7 - s).
Proof.
  intros Hp q s. unfold slotsPerDay.
  pose proof (Z.div_mod ppw 7 ltac:(lia)) as E.
  pose proof (Z.mod_pos_bound ppw 7 ltac:(lia)) as Hm.
  assert (0 <= ppw / 7)%Z by (apply Z.div_pos; lia).
  replace ppw with (Z.of_nat (q * 7 + s)) at 1 by (unfold q, s; nia).
  apply quotas_closed; [reflexivity | left; unfold s; lia].
Qed.

(** ** The rotation of the communities *)

Lemma map_get_set_same m k v : map_get (map_set m k v) k = Some v.
Proof.
  induction m as [|[k' v'] m IH]; simpl; [now rewrite Nat.eqb_refl|].
  destruct (k' =? k) eqn:E; simpl; [now rewrite Nat.eqb_refl | now rewrite E].
Qed.

Lemma map_get_set_other m k v k' : k' <> k -> map_get (map_set m k v) k' = map_get m k'.
Proof.
  intros Hk. induction m as [|[k0 v0] m IH]; simpl.
  - destruct (k =? k') eqn:E; [apply Nat.eqb_eq in E; congruence | reflexivity].
  - destruct (k0 =? k) eqn:E; simpl.
    + apply Nat.eqb_eq in E. subst.
      destruct (k =? k') eqn:E'; [apply Nat.eqb_eq in E'; congruence | reflexivity].
    + destruct (k0 =? k'); [reflexivity | exact IH].
Qed.

Lemma set_has_In (s : list string) (x : string) : set_has s x = true <-> In x s.
Proof.
  unfold set_has. rewrite existsb_exists. split.
  - intros (y & Hy & E). apply String.eqb_eq in E. now subst.
  - intros H. exists x. split; [exact H | apply String.eqb_refl].
Qed.

Lemma set_add_In (s : list string) (x y : string) :
  In y (set_add s x) -> In y s \/ y = x.
Proof.
  unfold set_add. destruct (set_has s x); [now left|].
  intros H. apply in_app_or in H as [H|[H|[]]]; [now left | now right].
Qed.

Lemma mod_apart (n i j : nat) : i < j -> j - i < n -> i mod n <> j mod n.
Proof.
  intros Hij Hn E.
  assert (n <> 0) by lia.
  pose proof (Nat.div_mod_eq i n) as Hi. pose proof (Nat.div_mod_eq j n) as Hj.
  assert (Hle : i / n <= j / n) by (apply Nat.Div0.div_le_mono; lia).
  rewrite <- E in Hj.
  destruct (Nat.eq_dec (i / n) (j / n)) as [Eq|Ne].
  - rewrite <- Eq in Hj. lia.
  - assert (n * (i / n + 1) <= n * (j / n)) by (apply Nat.mul_le_mono_l; lia). lia.
Qed.

Section Rotation.

Variable fuel : nat.
Variable pl : Plan.

Let sh := shuffledSubreddits pl.
Let n := List.length sh.

Hypothesis two : 2 <= n.
Hypothesis distinct : NoDup sh.

(** the community at position [j] of the rotation *)
Definition rotation (j : nat) : string := nth (j mod n) sh "".

Lemma rotation_apart (i j : nat) : i < j -> j - i < n -> rotation i <> rotation j.
Proof.
  intros Hij Hn E. unfold rotation in E.
  apply (mod_apart n i j Hij Hn).
  apply (proj1 (NoDup_nth sh "") distinct); try (apply Nat.mod_upper_bound; lia).
  exact E.
Qed.

(** The state between two slots: [c] slots of the day [d] are done. *)
Record Rot (c d : nat) (st : Sched) : Prop := mkRot {
  rot_index : subredditIndex st = List.length (s_posts st);
  rot_last :
    lastSubreddit st =
      if List.length (s_posts st) =? 0 then None
      else Some (rotation (List.length (s_posts st) - 1));
  rot_posts :
    forall j p, nth_error (s_posts st) j = Some p ->
                subreddit p = normalizeSubreddit (rotation j);
  rot_day :
    forall x, In x (daySet st d) ->
              exists j, List.length (s_posts st) - c <= j < List.length (s_posts st)
                        /\ x = rotation j;
  rot_keys : forall d', d < d' -> map_get (usedSubredditsPerDay st) d' = None
}.

Lemma Rot_step c d ds st st' :
  Rot c d st -> c < n -> SlotStep fuel pl d ds st st' -> Rot (S c) d st'.
Proof.
  intros [Hi Hl Hp Hd Hk] Hc
    (topic & ti & raw & si & po & cm & pt & ct & _ & Hsel & _ & _ & ->).
  set (N := List.length (s_posts st)) in *.
  assert (Hraw : raw = rotation N /\ si = S N).
  { destruct fuel as [|f]; [discriminate|]. cbn [selectSubreddit] in Hsel.
    cbv zeta in Hsel. rewrite Hi in Hsel. fold sh n in Hsel. fold (rotation N) in Hsel.
    assert (Hhas : set_has (daySet st d) (rotation N) = false).
    { destruct (set_has (daySet st d) (rotation N)) eqn:E; [|reflexivity].
      apply set_has_In, Hd in E as (j & Hj & E).
      exfalso. apply (rotation_apart j N); [lia | lia | now symmetry]. }
    assert (Hsame : same_as (lastSubreddit st) (rotation N) = false).
    { rewrite Hl. fold N. destruct (N =? 0) eqn:E0; [reflexivity|].
      apply Nat.eqb_neq in E0. cbn [same_as].
      apply String.eqb_neq. intros E.
      apply (rotation_apart (N - 1) N); [lia | lia | now symmetry]. }
    rewrite Hhas, Hsame in Hsel. cbn [orb andb] in Hsel.
    injection Hsel as <- <-. split; reflexivity. }
  destruct Hraw as [-> ->].
  constructor; cbn [s_posts subredditIndex lastSubreddit usedSubredditsPerDay];
    rewrite ?length_app; cbn [List.length].
  - fold N. lia.
  - fold N. replace (N + 1 =? 0) with false by (symmetry; apply Nat.eqb_neq; lia).
    now replace (N + 1 - 1) with N by lia.
  - intros j p Hj. destruct (Nat.lt_ge_cases j N) as [Hlt|Hge].
    + rewrite nth_error_app1 in Hj by exact Hlt. now apply Hp.
    + rewrite nth_error_app2 in Hj by exact Hge. fold N in Hj.
      destruct (j - N) as [|k] eqn:Ej; cbn [nth_error] in Hj.
      * injection Hj as <-. cbn [subreddit]. now replace j with N by lia.
      * now destruct k.
  - intros x Hx. unfold daySet in Hx. cbn [usedSubredditsPerDay] in Hx.
    rewrite map_get_set_same in Hx. apply set_add_In in Hx as [Hx| ->].
    + apply Hd in Hx as (j & Hj & ->). exists j. fold N in Hj |- *. split; [lia | reflexivity].
    + exists N. fold N. split; [lia | reflexivity].
  - intros d' Hd'. rewrite map_get_set_other by lia. now apply Hk.
Qed.

Lemma Rot_DayRun c d ds k st st' :
  DayRun fuel pl d ds k st st' -> Rot c d st -> c + k <= n -> Rot (c + k) d st'.
Proof.
  intros H. revert c. induction H as [st|k st st1 st2 Hs _ IH]; intros c Hr Hc.
  - now rewrite Nat.add_0_r.
  - replace (c + S k) with (S c + k) by lia. apply IH; [|lia].
    eapply Rot_step; [exact Hr | lia | exact Hs].
Qed.

(** The state between two days: the day [d] is about to start. *)
Definition RotW (d : nat) (st : Sched) : Prop :=
  subredditIndex st = List.length (s_posts st)
  /\ lastSubreddit st =
       (if List.length (s_posts st) =? 0 then None
        else Some (rotation (List.length (s_posts st) - 1)))
  /\ (forall j p, nth_error (s_posts st) j = Some p ->
                  subreddit p = normalizeSubreddit (rotation j))
  /\ (forall d', d <= d' -> map_get (usedSubredditsPerDay st) d' = None).

Lemma Rot_WeekRun days d st st' :
  WeekRun fuel pl days d st st' ->
  d + days <= 7 ->
  (postsPerWeek (p_input pl) - Z.of_nat (List.length (s_posts st))
   <= Z.of_nat n * (7 - Z.of_nat d))%Z ->
  RotW d st -> RotW (d + days) st'.
Proof.
  intros H. induction H as [d st|days d st Hw|days d st st1 st2 Hw Hday Hrest IH];
    intros Hd Hrem (Hi & Hl & Hp & Hk).
  - now rewrite Nat.add_0_r.
  - repeat split; try assumption. intros d' Hd'. apply Hk. lia.
  - set (r := (postsPerWeek (p_input pl) - Z.of_nat (List.length (s_posts st)))%Z) in *.
    destruct (ceilDiv_bounds r (7 - Z.of_nat d) ltac:(lia)) as [B1 B2].
    assert (Hr : (0 < r)%Z) by (unfold wanted in Hw; fold r in Hw; lia).
    assert (Hq : Z.of_nat (quotaAt pl d st) = ceilDiv r (7 - Z.of_nat d)).
    { unfold quotaAt, postsToday. fold r. nia. }
    assert (Hqn : quotaAt pl d st <= n) by nia.
    assert (Hstart : Rot 0 d (startDay d st)).
    { constructor; cbn [startDay s_posts subredditIndex lastSubreddit usedSubredditsPerDay];
        try assumption.
      - intros x Hx. unfold daySet in Hx. cbn [startDay usedSubredditsPerDay] in Hx.
        rewrite (Hk d (Nat.le_refl d)) in Hx. rewrite map_get_set_same in Hx.
        contradiction.
      - intros d' Hd'. rewrite (Hk d (Nat.le_refl d)).
        rewrite map_get_set_other by lia. apply Hk. lia. }
    pose proof (Rot_DayRun 0 d _ _ _ _ Hday Hstart ltac:(lia)) as [Ri Rl Rp _ Rk].
    replace (d + S days) with (S d + days) by lia.
    apply DayRun_posts in Hday as (new & E & Dn). cbn [startDay s_posts] in E.
    assert (Hlen : List.length new = quotaAt pl d st).
    { rewrite <- (length_map date), Dn. apply repeat_length. }
    apply IH; [lia | |].
    + rewrite E, length_app, Hlen. fold r. nia.
    + repeat split; assumption.
Qed.

End Rotation.

(** ** Positions and days *)

Lemma list_sum_nil : list_sum [] = 0.
Proof. reflexivity. Qed.

Lemma list_sum_cons (k : nat) (t : list nat) : list_sum (k :: t) = k + list_sum t.
Proof. reflexivity. Qed.

Lemma datesFrom_length ws d qs : List.length (datesFrom ws d qs) = list_sum qs.
Proof.
  revert d. induction qs as [|k t IH]; intros d; cbn [datesFrom];
    [reflexivity|].
  now rewrite length_app, repeat_length, IH, list_sum_cons.
Qed.

Lemma datesFrom_nth ws d qs i :
  i < list_sum qs ->
  nth_error (datesFrom ws d qs) i
  = Some (formatDate (addDays ws (Z.of_nat (d + dayOfSlot qs i)))).
Proof.
  revert d i. induction qs as [|k t IH]; intros d i Hi;
    rewrite ?list_sum_nil, ?list_sum_cons in Hi; [lia|].
  cbn [datesFrom dayOfSlot]. destruct (Nat.ltb_spec i k) as [E|E].
  - rewrite nth_error_app1 by (now rewrite repeat_length).
    rewrite Nat.add_0_r. rewrite nth_error_repeat by exact E. reflexivity.
  - rewrite nth_error_app2 by (now rewrite repeat_length).
    rewrite repeat_length, IH by lia. now replace (S d + dayOfSlot t (i - k))
      with (d + S (dayOfSlot t (i - k))) by lia.
Qed.

(** Two positions of one day are less than the day's quota apart; two
    positions of consecutive days are less than the sum of the two
    quotas apart. *)
Lemma dayOfSlot_near qs i j :
  i <= j -> j < list_sum qs ->
  (dayOfSlot qs i = dayOfSlot qs j -> j - i < nth (dayOfSlot qs i) qs 0)
  /\ (dayOfSlot qs j = S (dayOfSlot qs i) ->
      j - i < nth (dayOfSlot qs i) qs 0 + nth (dayOfSlot qs j) qs 0).
Proof.
  revert i j. induction qs as [|k t IH]; intros i j Hij Hj;
    rewrite ?list_sum_nil, ?list_sum_cons in Hj; [lia|].
  cbn [dayOfSlot]. destruct (Nat.ltb_spec i k) as [Ei|Ei];
    destruct (Nat.ltb_spec j k) as [Ej|Ej]; cbn [nth].
  - split; [lia | discriminate].
  - split; [discriminate|]. intros E. injection E as E. rewrite E.
    destruct t as [|k' t']; rewrite ?list_sum_nil, ?list_sum_cons in Hj; [lia|].
    cbn [dayOfSlot nth] in *.
    destruct (Nat.ltb_spec (j - k) k') as [E'|E']; [lia | discriminate].
  - lia.
  - destruct (IH (i - k) (j - k) ltac:(lia) ltac:(lia)) as [H1 H2]. split.
    + intros E. injection E as E. specialize (H1 E). lia.
    + intros E. injection E as E. specialize (H2 E). lia.
Qed.

Lemma slotsPerDay_le (ppw : Z) (n : nat) :
  (0 <= ppw)%Z -> (ppw <= 7 * Z.of_nat n)%Z -> forall d, nth d (slotsPerDay ppw) 0 <= n.
Proof.
  intros H0 Hn d. rewrite slotsPerDay_closed by exact H0. cbv zeta.
  pose proof (Z.div_mod ppw 7 ltac:(lia)) as E.
  pose proof (Z.mod_pos_bound ppw 7 ltac:(lia)) as Hm.
  set (q := Z.to_nat (ppw / 7)). set (s := Z.to_nat (ppw mod 7)).
  assert (Hq : q <= n) by (unfold q; nia).
  assert (Hs : 0 < s -> S q <= n) by (unfold q, s; nia).
  destruct (Nat.lt_ge_cases d s) as [Hd|Hd].
  - rewrite app_nth1 by (now rewrite repeat_length).
    rewrite nth_repeat_lt by exact Hd. apply Hs. lia.
  - rewrite app_nth2 by (now rewrite repeat_length). rewrite repeat_length.
    destruct (Nat.lt_ge_cases (d - s) (7 - s)) as [Hd'|Hd'].
    + now rewrite nth_repeat_lt.
    + rewrite nth_overflow by (now rewrite repeat_length). lia.
Qed.

(** ** Communities *)

(** The sentence of the specification on consecutive days: no community
    of one day of the week is a community of the next day. *)
Definition noRepeatOnConsecutiveDays (weekStart : Date) (cal : WeeklyCalendar) : Prop :=
  forall (d : nat) (p q : CalendarPost),
    In p (posts cal) -> In q (posts cal) ->
    date p = formatDate (addDays weekStart (Z.of_nat d)) ->
    date q = formatDate (addDays weekStart (Z.of_nat (S d))) ->
    subreddit p <> subreddit q.

(** The weeks in which no day holds more than [n] slots
    ([postsPerWeek <= 7 n]), for [n >= 2] communities with pairwise
    distinct normalized labels.  The communities are then taken in
    rotation: two slots less than [n] positions apart never share a
    community.  Hence no two slots of one day share a community, and
    the slots of two consecutive days share none whenever the two days
    together hold at most [n] slots. *)
Lemma rotation_in_sparse_weeks
    (rand : nat -> Q) (seeds : SeedLibrary) (today : Z) (fuel : nat)
    (input : GenerationInput) (ov : option string) (w w' : World)
    (cal : WeeklyCalendar) :
  let n := List.length (subreddits input) in
  let qs := slotsPerDay (postsPerWeek input) in
  2 <= n ->
  NoDup (map normalizeSubreddit (subreddits input)) ->
  (postsPerWeek input <= 7 * Z.of_nat n)%Z ->
  generateWeeklyCalendar rand seeds today fuel input ov w = Ok (cal, w') ->
  (forall i p, nth_error (posts cal) i = Some p ->
     date p = formatDate (addDays (chooseWeekStart today ov) (Z.of_nat (dayOfSlot qs i))))
  /\ (forall i j p q,
        nth_error (posts cal) i = Some p -> nth_error (posts cal) j = Some q ->
        i < j -> j - i < n -> subreddit p <> subreddit q)
  /\ (forall i j p q,
        nth_error (posts cal) i = Some p -> nth_error (posts cal) j = Some q ->
        i < j -> dayOfSlot qs i = dayOfSlot qs j -> subreddit p <> subreddit q)
  /\ (forall i j p q,
        nth_error (posts cal) i = Some p -> nth_error (posts cal) j = Some q ->
        dayOfSlot qs j = S (dayOfSlot qs i) ->
        nth (dayOfSlot qs i) qs 0 + nth (dayOfSlot qs j) qs 0 <= n ->
        subreddit p <> subreddit q).
Proof.
  intros n qs Hn Hnd Hppw H.
  apply generateWeeklyCalendar_Ok in H
    as (_ & _ & _ & sT & sP & sS & st & _ & _ & HS & Hrun & ->).
  cbn [posts].
  set (pl := planOf today input ov sT sP sS) in *.
  assert (HlenS : List.length sS = n) by (symmetry; apply Permutation_length; exact HS).
  assert (HndN : NoDup (map normalizeSubreddit sS)).
  { eapply Permutation_NoDup; [apply Permutation_map; exact HS | exact Hnd]. }
  assert (HndS : NoDup sS) by (eapply NoDup_map_inv; exact HndN).
  (* the layout *)
  destruct (WeekRun_layout fuel pl 7 0 _ _ ltac:(lia) Hrun) as (new & E & Hdates).
  cbn [initialSched s_posts app List.length Z.of_nat] in E, Hdates.
  rewrite Z.sub_0_r in Hdates. subst new.
  change (quotas 7 0 (postsPerWeek (p_input pl))) with qs in Hdates.
  change (p_weekStart pl) with (chooseWeekStart today ov) in Hdates.
  assert (Hlen : List.length (s_posts st) = list_sum qs).
  { rewrite <- (length_map date), Hdates. apply datesFrom_length. }
  assert (Hday : forall i p, nth_error (s_posts st) i = Some p ->
            date p = formatDate (addDays (chooseWeekStart today ov)
                                   (Z.of_nat (dayOfSlot qs i)))).
  { intros i p Hp.
    assert (Hi : i < list_sum qs).
    { rewrite <- Hlen. apply nth_error_Some. congruence. }
    pose proof (datesFrom_nth (chooseWeekStart today ov) 0 qs i Hi) as Hd.
    rewrite <- Hdates, nth_error_map, Hp in Hd. cbn in Hd. now injection Hd. }
  (* the rotation *)
  assert (Hrot : RotW pl 7 st).
  { apply (Rot_WeekRun fuel pl ltac:(cbn; lia) HndS 7 0 initialSched st Hrun);
      [lia | cbn [initialSched s_posts List.length shuffledSubreddits pl planOf];
             rewrite HlenS; cbn; lia |].
    repeat split; try reflexivity. intros j p Hj. now destruct j. }
  destruct Hrot as (_ & _ & Hsub & _).
  assert (Hnear : forall i j p q,
            nth_error (s_posts st) i = Some p -> nth_error (s_posts st) j = Some q ->
            i < j -> j - i < n -> subreddit p <> subreddit q).
  { intros i j p q Hp Hq Hij Hd. rewrite (Hsub _ _ Hp), (Hsub _ _ Hq).
    unfold rotation. cbn [pl planOf shuffledSubreddits]. rewrite HlenS.
    rewrite <- !(map_nth normalizeSubreddit). intros Eq.
    apply (mod_apart n i j Hij Hd).
    apply (proj1 (NoDup_nth _ (normalizeSubreddit "")) HndN);
      rewrite ?length_map, ?HlenS; try (apply Nat.mod_upper_bound; lia).
    exact Eq. }
  assert (Hpos : forall j q, nth_error (s_posts st) j = Some q -> (0 <= postsPerWeek input)%Z).
  { intros j q Hq. destruct (Z.le_gt_cases 0 (postsPerWeek input)) as [|Hneg]; [assumption|].
    exfalso. assert (Hnil : map date (s_posts st) = []).
    { rewrite Hdates. apply quotas_nonpos; lia. }
    destruct (s_posts st); [now destruct j | discriminate]. }
  split; [exact Hday|]. split; [exact Hnear|]. split.
  - intros i j p q Hp Hq Hij Hsame.
    apply (Hnear i j p q Hp Hq Hij).
    assert (Hj : j < list_sum qs) by (rewrite <- Hlen; apply nth_error_Some; congruence).
    destruct (dayOfSlot_near qs i j ltac:(lia) Hj) as [H1 _].
    specialize (H1 Hsame).
    pose proof (slotsPerDay_le (postsPerWeek input) n (Hpos _ _ Hq) Hppw (dayOfSlot qs i))
      as Hle.
    fold qs in Hle. lia.
  - intros i j p q Hp Hq Hnext Hsum.
    assert (Hj : j < list_sum qs) by (rewrite <- Hlen; apply nth_error_Some; congruence).
    assert (Hij : i < j).
    { destruct (Nat.lt_ge_cases i j) as [|Hge]; [assumption|]. exfalso.
      assert (Hi : i < list_sum qs) by (rewrite <- Hlen; apply nth_error_Some; congruence).
      clear - Hge Hnext Hi. revert i j Hge Hnext Hi.
      induction qs as [|k t IH]; intros i j Hge Hnext Hi;
        rewrite ?list_sum_nil, ?list_sum_cons in Hi; [lia|].
      cbn [dayOfSlot] in Hnext.
      destruct (Nat.ltb_spec i k) as [Ei|Ei]; destruct (Nat.ltb_spec j k) as [Ej|Ej];
        try discriminate; try lia.
      injection Hnext as Hnext. apply (IH (i - k) (j - k)); [lia | exact Hnext | lia]. }
    apply (Hnear i j p q Hp Hq Hij).
    destruct (dayOfSlot_near qs i j ltac:(lia) Hj) as [_ H2].
    specialize (H2 Hnext). lia.
Qed.

Ltac nodup_strings :=
  vm_compute;
  repeat (constructor;
          [ let H := fresh in
            intros H; simpl in H;
            repeat (destruct H as [H|H]; [discriminate H|]); exact H |]);
  constructor.

(** With two communities and eight posts the first day holds both
    communities, and the second day one of them again. *)
Lemma community_repeats_on_next_day :
  exists cal w',
    generateWeeklyCalendar sampleRand sampleSeeds monday2024 40 twoCommunitiesInput
      (Some "2024-01-01") freshWorld = Ok (cal, w')
    /\ 2 <= List.length (subreddits twoCommunitiesInput)
    /\ map (fun p => (date p, subreddit p)) (posts cal)
       = [ ("2024-01-01", "r/cycling"); ("2024-01-01", "r/running");
           ("2024-01-02", "r/cycling"); ("2024-01-03", "r/running");
           ("2024-01-04", "r/cycling"); ("2024-01-05", "r/running");
           ("2024-01-06", "r/cycling"); ("2024-01-07", "r/running") ]
    /\ ~ noRepeatOnConsecutiveDays (parseDate "2024-01-01") cal.
Proof.
  eexists. eexists. split; [vm_compute; reflexivity|].
  split; [cbn; lia|]. split; [reflexivity|].
  intros H.
  refine (H 0 _ _ (or_introl eq_refl) (or_intror (or_intror (or_introl eq_refl))) _ _ _);
    reflexivity.
Qed.


Lemma sampleSeeds_nonempty : seedsNonEmpty sampleSeeds.
Proof. repeat split; discriminate. Qed.

Lemma validation_errors_witness :
  generateWeeklyCalendar sampleRand sampleSeeds monday2024 40
    (mkInput acme [alex] ["r/productivity"] ["focus"] 3) None freshWorld
  = Throw "At least 2 personas are required"
  /\ generateWeeklyCalendar sampleRand sampleSeeds monday2024 40
       (mkInput acme [alex; blair] [] ["focus"] 3) None freshWorld
     = Throw "At least 1 subreddit is required"
  /\ generateWeeklyCalendar sampleRand sampleSeeds monday2024 40
       (mkInput acme [alex; blair] ["r/productivity"] [] 3) None freshWorld
     = Throw "At least 1 theme is required".
Proof.
  assert (Hs : seedsNonEmpty sampleSeeds) by (repeat split; discriminate).
  split; [|split].
  - apply (proj1 (validation_errors sampleRand sampleSeeds monday2024 40
                    (mkInput acme [alex] ["r/productivity"] ["focus"] 3) None freshWorld Hs)).
    left. split; [cbn; lia | reflexivity].
  - apply (proj1 (validation_errors sampleRand sampleSeeds monday2024 40
                    (mkInput acme [alex; blair] [] ["focus"] 3) None freshWorld Hs)).
    right. left. repeat split. cbn; lia.
  - apply (proj1 (validation_errors sampleRand sampleSeeds monday2024 40
                    (mkInput acme [alex; blair] ["r/productivity"] [] 3) None freshWorld Hs)).
    right. right. repeat split; [cbn; lia | discriminate].
Defined.

(** ** Builds that do not return *)

(** What [generateWeeklyCalendar] does before its loops: the reset, the
    validation and the three shuffles. *)
Definition preparePlan (rand : nat -> Q) (today : Z) (input : GenerationInput)
    (ov : option string) : M Plan :=
  resetWeekHistory ;;;
  if List.length (personas input) <? 2 then throw "At least 2 personas are required"
  else if List.length (subreddits input) =? 0 then throw "At least 1 subreddit is required"
  else if List.length (themes input) =? 0 then throw "At least 1 theme is required"
  else
    shuffledTopics <- shuffle rand (expandThemesToTopics (themes input)) ;;
    shuffledPersonas <- shuffle rand (personas input) ;;
    shuffledSubreddits <- shuffle rand (subreddits input) ;;
    ret (planOf today input ov shuffledTopics shuffledPersonas shuffledSubreddits).

Lemma generateWeeklyCalendar_prepared rand seeds today fuel input ov w :
  generateWeeklyCalendar rand seeds today fuel input ov w
  = bind (preparePlan rand today input ov)
      (fun pl =>
         st <- weekLoop rand seeds fuel pl 7 0 initialSched ;;
         ret (mkCalendar (formatDate (p_weekStart pl)) (s_posts st))) w.
Proof.
  unfold generateWeeklyCalendar, preparePlan.
  rewrite bind_assoc. apply bind_ext. intros _ w0.
  destruct (_ <? 2); [reflexivity|].
  destruct (List.length (subreddits input) =? 0); [reflexivity|].
  destruct (List.length (themes input) =? 0); [reflexivity|].
  rewrite bind_assoc. apply bind_ext. intros sT w1.
  rewrite bind_assoc. apply bind_ext. intros sP w2.
  rewrite bind_assoc. apply bind_ext. intros sS w3.
  reflexivity.
Qed.

(** The topic loop has no exit from a state in which every candidate it
    can reach is a used topic while fewer topics are used than the pool
    has entries. *)
Lemma selectTopic_cycle (pl : Plan) (nposts : nat) (used : list string) (bound : nat) :
  forallb (fun idx =>
             let '(t, i') := nextTopic pl nposts idx in
             set_has used t && (List.length used <? List.length (allTopics pl))
             && (i' <=? bound))
          (seq 0 (S bound)) = true ->
  forall f idx, idx <= bound -> selectTopic f pl nposts used idx = None.
Proof.
  intros Hall f. induction f as [|f IH]; intros idx Hidx; [reflexivity|].
  cbn [selectTopic].
  rewrite forallb_forall in Hall. specialize (Hall idx).
  destruct (nextTopic pl nposts idx) as [t i'].
  assert (Hin : In idx (seq 0 (S bound))) by (apply in_seq; lia).
  apply Hall in Hin. apply andb_prop in Hin as [Hc Hb].
  rewrite Hc. apply IH. now apply Nat.leb_le.
Qed.

Lemma generateWeeklyCalendar_stuck rand seeds today input ov w0 pl w3 f0 a b st w :
  preparePlan rand today input ov w0 = Ok (pl, w3) ->
  a + S b = 7 ->
  weekLoop rand seeds f0 pl a 0 initialSched w3 = Ok (st, w) ->
  moreWanted pl st = true ->
  0 < quotaAt pl a st ->
  (forall f, selectTopic f pl (List.length (s_posts st)) (usedTopics st) (topicIndex st)
             = None) ->
  forall f, generateWeeklyCalendar rand seeds today f input ov w0 = Diverge.
Proof.
  intros Hprep Hab Hrun Hmore Hq Hstuck.
  assert (Hbig : forall f, f0 <= f ->
            generateWeeklyCalendar rand seeds today f input ov w0 = Diverge).
  { intros f Hle. rewrite generateWeeklyCalendar_prepared.
    rewrite (bind_of_Ok _ _ _ _ _ Hprep). unfold bind at 1.
    rewrite <- Hab.
    now rewrite (weekLoop_stuck rand seeds f0 pl a b _ _ _ _ Hrun Hmore Hq Hstuck f Hle). }
  intros f. destruct (Nat.le_gt_cases f0 f) as [Hle|Hgt]; [now apply Hbig|].
  destruct (generateWeeklyCalendar rand seeds today f input ov w0) as [r|msg|] eqn:E;
    [| |reflexivity].
  - pose proof (generateWeeklyCalendar_mono rand seeds today f f0 input ov ltac:(lia) w0) as Hm.
    rewrite E, Hbig in Hm by lia. discriminate Hm. discriminate.
  - pose proof (generateWeeklyCalendar_mono rand seeds today f f0 input ov ltac:(lia) w0) as Hm.
    rewrite E, Hbig in Hm by lia. discriminate Hm. discriminate.
Qed.

(** The community loop, for its part, stops after at most three rounds
    of the pool. *)
Lemma selectSubreddit_bounded (pl : Plan) day last :
  forall fuel idx attempts,
    List.length (shuffledSubreddits pl) * 3 - attempts <= fuel -> 1 <= fuel ->
    selectSubreddit fuel pl day last idx attempts <> None.
Proof.
  induction fuel as [|f IH]; intros idx attempts Hf H1; [lia|].
  cbn [selectSubreddit]. cbv zeta.
  destruct (S attempts <? List.length (shuffledSubreddits pl) * 3) eqn:E.
  - apply Nat.ltb_lt in E.
    destruct (set_has day _ || same_as last _); cbn [andb]; [|discriminate].
    apply IH; lia.
  - rewrite andb_false_r. discriminate.
Qed.

(** ** The intro loop *)

Lemma existsb_eqb_In (x : string) (l : list string) :
  existsb (String.eqb x) l = true <-> In x l.
Proof.
  rewrite existsb_exists. split.
  - intros (y & Hy & E). apply String.eqb_eq in E. now subst.
  - intros H. exists x. split; [exact H | apply String.eqb_refl].
Qed.

Lemma lastTwo_length {T} (l : list T) : List.length (lastTwo l) <= 2.
Proof. unfold lastTwo. rewrite length_skipn. lia. Qed.

Lemma lastTwo_last {T} (pre : list T) (x : T) : In x (lastTwo (pre ++ [x])).
Proof.
  unfold lastTwo. rewrite skipn_app, length_app. cbn [List.length].
  replace (List.length pre + 1 - 2 - List.length pre) with 0 by lia.
  apply in_or_app. right. now left.
Qed.

(** A pick among at least three distinct seeds avoids the last two
    entries of the history and becomes its last entry. *)
Lemma pickSeed_intros (rand : nat -> Q) (arr : list string) (w : World) :
  NoDup arr -> 3 <= List.length arr ->
  exists x w',
    pickSeed rand arr cIntros w = Ok (x, w')
    /\ In x arr
    /\ ~ In x (lastTwo (intros_ (weekSeedHistory w)))
    /\ (exists pre, intros_ (weekSeedHistory w') = pre ++ [x])
    /\ lastIntro w' = lastIntro w
    /\ draws w' = S (draws w).
Proof.
  intros Hnd Hlen. unfold pickSeed, pickWeekUnique.
  destruct arr as [|a [|b t]]; [cbn in Hlen; lia | cbn in Hlen; lia |].
  set (arr := a :: b :: t) in *.
  unfold bind at 1. unfold getW at 1. cbn [cat_get cIntros].
  set (hist := intros_ (weekSeedHistory w)).
  destruct (filter (fun item => negb (existsb (String.eqb item) (lastTwo hist))) arr)
    as [|z f] eqn:E.
  - exfalso.
    assert (Hincl : incl arr (lastTwo hist)).
    { intros x Hx. apply existsb_eqb_In.
      destruct (existsb (String.eqb x) (lastTwo hist)) eqn:Ex; [reflexivity|].
      assert (Hf : In x (filter (fun item => negb (existsb (String.eqb item) (lastTwo hist))) arr))
        by (apply filter_In; split; [exact Hx | now rewrite Ex]).
      rewrite E in Hf. destruct Hf. }
    pose proof (NoDup_incl_length Hnd Hincl). pose proof (lastTwo_length hist). lia.
  - set (x := nth (floorMul (frac (rand (draws w))) (List.length (z :: f))) (z :: f) z).
    assert (Hx : In x (z :: f)) by (apply nth_In, floorMul_frac_lt; cbn; lia).
    rewrite <- E in Hx. apply filter_In in Hx as [Hx1 Hx2].
    set (kept := if 10 <? List.length (hist ++ [x]) then tl (hist ++ [x]) else hist ++ [x]).
    exists x, (mkWorld (S (draws w)) (@cat_set string cIntros kept (weekSeedHistory w))
                 (lastIntro w) (lastComment w)).
    split.
    { unfold bind. rewrite pick_eq. reflexivity. }
    split; [exact Hx1|]. split.
    { intros Hin. apply existsb_eqb_In in Hin. now rewrite Hin in Hx2. }
    split; [|split; reflexivity].
    cbn [weekSeedHistory cat_set cIntros intros_]. unfold kept.
    destruct (10 <? List.length (hist ++ [x])) eqn:E10.
    + apply Nat.ltb_lt in E10. rewrite length_app in E10. cbn [List.length] in E10.
      destruct hist as [|h0 hs] eqn:Eh; [cbn [List.length] in E10; lia|].
      exists hs. reflexivity.
    + exists hist. reflexivity.
Qed.

(** The intro loop of [generateHybridPost] ends within two rounds when
    the library has at least three distinct intros. *)
Lemma pickIntro_two_rounds (rand : nat -> Q) (seeds : SeedLibrary) (fuel : nat) (w : World) :
  NoDup (introSeeds seeds) -> 3 <= List.length (introSeeds seeds) ->
  exists x w',
    pickIntro rand seeds (S (S fuel)) w = Ok (x, w')
    /\ In x (introSeeds seeds)
    /\ x <> lastIntro w
    /\ draws w' <= draws w + 2.
Proof.
  intros Hnd Hlen.
  destruct (pickSeed_intros rand _ w Hnd Hlen) as (x1 & w1 & E1 & In1 & _ & (pre & Hpre) & L1 & D1).
  destruct (pickSeed_intros rand _ w1 Hnd Hlen) as (x2 & w2 & E2 & In2 & N2 & _ & L2 & D2).
  assert (Hlong : (1 <? List.length (introSeeds seeds)) = true) by (apply Nat.ltb_lt; lia).
  cbn [pickIntro]. rewrite (bind_of_Ok _ _ _ _ _ E1).
  unfold bind at 1. unfold getW at 1. rewrite Hlong, andb_true_r.
  destruct (x1 =? lastIntro w1)%string eqn:Eq1.
  - apply String.eqb_eq in Eq1.
    rewrite (bind_of_Ok _ _ _ _ _ E2). unfold bind at 1. unfold getW at 1.
    rewrite andb_true_r.
    assert (Hne : x2 <> x1).
    { intros ->. apply N2. rewrite Hpre. apply lastTwo_last. }
    replace (x2 =? lastIntro w2)%string with false
      by (symmetry; apply String.eqb_neq; congruence).
    exists x2, w2. split; [reflexivity|]. split; [exact In2|]. split; [congruence | lia].
  - apply String.eqb_neq in Eq1.
    exists x1, w1. split; [reflexivity|]. split; [exact In1|]. split; [congruence | lia].
Qed.

Ltac stuck_after_six_days :=
  eapply generateWeeklyCalendar_stuck with (f0 := 40) (a := 6) (b := 0);
  [ vm_compute; reflexivity
  | reflexivity
  | vm_compute; reflexivity
  | vm_compute; reflexivity
  | vm_compute; lia
  | intros f; apply (selectTopic_cycle _ _ _ 16); [vm_compute; reflexivity | vm_compute; lia] ].

(** C5, at an input with a repeated theme.  The input is valid, and the
    build does not return whatever the fuel: the tenth slot finds every
    topic of the pool used, and its continuation topic is the one that
    the ninth slot took, while the set of used topics (nine) stays below
    the length of the pool (sixteen). *)
Theorem repeated_theme_never_returns :
  2 <= List.length (personas repeatedThemeInput)
  /\ subreddits repeatedThemeInput <> []
  /\ themes repeatedThemeInput <> []
  /\ (0 < postsPerWeek repeatedThemeInput)%Z
  /\ forall fuel,
       generateWeeklyCalendar sampleRand sampleSeeds monday2024 fuel repeatedThemeInput
         None freshWorld = Diverge.
Proof.
  split; [cbn; lia|]. split; [discriminate|]. split; [discriminate|]. split; [reflexivity|].
  stuck_after_six_days.
Qed.

(** C1, at an input whose two themes are the same once cleaned.  The
    input is valid and asks for ten posts; no calendar is returned,
    whatever the fuel. *)
Theorem no_calendar_for_equal_cleaned_themes :
  2 <= List.length (personas sameCleanedThemeInput)
  /\ subreddits sameCleanedThemeInput <> []
  /\ themes sameCleanedThemeInput <> []
  /\ postsPerWeek sameCleanedThemeInput = 10%Z
  /\ map cleanTopic (themes sameCleanedThemeInput) = ["fitness & health"; "fitness & health"]
  /\ forall fuel cal w',
       generateWeeklyCalendar sampleRand sampleSeeds monday2024 fuel sameCleanedThemeInput
         None freshWorld <> Ok (cal, w').
Proof.
  split; [cbn; lia|]. split; [discriminate|]. split; [discriminate|]. split; [reflexivity|].
  split; [reflexivity|].
  intros fuel cal w' H.
  assert (Hd : generateWeeklyCalendar sampleRand sampleSeeds monday2024 fuel
                 sameCleanedThemeInput None freshWorld = Diverge)
    by stuck_after_six_days.
  rewrite Hd in H. discriminate.
Qed.

(** ** The layout of a returned calendar *)

Lemma list_sum_repeat (a n : nat) : list_sum (repeat a n) = n * a.
Proof. induction n as [|n IH]; [reflexivity|]. cbn [repeat]. rewrite list_sum_cons, IH. lia. Qed.

(** A build that returns has scheduled [postsPerWeek] slots, dated day
    after day by the quotas [ceil (remainingPosts / remainingDays)]. *)
Lemma returned_calendar_layout (rand : nat -> Q) (seeds : SeedLibrary) (today : Z)
    (fuel : nat) (input : GenerationInput) (ov : option string) (w w' : World)
    (cal : WeeklyCalendar) :
  (0 <= postsPerWeek input)%Z ->
  generateWeeklyCalendar rand seeds today fuel input ov w = Ok (cal, w') ->
  List.length (posts cal) = Z.to_nat (postsPerWeek input)
  /\ weekStart cal = formatDate (chooseWeekStart today ov)
  /\ map date (posts cal)
     = datesFrom (chooseWeekStart today ov) 0 (slotsPerDay (postsPerWeek input)).
Proof.
  intros Hp H.
  apply generateWeeklyCalendar_Ok in H
    as (_ & _ & _ & sT & sP & sS & st & _ & _ & _ & Hrun & ->).
  cbn [posts weekStart].
  set (pl := planOf today input ov sT sP sS) in *.
  destruct (WeekRun_layout fuel pl 7 0 _ _ ltac:(lia) Hrun) as (new & E & Hdates).
  cbn [initialSched s_posts app List.length Z.of_nat] in E, Hdates.
  rewrite Z.sub_0_r in Hdates. subst new.
  change (quotas 7 0 (postsPerWeek (p_input pl))) with (slotsPerDay (postsPerWeek input))
    in Hdates.
  change (p_weekStart pl) with (chooseWeekStart today ov) in Hdates.
  split; [|split; [reflexivity | exact Hdates]].
  rewrite <- (length_map date), Hdates, datesFrom_length.
  rewrite (slotsPerDay_closed _ Hp), list_sum_app, !list_sum_repeat.
  pose proof (Z.div_mod (postsPerWeek input) 7 ltac:(lia)) as E.
  pose proof (Z.mod_pos_bound (postsPerWeek input) 7 ltac:(lia)) as Hm.
  assert (0 <= postsPerWeek input / 7)%Z by (apply Z.div_pos; lia).
  nia.
Qed.

(** ** Topics *)

(** C4, at an input with one theme and ten posts.  The pool has eight
    entries; the first eight slots take them, the ninth takes the
    continuation topic, and the tenth takes the topic of the first slot
    again, as it is, without a suffix. *)
Theorem topic_reused_without_suffix :
  exists cal w',
    generateWeeklyCalendar sampleRand sampleSeeds monday2024 40 oneThemeInput None freshWorld
    = Ok (cal, w')
    /\ List.length (expandThemesToTopics (themes oneThemeInput)) = 8
    /\ map topic (posts cal)
       = [ "best practices for study habits"; "improving my study habits";
           "advice for newcomers on study habits"; "common challenges in study habits";
           "common mistakes in study habits"; "study habits";
           "tips on improving at study habits"; "what people overlook about study habits";
           "study habits - part 10"; "best practices for study habits" ]
    /\ nth_error (map topic (posts cal)) 9 = nth_error (map topic (posts cal)) 0
    /\ includes (nth 9 (map topic (posts cal)) "") " - part " = false.
Proof.
  eexists. eexists. split; [vm_compute; reflexivity|].
  repeat split.
Qed.

(** ** State across builds *)

Lemma resetWeekHistory_eq (w : World) :
  resetWeekHistory w = Ok (tt, mkWorld (draws w) emptyHistory (lastIntro w) (lastComment w)).
Proof. reflexivity. Qed.

(** The seed history of the initial state has no influence on a build:
    two states that agree on the position of the random source and on
    [lastIntro] and [lastComment] give the same result. *)
Lemma history_does_not_carry_over rand seeds today fuel input ov (w1 w2 : World) :
  draws w1 = draws w2 -> lastIntro w1 = lastIntro w2 -> lastComment w1 = lastComment w2 ->
  generateWeeklyCalendar rand seeds today fuel input ov w1
  = generateWeeklyCalendar rand seeds today fuel input ov w2.
Proof.
  intros Hd Hi Hc. unfold generateWeeklyCalendar.
  rewrite (bind_of_Ok _ _ w1 _ tt (resetWeekHistory_eq w1)).
  rewrite (bind_of_Ok _ _ w2 _ tt (resetWeekHistory_eq w2)).
  now rewrite Hd, Hi, Hc.
Qed.

(** C7, at two builds of one input with the same draws.  The reset
    empties the seed history and leaves [lastIntro] and [lastComment] as
    they were; the build that follows another build therefore finds its
    first intro equal to [lastIntro], picks again, and returns another
    calendar than the build that starts from a fresh state. *)
Theorem second_build_depends_on_first :
  (forall w : World,
     resetWeekHistory w
     = Ok (tt, mkWorld (draws w) emptyHistory (lastIntro w) (lastComment w)))
  /\ exists cal1 w1 cal2 w2,
       generateWeeklyCalendar sampleRand sampleSeeds monday2024 40 onePostInput None freshWorld
       = Ok (cal1, w1)
       /\ generateWeeklyCalendar sampleRand sampleSeeds monday2024 40 onePostInput None
            (replay w1) = Ok (cal2, w2)
       /\ lastIntro w1 = "I have been meaning to ask about this"
       /\ map postText (posts cal1)
          = [ "From a data perspective " +++ emdash +++ " Quick thought " +++ emdash
              +++ " I have been meaning to ask about this It turns out what I'm working on matters more than I thought. It turns out what I'm working on matters more than I thought. Anyone else?" ]
       /\ map postText (posts cal2)
          = [ "Something has been on my mind lately Looking back, these challenges taught me a lot. The hard part of these challenges seem consistency. What helped was small steps with these challenges. What works for you?" ]
       /\ cal1 <> cal2.
Proof.
  split; [reflexivity|].
  eexists. eexists. eexists. eexists.
  split; [vm_compute; reflexivity|].
  split; [vm_compute; reflexivity|].
  split; [reflexivity|]. split; [reflexivity|]. split; [reflexivity|].
  discriminate.
Qed.

(** ** The cleanup passes *)




(** ** The value proposition *)



(** A comment that is one of the stock reactions is returned as picked,
    whatever the company. *)
Lemma canned_comment (rand : nat -> Q) (seeds : SeedLibrary) (persona : Persona)
    (topic : string) (company : CompanyInfo) (postLength : option LengthMode) (w : World) :
  Qltb (frac (rand (draws w))) (pct 20) = true ->
  generateHybridComment rand seeds persona topic company postLength w
  = pick rand noIntroComments (tick w)
  /\ exists c w', generateHybridComment rand seeds persona topic company postLength w
                  = Ok (c, w') /\ In c noIntroComments.
Proof.
  intros H.
  assert (E : generateHybridComment rand seeds persona topic company postLength w
              = pick rand noIntroComments (tick w)).
  { unfold generateHybridComment, chance, bind at 1, bind at 1, random. now rewrite H. }
  split; [exact E|]. rewrite E. unfold noIntroComments. rewrite pick_eq.
  eexists. eexists. split; [reflexivity|].
  apply nth_In. apply floorMul_frac_lt. cbn. lia.
Qed.

(** ** The scan that deletes the value proposition *)

(** [p] is a prefix of [l], letter case apart *)
Fixpoint prefixCI (p l : chars) : bool :=
  match p, l with
  | [], _ => true
  | a :: p', b :: l' => eqc true a b && prefixCI p' l'
  | _ :: _, [] => false
  end.

(** [p] occurs in [l], letter case apart *)
Fixpoint occursCI (l p : chars) : bool :=
  prefixCI p l || match l with [] => false | _ :: t => occursCI t p end.

Lemma prefixL_prefixCI (p l : chars) : prefixL p l = true -> prefixCI p l = true.
Proof.
  revert l. induction p as [|a p IH]; intros [|b l]; simpl; try easy.
  intros H. apply andb_prop in H as [H1 H2]. apply Ascii.eqb_eq in H1. subst.
  unfold eqc. rewrite Ascii.eqb_refl. now apply IH.
Qed.

Lemma includesL_occursCI (l p : chars) : includesL l p = true -> occursCI l p = true.
Proof.
  induction l as [|c l IH]; simpl; intros H.
  - apply orb_prop in H as [H|H]; [|discriminate].
    apply prefixL_prefixCI in H. now rewrite H.
  - apply orb_prop in H as [H|H].
    + apply prefixL_prefixCI in H. simpl in H. now rewrite H.
    + rewrite (IH H). apply orb_true_r.
Qed.



(** what is left of the input when every match is deleted *)
Definition kept (ps : list piece) : chars :=
  flat_map (fun p => match p with PLit c => [c] | PMatch _ => [] end) ps.

Lemma kept_lits (l : chars) : kept (map PLit l) = l.
Proof. induction l as [|c l IH]; simpl; [reflexivity | now rewrite IH]. Qed.






(** An occurrence in the sense of [includes] is one letter case apart. *)
Lemma includes_occursCI (s v : string) :
  includes s v = true -> occursCI (s2l s) (s2l v) = true.
Proof. apply includesL_occursCI. Qed.

(** The scan is a single sweep: what it leaves can contain the value
    proposition again. *)
Lemma stripValueProp_single_sweep :
  stripValueProp (mkCompany "Acme" "ab" "everyone" "friendly") "aabb" = "ab".
Proof. reflexivity. Qed.


(* ================================================================== *)
(** * Further properties of the generator and of the request validator *)

Lemma Some_pair_eq {A B} (a c : A) (b d : B) : Some (a, b) = Some (c, d) -> a = c /\ b = d.
Proof. intros H. injection H as -> ->. split; reflexivity. Qed.

Lemma selectTopic_origin (fuel : nat) (pl : Plan) (n : nat) (used : list string)
    (ti : nat) (topic : string) (ti' : nat) :
  selectTopic fuel pl n used ti = Some (topic, ti') ->
  In topic (shuffledTopics pl)
  \/ topic = cleanTopic (nth (n mod List.length (themes (p_input pl))) (themes (p_input pl)) "")
             +++ " - part " +++ natToString (n / List.length (themes (p_input pl)) + 2).
Proof.
  revert ti. induction fuel as [|f IH]; intros ti; [discriminate|].
  cbn [selectTopic]. unfold nextTopic.
  destruct (List.length (shuffledTopics pl) <=? ti) eqn:E.
  - match goal with |- context [if ?c then _ else _] => destruct c end; [apply IH|].
    intros H. apply Some_pair_eq in H as [<- _]. right. reflexivity.
  - apply Nat.leb_gt in E.
    match goal with |- context [if ?c then _ else _] => destruct c end; [apply IH|].
    intros H. apply Some_pair_eq in H as [<- _]. left. apply nth_In. exact E.
Qed.

Lemma selectSubreddit_In (fuel : nat) (pl : Plan) (day : list string) (last : option string)
    (idx att : nat) (raw : string) (idx' : nat) :
  shuffledSubreddits pl <> [] ->
  selectSubreddit fuel pl day last idx att = Some (raw, idx') ->
  In raw (shuffledSubreddits pl).
Proof.
  intros Hne. revert idx att. induction fuel as [|f IH]; intros idx att; [discriminate|].
  cbn [selectSubreddit]. cbv zeta.
  match goal with |- context [if ?c then _ else _] => destruct c end; [apply IH|].
  intros H. apply Some_pair_eq in H as [<- _]. apply nth_In. apply Nat.mod_upper_bound.
  destruct (shuffledSubreddits pl); [contradiction | discriminate].
Qed.

Lemma commenterOf_In (ps : list Persona) (poster c : Persona) :
  commenterOf ps poster c -> In c ps.
Proof.
  unfold commenterOf. destruct (others ps poster) eqn:E.
  - intros H. eapply nth_error_In; exact H.
  - rewrite <- E. unfold others. intros H. apply filter_In in H. apply H.
Qed.

(** Where the entries of a slot come from. *)
Definition fromInput (input : GenerationInput) (p : CalendarPost) : Prop :=
  In (subreddit p) (map normalizeSubreddit (subreddits input))
  /\ In (poster p) (map name (personas input))
  /\ In (commenter p) (map name (personas input))
  /\ (In (topic p) (expandThemesToTopics (themes input))
      \/ exists theme n, In theme (themes input)
                         /\ topic p = cleanTopic theme +++ " - part " +++ natToString n).

(** X1.  Nothing in a returned calendar is made up: the subreddit of every
    post is the normalized form of a subreddit of the input, its poster
    and its commenter are names of personas of the input, and its topic
    is a topic of the expanded pool or the cleaned form of a theme of the
    input followed by [ - part n]. *)
Theorem calendar_entries_come_from_input
    (rand : nat -> Q) (seeds : SeedLibrary) (today : Z) (fuel : nat)
    (input : GenerationInput) (ov : option string) (w w' : World)
    (cal : WeeklyCalendar) :
  generateWeeklyCalendar rand seeds today fuel input ov w = Ok (cal, w') ->
  Forall (fromInput input) (posts cal).
Proof.
  intros H.
  apply generateWeeklyCalendar_Ok in H
    as (Hlen & Hsub & Hth & sT & sP & sS & st & HT & HP & HS & Hrun & ->).
  cbn [posts].
  set (pl := planOf today input ov sT sP sS) in *.
  assert (HneS : shuffledSubreddits pl <> []).
  { cbn. intros E. subst sS. symmetry in HS. apply Permutation_nil in HS. contradiction. }
  eapply (WeekRun_inv fuel pl (fun st => Forall (fromInput input) (s_posts st)));
    [| |exact Hrun|constructor].
  - intros d s Hs. exact Hs.
  - intros d ds s s' Hs (tp & ti & raw & si & po & c & pt & ct & Ht & Hr & Hp & Hc & ->).
    cbn [s_posts]. apply Forall_app. split; [exact Hs|]. constructor; [|constructor].
    unfold fromInput. cbn [subreddit poster commenter topic].
    pose proof (selectSubreddit_In fuel pl _ _ _ _ _ _ HneS Hr) as Hraw.
    pose proof (selectTopic_origin fuel pl _ _ _ _ _ Ht) as Htopic.
    pose proof (nth_error_In _ _ Hp) as Hpo.
    pose proof (commenterOf_In _ _ _ Hc) as Hco.
    change (shuffledSubreddits pl) with sS in Hraw.
    change (shuffledTopics pl) with sT in Htopic.
    change (shuffledPersonas pl) with sP in Hpo, Hco.
    change (p_input pl) with input in Htopic.
    split; [|split; [|split]].
    + apply in_map. eapply Permutation_in; [symmetry; exact HS | exact Hraw].
    + apply in_map. eapply Permutation_in; [symmetry; exact HP | exact Hpo].
    + apply in_map. eapply Permutation_in; [symmetry; exact HP | exact Hco].
    + destruct Htopic as [Htopic|Htopic].
      * left. eapply Permutation_in; [symmetry; exact HT | exact Htopic].
      * right. eexists. eexists. split; [|exact Htopic].
        apply nth_In. apply Nat.mod_upper_bound.
        destruct (themes input); [contradiction | discriminate].
Qed.

(** ** The turns of the personas *)

(** X2.  The posters of a returned calendar go round one fixed order of
    the input's personas, the order that the shuffle gave: the post at
    position [i] is written by the persona at position [i] modulo the
    number of personas. *)
Theorem posters_take_turns
    (rand : nat -> Q) (seeds : SeedLibrary) (today : Z) (fuel : nat)
    (input : GenerationInput) (ov : option string) (w w' : World)
    (cal : WeeklyCalendar) :
  generateWeeklyCalendar rand seeds today fuel input ov w = Ok (cal, w') ->
  exists sP,
    Permutation (personas input) sP
    /\ forall i p, nth_error (posts cal) i = Some p ->
         option_map name (nth_error sP (i mod List.length (personas input)))
         = Some (poster p).
Proof.
  intros H.
  apply generateWeeklyCalendar_Ok in H
    as (_ & _ & _ & sT & sP & sS & st & _ & HP & _ & Hrun & ->).
  exists sP. split; [exact HP|]. cbn [posts].
  rewrite (Permutation_length HP).
  set (pl := planOf today input ov sT sP sS) in *.
  set (Inv := fun st : Sched =>
         personaIndex st = List.length (s_posts st)
         /\ forall i p, nth_error (s_posts st) i = Some p ->
              option_map name (nth_error sP (i mod List.length sP)) = Some (poster p)).
  assert (HI : Inv st).
  { eapply (WeekRun_inv fuel pl Inv); [| |exact Hrun|].
    - intros d s Hs. exact Hs.
    - intros d ds s s' [Hidx Hs]
        (tp & ti & raw & si & po & c & pt & ct & _ & _ & Hp & _ & ->).
      change (shuffledPersonas pl) with sP in Hp.
      split; cbn [personaIndex s_posts].
      + rewrite length_app, Hidx. cbn [List.length]. lia.
      + intros i p Hi.
        destruct (Nat.lt_ge_cases i (List.length (s_posts s))) as [Hlt|Hge].
        * rewrite nth_error_app1 in Hi by exact Hlt. now apply Hs.
        * rewrite nth_error_app2 in Hi by exact Hge.
          destruct (i - List.length (s_posts s)) as [|j] eqn:Ej.
          -- cbn [nth_error] in Hi. apply (f_equal (option_map poster)) in Hi.
             cbn [option_map poster] in Hi.
             replace i with (personaIndex s) by lia. rewrite Hp. cbn [option_map].
             congruence.
          -- cbn [nth_error] in Hi. destruct j; discriminate.
    - split; [reflexivity|]. intros [|i] p Hi; discriminate. }
  exact (proj2 HI).
Qed.

(** ** The topics while the pool lasts *)

Lemma firstn_snoc {A} (l : list A) (k : nat) (d : A) :
  k < List.length l -> firstn (S k) l = firstn k l ++ [nth k l d].
Proof.
  revert k. induction l as [|a l IH]; intros k Hk; [cbn in Hk; lia|].
  destruct k as [|k]; [reflexivity|].
  cbn [firstn nth app]. f_equal. apply IH. cbn in Hk. lia.
Qed.

Lemma NoDup_firstn_nth (l : list string) (k : nat) :
  NoDup l -> k < List.length l -> set_has (firstn k l) (nth k l "") = false.
Proof.
  intros Hnd Hk.
  destruct (set_has (firstn k l) (nth k l "")) eqn:E; [|reflexivity].
  exfalso. apply set_has_In in E.
  rewrite <- (firstn_skipn k l) in Hnd.
  apply NoDup_app_remove_l in Hnd as Hnd2.
  pose proof (firstn_skipn k l) as Hsplit.
  assert (Hin : In (nth k l "") (skipn k l)).
  { rewrite <- (firstn_skipn k l) at 1. rewrite app_nth2; rewrite length_firstn; [|lia].
    replace (k - Nat.min k (List.length l)) with 0 by lia.
    destruct (skipn k l) eqn:Es.
    - apply (f_equal (@List.length _)) in Es. rewrite length_skipn in Es. cbn in Es. lia.
    - now left. }
  revert E Hin. generalize (nth k l ""). intros x E Hin.
  clear Hnd2 Hsplit.
  induction (firstn k l) as [|a f IH]; [contradiction|].
  cbn [app] in Hnd. apply NoDup_cons_iff in Hnd as [Hn Hnd].
  destruct E as [->|E]; [|now apply IH].
  apply Hn. apply in_or_app. now right.
Qed.

Lemma NoDup_firstn {A} (l : list A) (k : nat) : NoDup l -> NoDup (firstn k l).
Proof.
  intros H. rewrite <- (firstn_skipn k l) in H. now apply NoDup_app_remove_r in H.
Qed.

Lemma set_add_length (s : list string) (x : string) :
  List.length s <= List.length (set_add s x).
Proof. unfold set_add. destruct (set_has s x); [lia|]. rewrite length_app. lia. Qed.

Section Topics.

Variable fuel : nat.
Variable pl : Plan.
Hypothesis pool_distinct : NoDup (shuffledTopics pl).
Hypothesis pool_length : List.length (allTopics pl) = List.length (shuffledTopics pl).

(** While fewer slots than topics have been scheduled, the slots took
    the shuffled pool in its order; afterwards the set of used topics is
    as large as the pool. *)
Definition TopicInv (st : Sched) : Prop :=
  let k := List.length (s_posts st) in
  let sT := shuffledTopics pl in
  (k <= List.length sT ->
     topicIndex st = k /\ usedTopics st = firstn k sT
     /\ map topic (s_posts st) = firstn k sT)
  /\ (List.length sT <= k ->
        List.length sT <= List.length (usedTopics st)
        /\ firstn (List.length sT) (map topic (s_posts st)) = sT).

Lemma selectTopic_fresh (f : nat) (st : Sched) :
  TopicInv st -> List.length (s_posts st) < List.length (shuffledTopics pl) ->
  selectTopic (S f) pl (List.length (s_posts st)) (usedTopics st) (topicIndex st)
  = Some (nth (List.length (s_posts st)) (shuffledTopics pl) "",
          S (List.length (s_posts st))).
Proof.
  intros [H1 _] Hk. destruct (H1 ltac:(lia)) as (Hti & Hu & _).
  cbn [selectTopic]. unfold nextTopic. rewrite Hti, Hu.
  replace (List.length (shuffledTopics pl) <=? List.length (s_posts st)) with false
    by (symmetry; apply Nat.leb_gt; exact Hk).
  rewrite (NoDup_firstn_nth _ _ pool_distinct Hk). reflexivity.
Qed.

Lemma selectTopic_exhausted (f : nat) (st : Sched) :
  TopicInv st -> List.length (shuffledTopics pl) <= List.length (s_posts st) ->
  exists tp ti,
    selectTopic (S f) pl (List.length (s_posts st)) (usedTopics st) (topicIndex st)
    = Some (tp, ti).
Proof.
  intros [_ H2] Hk. destruct (H2 Hk) as (Hu & _).
  cbn [selectTopic].
  destruct (nextTopic pl (List.length (s_posts st)) (topicIndex st)) as [tp ti].
  replace (List.length (usedTopics st) <? List.length (allTopics pl)) with false
    by (symmetry; apply Nat.ltb_ge; rewrite pool_length; exact Hu).
  rewrite andb_false_r. now exists tp, ti.
Qed.

Lemma selectTopic_returns (f : nat) (st : Sched) :
  TopicInv st ->
  selectTopic (S f) pl (List.length (s_posts st)) (usedTopics st) (topicIndex st) <> None.
Proof.
  intros HI.
  destruct (Nat.lt_ge_cases (List.length (s_posts st)) (List.length (shuffledTopics pl)))
    as [Hk|Hk].
  - rewrite (selectTopic_fresh f st HI Hk). discriminate.
  - destruct (selectTopic_exhausted f st HI Hk) as (tp & ti & ->). discriminate.
Qed.

Lemma TopicInv_initial : TopicInv initialSched.
Proof.
  split; cbn [initialSched s_posts List.length topicIndex usedTopics map firstn].
  - intros _. repeat split; reflexivity.
  - intros H. assert (E : shuffledTopics pl = []) by (destruct (shuffledTopics pl); [reflexivity | cbn in H; lia]).
    rewrite E. split; [cbn; lia | reflexivity].
Qed.

Lemma TopicInv_startDay (d : nat) (st : Sched) : TopicInv st -> TopicInv (startDay d st).
Proof. intros H. exact H. Qed.

Lemma TopicInv_step (d : nat) (ds : string) (st st' : Sched) :
  TopicInv st -> SlotStep fuel pl d ds st st' -> TopicInv st'.
Proof.
  intros HI (tp & ti & raw & si & po & c & pt & ct & Ht & _ & _ & _ & ->).
  destruct fuel as [|f]; [discriminate|].
  set (k := List.length (s_posts st)) in *.
  destruct (Nat.lt_ge_cases k (List.length (shuffledTopics pl))) as [Hk|Hk].
  - pose proof (selectTopic_fresh f st HI Hk) as Hfresh. fold k in Hfresh.
    rewrite Hfresh in Ht.
    apply Some_pair_eq in Ht as [<- <-].
    destruct HI as [H1 _]. destruct (H1 ltac:(lia)) as (Hti & Hu & Hm). fold k in Hu, Hm.
    assert (Hadd : set_add (usedTopics st) (nth k (shuffledTopics pl) "")
                   = firstn (S k) (shuffledTopics pl)).
    { unfold set_add. rewrite Hu, (NoDup_firstn_nth _ _ pool_distinct Hk).
      symmetry. apply firstn_snoc. exact Hk. }
    assert (Hlen : List.length (s_posts st ++ [mkPost ds (normalizeSubreddit raw) (name po)
                     (name c) (nth k (shuffledTopics pl) "") pt ct]) = S k).
    { rewrite length_app. cbn [List.length]. lia. }
    unfold TopicInv. cbn [s_posts topicIndex usedTopics]. rewrite Hlen, Hadd.
    rewrite map_app, Hm. cbn [map topic].
    rewrite <- (firstn_snoc _ k "" Hk).
    split.
    + intros _. repeat split; reflexivity.
    + intros HL. assert (E : S k = List.length (shuffledTopics pl)) by lia.
      rewrite E, firstn_all. split; [lia|]. apply firstn_all.
  - destruct HI as [_ H2]. destruct (H2 Hk) as (Hu & Hf).
    unfold TopicInv. cbn [s_posts topicIndex usedTopics].
    rewrite length_app. cbn [List.length]. fold k.
    split; [intros HL; lia|]. intros _. split.
    + pose proof (set_add_length (usedTopics st) tp). lia.
    + rewrite map_app, firstn_app, length_map. fold k.
      replace (List.length (shuffledTopics pl) - k) with 0 by lia.
      cbn [firstn]. rewrite app_nil_r. exact Hf.
Qed.

End Topics.

Lemma firstn_incl {A} (l : list A) (k : nat) (x : A) : In x (firstn k l) -> In x l.
Proof. intros H. rewrite <- (firstn_skipn k l). apply in_or_app. now left. Qed.

(** X3.  When the expanded pool has no repeated topic, the topics of the
    first posts of a returned calendar, as many as the pool has, are
    pairwise distinct topics of the pool: they are the first entries, in
    order, of one rearrangement of the pool. *)
Theorem topics_distinct_while_pool_lasts
    (rand : nat -> Q) (seeds : SeedLibrary) (today : Z) (fuel : nat)
    (input : GenerationInput) (ov : option string) (w w' : World)
    (cal : WeeklyCalendar) :
  NoDup (expandThemesToTopics (themes input)) ->
  generateWeeklyCalendar rand seeds today fuel input ov w = Ok (cal, w') ->
  let pool := expandThemesToTopics (themes input) in
  let firstTopics := firstn (List.length pool) (map topic (posts cal)) in
  (exists sT, Permutation pool sT /\ firstTopics = firstn (List.length (posts cal)) sT)
  /\ NoDup firstTopics
  /\ incl firstTopics pool.
Proof.
  intros Hnd H pool firstTopics.
  apply generateWeeklyCalendar_Ok in H
    as (_ & _ & _ & sT & sP & sS & st & HT & _ & _ & Hrun & ->).
  set (pl := planOf today input ov sT sP sS) in *.
  assert (HndT : NoDup (shuffledTopics pl)) by (eapply Permutation_NoDup; [exact HT | exact Hnd]).
  assert (HlenT : List.length (allTopics pl) = List.length (shuffledTopics pl))
    by (apply Permutation_length; exact HT).
  assert (HI : TopicInv pl st).
  { eapply (WeekRun_inv fuel pl (TopicInv pl)).
    - intros d s Hs. exact Hs.
    - intros d ds s s' Hs Hstep. eapply TopicInv_step; eassumption.
    - exact Hrun.
    - apply TopicInv_initial; assumption. }
  assert (E : firstTopics = firstn (List.length (posts (mkCalendar
                (formatDate (chooseWeekStart today ov)) (s_posts st)))) sT).
  { unfold firstTopics, pool. cbn [posts]. rewrite (Permutation_length HT).
    destruct HI as [H1 H2]. change (shuffledTopics pl) with sT in H1, H2.
    destruct (Nat.le_ge_cases (List.length (s_posts st)) (List.length sT)) as [Hk|Hk].
    - destruct (H1 Hk) as (_ & _ & Hm). rewrite Hm.
      rewrite firstn_firstn. f_equal. lia.
    - destruct (H2 Hk) as (_ & Hf). rewrite Hf. symmetry. apply firstn_all2. exact Hk. }
  split; [exists sT; split; [exact HT | exact E]|].
  rewrite E. split.
  - apply NoDup_firstn. exact HndT.
  - intros x Hx. apply firstn_incl in Hx. eapply Permutation_in; [symmetry; exact HT | exact Hx].
Qed.

(** ** Computations that return *)

(** A computation that returns a value from every state: it neither
    throws nor runs out of fuel. *)
Definition Returns {A} (m : M A) : Prop := forall w, exists a w', m w = Ok (a, w').

Lemma Returns_ret {A} (a : A) : Returns (ret a).
Proof. intros w. now exists a, w. Qed.

Lemma Returns_bind {A B} (m : M A) (k : A -> M B) :
  Returns m -> (forall a, Returns (k a)) -> Returns (bind m k).
Proof.
  intros Hm Hk w. destruct (Hm w) as (a & w1 & E). destruct (Hk a w1) as (b & w2 & E2).
  exists b, w2. unfold bind. now rewrite E.
Qed.

Lemma Returns_getW : Returns getW.
Proof. intros w. now exists w, w. Qed.

Lemma Returns_modifyW (f : World -> World) : Returns (modifyW f).
Proof. intros w. now exists tt, (f w). Qed.

Lemma Returns_random (rand : nat -> Q) : Returns (random rand).
Proof. intros w. eexists. eexists. reflexivity. Qed.

Lemma Returns_chance (rand : nat -> Q) (p : Q) : Returns (chance rand p).
Proof.
  unfold chance. apply Returns_bind; [apply Returns_random | intros; apply Returns_ret].
Qed.

Lemma Returns_pick {T} (rand : nat -> Q) (arr : list T) : arr <> [] -> Returns (pick rand arr).
Proof.
  intros H. destruct arr as [|d t]; [contradiction|].
  unfold pick. apply Returns_bind; [apply Returns_random | intros; apply Returns_ret].
Qed.

Lemma Returns_pickWeighted {T} (rand : nat -> Q) (d : T) (ws : list (T * Q)) :
  Returns (pickWeighted rand d ws).
Proof.
  unfold pickWeighted. apply Returns_bind; [apply Returns_random | intros; apply Returns_ret].
Qed.

Lemma Returns_randomOf (rand : nat -> Q) (arr : list string) : Returns (randomOf rand arr).
Proof.
  unfold randomOf. apply Returns_bind; [apply Returns_random | intros; apply Returns_ret].
Qed.

Lemma Returns_replacePieces (f : rmatchinfo -> M string) (ps : list piece) :
  (forall m, Returns (f m)) -> Returns (replacePieces f ps).
Proof.
  intros Hf. induction ps as [|[c|m] ps IH]; cbn [replacePieces].
  - apply Returns_ret.
  - apply Returns_bind; [exact IH | intros; apply Returns_ret].
  - apply Returns_bind; [apply Hf|]. intros.
    apply Returns_bind; [exact IH | intros; apply Returns_ret].
Qed.

Lemma Returns_replaceWithM (g ci : bool) (r : re) (f : rmatchinfo -> M string) (s : string) :
  (forall m, Returns (f m)) -> Returns (replaceWithM g ci r f s).
Proof. intros. now apply Returns_replacePieces. Qed.

(** One step of the search for a proof of [Returns]. *)
Ltac returns_step :=
  match goal with
  | |- Returns (bind _ _) => apply Returns_bind; [|intros ?]
  | |- Returns (ret _) => apply Returns_ret
  | |- Returns getW => apply Returns_getW
  | |- Returns (modifyW _) => apply Returns_modifyW
  | |- Returns (setHistory _) => apply Returns_modifyW
  | |- Returns (setLastIntro _) => apply Returns_modifyW
  | |- Returns (setLastComment _) => apply Returns_modifyW
  | |- Returns (random _) => apply Returns_random
  | |- Returns (chance _ _) => apply Returns_chance
  | |- Returns (shouldMentionCompany _) => apply Returns_chance
  | |- Returns (randomOf _ _) => apply Returns_randomOf
  | |- Returns (pickWeighted _ _ _) => apply Returns_pickWeighted
  | |- Returns (replaceWithM _ _ _ _ _) => apply Returns_replaceWithM; intros ?
  | |- Returns (pick _ (_ :: _)) => apply Returns_pick; discriminate
  | |- Returns (pick _ (map _ (_ :: _))) => apply Returns_pick; discriminate
  | |- Returns (pick _ (_ ++ [_])) =>
      apply Returns_pick; let H := fresh in intros H; now apply app_eq_nil in H
  | H : Returns ?m |- Returns ?m => exact H
  | H : forall x, Returns _ |- Returns _ => apply H
  | |- Returns (if ?b then _ else _) => destruct b
  | |- Returns (match ?x with _ => _ end) => destruct x
  | |- Returns (let _ := _ in _) => cbv zeta
  end.

Section ReturnsEngine.

Variable rand : nat -> Q.

Lemma Returns_replaceTopicRepetition (text topic : string) :
  Returns (replaceTopicRepetition rand text topic).
Proof. unfold replaceTopicRepetition, topicPronouns. repeat returns_step. Qed.

Lemma Returns_smoothText (str : string) : Returns (smoothText rand str).
Proof. unfold smoothText. repeat returns_step. Qed.

Lemma Returns_removeFillerPhrases (text : string) : Returns (removeFillerPhrases rand text).
Proof. unfold removeFillerPhrases, replaceGenericFillers, fillerVariants. repeat returns_step. Qed.

Lemma Returns_rewriteDualThemes (topic : string) : Returns (rewriteDualThemes rand topic).
Proof. unfold rewriteDualThemes. repeat returns_step. Qed.

Lemma Returns_topicSimplify (topic : string) : Returns (topicSimplify rand topic).
Proof.
  unfold topicSimplify.
  destruct (firstKey (fun key => includes (toLowerCase topic) key) synonymMap)
    as [[key syn]|] eqn:E1.
  - apply firstKey_In, synonymMap_nonempty in E1.
    apply Returns_bind; [now apply Returns_pick | intros; apply Returns_ret].
  - destruct (firstKey (fun key => test true (keyPattern key) topic) synonymMap)
      as [[key syn]|] eqn:E2; [|apply Returns_ret].
    apply firstKey_In, synonymMap_nonempty in E2.
    apply Returns_bind; [now apply Returns_pick | intros; apply Returns_ret].
Qed.

Lemma Returns_injectTopic (template topic : string) : Returns (injectTopic rand template topic).
Proof.
  unfold injectTopic. apply Returns_bind; [apply Returns_topicSimplify|].
  intros. apply Returns_ret.
Qed.

Lemma Returns_getPersonaTone (persona : Persona) : Returns (getPersonaTone rand persona).
Proof.
  unfold getPersonaTone. cbv zeta.
  destruct (firstKey _ tonePrefixes) as [[key o]|] eqn:E.
  - apply firstKey_In, tonePrefixes_nonempty in E. now apply Returns_pick.
  - apply Returns_pick. discriminate.
Qed.

Lemma Returns_getStylePrefix (style : StyleMode) : Returns (getStylePrefix rand style).
Proof. unfold getStylePrefix. destruct style; apply Returns_pick; discriminate. Qed.

Lemma Returns_pickWeekUnique {T} (eqb : T -> T -> bool) (arr : list T) (c : Category T) :
  arr <> [] -> Returns (pickWeekUnique rand eqb arr c).
Proof.
  intros H. unfold pickWeekUnique.
  destruct arr as [|x [|y t]]; [contradiction | apply Returns_ret |].
  apply Returns_bind; [apply Returns_getW | intros w].
  destruct (filter _ (x :: y :: t)) as [|z f] eqn:E.
  - apply Returns_pick. discriminate.
  - repeat returns_step.
Qed.

Lemma Returns_pickLengthMode (topic : string) : Returns (pickLengthMode rand topic).
Proof. unfold pickLengthMode, setLastLengthMode. repeat returns_step. Qed.

Lemma Returns_getTopicReference (topic : string) (mode : TopicRefMode) :
  Returns (getTopicReference rand topic mode).
Proof.
  destruct mode; cbn [getTopicReference];
    [apply Returns_topicSimplify | repeat returns_step | repeat returns_step].
Qed.

Lemma Returns_cleanupPipeline (topicSimple result : string) :
  Returns (cleanupPipeline rand topicSimple result).
Proof.
  unfold cleanupPipeline. cbv zeta.
  apply Returns_bind; [apply Returns_rewriteDualThemes | intros].
  apply Returns_bind; [apply Returns_removeFillerPhrases | intros].
  apply Returns_bind; [apply Returns_replaceTopicRepetition | intros].
  apply Returns_smoothText.
Qed.

Variable seeds : SeedLibrary.
Hypothesis seeds_ok : seedsNonEmpty seeds.
Hypothesis intros_distinct : NoDup (introSeeds seeds).
Hypothesis intros_three : 3 <= List.length (introSeeds seeds).

Lemma Returns_pickIntro (fuel : nat) : Returns (pickIntro rand seeds (S (S fuel))).
Proof.
  intros w.
  destruct (pickIntro_two_rounds rand seeds fuel w intros_distinct intros_three)
    as (x & w' & E & _).
  now exists x, w'.
Qed.

Ltac returns_engine :=
  match goal with
  | |- Returns (pickSeed _ _ _) =>
      apply Returns_pickWeekUnique; first [apply seeds_ok | discriminate]
  | |- Returns (pickWeekUnique _ _ _ _) =>
      apply Returns_pickWeekUnique; first [apply seeds_ok | discriminate]
  | |- Returns (topicSimplify _ _) => apply Returns_topicSimplify
  | |- Returns (rewriteDualThemes _ _) => apply Returns_rewriteDualThemes
  | |- Returns (pickLengthMode _ _) => apply Returns_pickLengthMode
  | |- Returns (pickIntro _ _ _) => apply Returns_pickIntro
  | |- Returns (getPersonaTone _ _) => apply Returns_getPersonaTone
  | |- Returns (getStylePrefix _ _) => apply Returns_getStylePrefix
  | |- Returns (cleanupPipeline _ _ _) => apply Returns_cleanupPipeline
  | |- Returns (getTopicReference _ _ _) => apply Returns_getTopicReference
  | |- Returns (injectTopic _ _ _) => apply Returns_injectTopic
  | |- Returns (smoothText _ _) => apply Returns_smoothText
  | |- Returns (removeFillerPhrases _ _) => apply Returns_removeFillerPhrases
  | |- Returns (pickTopicRefMode _) => apply Returns_pick; discriminate
  | |- Returns (pick _ shortIntroSeeds) => apply Returns_pick; discriminate
  | |- Returns (pick _ shortPatterns) => apply Returns_pick; discriminate
  | |- Returns (pick _ shortCommentPatterns) => apply Returns_pick; discriminate
  | |- Returns (pick _ mediumCommentPatterns) => apply Returns_pick; discriminate
  | |- Returns (pick _ noIntroComments) => apply Returns_pick; discriminate
  | |- Returns (pick _ ultraShortComments) => apply Returns_pick; discriminate
  | |- Returns (pick _ enhancers) => apply Returns_pick; discriminate
  | |- Returns (pick _ (commentIntroOptions _)) => apply Returns_pick; discriminate
  | _ => returns_step
  end.

Lemma Returns_generateHybridPost (fuel : nat) (persona : Persona) (topic : string)
    (company : CompanyInfo) :
  Returns (generateHybridPost rand seeds (S (S fuel)) persona topic company).
Proof. unfold generateHybridPost. repeat returns_engine. Qed.

Lemma Returns_pickShortComment (more : nat) (tokens : PatternTokens) :
  Returns (pickShortComment rand more tokens).
Proof.
  induction more as [|m IH]; cbn [pickShortComment]; repeat returns_engine.
Qed.

Lemma Returns_finishComment (useIntro : bool) (tonePrefix result : string) :
  Returns (finishComment rand useIntro tonePrefix result).
Proof. unfold finishComment. repeat returns_engine. Qed.

Lemma Returns_generateHybridComment (persona : Persona) (topic : string)
    (company : CompanyInfo) (postLength : option LengthMode) :
  Returns (generateHybridComment rand seeds persona topic company postLength).
Proof.
  unfold generateHybridComment.
  repeat first [ apply Returns_pickShortComment | apply Returns_finishComment | returns_engine ].
Qed.

End ReturnsEngine.

(** ** A build returns when the topics of the pool are distinct *)

Section BuildReturns.

Variable rand : nat -> Q.
Variable seeds : SeedLibrary.
Hypothesis seeds_ok : seedsNonEmpty seeds.
Hypothesis intros_distinct : NoDup (introSeeds seeds).
Hypothesis intros_three : 3 <= List.length (introSeeds seeds).

Variable fuel : nat.
Variable pl : Plan.
Hypothesis pool_distinct : NoDup (shuffledTopics pl).
Hypothesis pool_length : List.length (allTopics pl) = List.length (shuffledTopics pl).
Hypothesis personas_ok : shuffledPersonas pl <> [].
Hypothesis fuel_intro : 2 <= fuel.
Hypothesis fuel_communities : List.length (shuffledSubreddits pl) * 3 <= fuel.

Lemma pickDifferentPersona_returns (poster : Persona) (w : World) :
  exists c w', pickDifferentPersona rand (shuffledPersonas pl) poster w = Ok (Some c, w').
Proof.
  unfold pickDifferentPersona.
  destruct (filter _ (shuffledPersonas pl)) as [|x f] eqn:E.
  - destruct (shuffledPersonas pl) as [|p t]; [contradiction|]. now exists p, w.
  - destruct (Returns_bind (random rand)
                (fun r => ret (nth_error (x :: f) (floorMul r (List.length (x :: f)))))
                (Returns_random rand) (fun a => Returns_ret _) w) as (o & w' & Eo).
    fold (choose rand (x :: f)) in Eo.
    destruct (choose_Ok rand (x :: f) w w' o ltac:(discriminate) Eo) as (c & -> & _).
    now exists c, w'.
Qed.

Lemma scheduleSlot_returns (d : nat) (ds : string) (st : Sched) (w : World) :
  TopicInv pl st ->
  exists st' w', scheduleSlot rand seeds fuel pl d ds st w = Ok (st', w').
Proof.
  intros HI. destruct fuel as [|[|f]] eqn:Ef; [lia | lia |].
  unfold scheduleSlot.
  pose proof (selectTopic_returns pl pool_distinct pool_length (S f) st HI) as Ht.
  destruct (selectTopic (S (S f)) pl _ _ _) as [[tp ti]|]; [|contradiction].
  pose proof (selectSubreddit_bounded pl
                (match map_get (usedSubredditsPerDay st) d with Some s => s | None => [] end)
                (lastSubreddit st) (S (S f)) (subredditIndex st) 0 ltac:(lia) ltac:(lia)) as Hs.
  destruct (selectSubreddit (S (S f)) pl _ _ _ _) as [[raw si]|]; [|contradiction].
  destruct (nth_error (shuffledPersonas pl)
              (personaIndex st mod List.length (shuffledPersonas pl))) as [poster|] eqn:Ep.
  - destruct (pickDifferentPersona_returns poster w) as (c & w1 & E1).
    rewrite (bind_of_Ok _ _ _ _ _ E1).
    destruct (Returns_generateHybridPost rand seeds seeds_ok intros_distinct intros_three
                f poster tp (company (p_input pl)) w1) as (pt & w2 & E2).
    rewrite (bind_of_Ok _ _ _ _ _ E2).
    destruct (Returns_generateHybridComment rand seeds seeds_ok
                c tp (company (p_input pl)) None w2) as (ct & w3 & E3).
    rewrite (bind_of_Ok _ _ _ _ _ E3).
    eexists. eexists. reflexivity.
  - exfalso. apply nth_error_None in Ep.
    pose proof (Nat.mod_upper_bound (personaIndex st) (List.length (shuffledPersonas pl))).
    destruct (shuffledPersonas pl); [contradiction | cbn [List.length] in *; lia].
Qed.

Lemma dayLoop_returns (d : nat) (ds : string) (left : nat) (st : Sched) (w : World) :
  TopicInv pl st ->
  exists st' w', dayLoop rand seeds fuel pl d ds left st w = Ok (st', w') /\ TopicInv pl st'.
Proof.
  revert st w. induction left as [|l IH]; intros st w HI; cbn [dayLoop].
  - now exists st, w.
  - destruct (moreWanted pl st); [|now exists st, w].
    destruct (scheduleSlot_returns d ds st w HI) as (st1 & w1 & E1).
    rewrite (bind_of_Ok _ _ _ _ _ E1).
    apply IH. eapply TopicInv_step; [exact pool_distinct | exact pool_length | exact HI |].
    eapply scheduleSlot_Ok. exact E1.
Qed.

Lemma weekLoop_returns (days d : nat) (st : Sched) (w : World) :
  TopicInv pl st ->
  exists st' w', weekLoop rand seeds fuel pl days d st w = Ok (st', w').
Proof.
  revert d st w. induction days as [|n IH]; intros d st w HI; cbn [weekLoop].
  - now exists st, w.
  - destruct (moreWanted pl st); [|now exists st, w].
    cbv zeta.
    match goal with
    | |- context [dayLoop rand seeds fuel pl d ?ds ?left ?s0] =>
        destruct (dayLoop_returns d ds left s0 w HI) as (st1 & w1 & E1 & HI1)
    end.
    rewrite (bind_of_Ok _ _ _ _ _ E1). apply IH. exact HI1.
Qed.

End BuildReturns.

Lemma generateWeeklyCalendar_returns
    (rand : nat -> Q) (seeds : SeedLibrary) (today : Z) (fuel : nat)
    (input : GenerationInput) (ov : option string) (w : World) :
  seedsNonEmpty seeds ->
  NoDup (introSeeds seeds) -> 3 <= List.length (introSeeds seeds) ->
  2 <= List.length (personas input) -> subreddits input <> [] -> themes input <> [] ->
  NoDup (expandThemesToTopics (themes input)) ->
  2 <= fuel -> List.length (subreddits input) * 3 <= fuel ->
  exists cal w', generateWeeklyCalendar rand seeds today fuel input ov w = Ok (cal, w').
Proof.
  intros Hseeds Hnd H3 Hp Hs Ht Hpool Hf2 Hf3.
  unfold generateWeeklyCalendar.
  rewrite (bind_of_Ok _ _ _ _ _ (resetWeekHistory_eq w)).
  replace (List.length (personas input) <? 2) with false by (symmetry; apply Nat.ltb_ge; lia).
  replace (List.length (subreddits input) =? 0) with false
    by (symmetry; apply Nat.eqb_neq; destruct (subreddits input); [contradiction | discriminate]).
  replace (List.length (themes input) =? 0) with false
    by (symmetry; apply Nat.eqb_neq; destruct (themes input); [contradiction | discriminate]).
  cbv zeta.
  destruct (shuffle_Ok rand (expandThemesToTopics (themes input))
              (mkWorld (draws w) emptyHistory (lastIntro w) (lastComment w)))
    as (sT & w1 & E1 & P1 & _).
  rewrite (bind_of_Ok _ _ _ _ _ E1).
  destruct (shuffle_Ok rand (personas input) w1) as (sP & w2 & E2 & P2 & _).
  rewrite (bind_of_Ok _ _ _ _ _ E2).
  destruct (shuffle_Ok rand (subreddits input) w2) as (sS & w3 & E3 & P3 & _).
  rewrite (bind_of_Ok _ _ _ _ _ E3).
  set (pl := mkPlan input (expandThemesToTopics (themes input)) sT sP sS
               (chooseWeekStart today ov)).
  destruct (weekLoop_returns rand seeds Hseeds Hnd H3 fuel pl) with (days := 7) (d := 0)
    (st := initialSched) (w := w3) as (st & w4 & E4).
  - cbn. eapply Permutation_NoDup; [exact P1 | exact Hpool].
  - cbn. apply Permutation_length. exact P1.
  - cbn. intros E. subst sP. apply Permutation_length in P2. cbn in P2. lia.
  - exact Hf2.
  - cbn. rewrite <- (Permutation_length P3). exact Hf3.
  - apply TopicInv_initial.
    + cbn. eapply Permutation_NoDup; [exact P1 | exact Hpool].
    + cbn. apply Permutation_length. exact P1.
  - rewrite (bind_of_Ok _ _ _ _ _ E4). eexists. eexists. reflexivity.
Qed.

(** X4.  [generateWeeklyCalendar] returns a calendar, neither throwing nor
    looping without end, when no seed library is empty, the intros are
    at least three and pairwise distinct, the input has at least two
    personas, a subreddit and a theme, and the expanded pool has no
    repeated topic.  The fuel is that of the two bounded loops: two
    rounds for the intro, three times the number of subreddits for the
    community. *)
Theorem build_returns_when_pool_is_distinct
    (rand : nat -> Q) (seeds : SeedLibrary) (today : Z) (fuel : nat)
    (input : GenerationInput) (ov : option string) (w : World) :
  seedsNonEmpty seeds ->
  NoDup (introSeeds seeds) -> 3 <= List.length (introSeeds seeds) ->
  2 <= List.length (personas input) -> subreddits input <> [] -> themes input <> [] ->
  NoDup (expandThemesToTopics (themes input)) ->
  2 <= fuel -> List.length (subreddits input) * 3 <= fuel ->
  exists cal w', generateWeeklyCalendar rand seeds today fuel input ov w = Ok (cal, w').
Proof. apply generateWeeklyCalendar_returns. Qed.

(** ** An empty intro library *)

Lemma expandThemesToTopics_length (themes : list string) :
  List.length (expandThemesToTopics themes) = 8 * List.length themes.
Proof.
  unfold expandThemesToTopics. induction themes as [|t ts IH]; [reflexivity|].
  cbn [flat_map]. rewrite length_app, IH, length_app, length_map.
  cbn [expandTheme List.length]. lia.
Qed.

Lemma bind_throws {A B} (m : M A) (k : A -> M B) (msg : string) :
  Returns m -> (forall a w, k a w = Throw msg) -> forall w, bind m k w = Throw msg.
Proof.
  intros Hm Hk w. destruct (Hm w) as (a & w1 & E). unfold bind. rewrite E. apply Hk.
Qed.

Lemma bind_of_Throw {A B} (m : M A) (k : A -> M B) (w : World) (msg : string) :
  m w = Throw msg -> bind m k w = Throw msg.
Proof. unfold bind. now intros ->. Qed.

Lemma generateHybridPost_without_intros (rand : nat -> Q) (seeds : SeedLibrary) (fuel : nat)
    (persona : Persona) (topic : string) (company : CompanyInfo) (w : World) :
  introSeeds seeds = [] ->
  generateHybridPost rand seeds (S fuel) persona topic company w
  = Throw "Cannot pick from empty array".
Proof.
  intros He. unfold generateHybridPost. cbv zeta.
  apply bind_throws; [apply Returns_topicSimplify | intros ? ?].
  apply bind_throws; [apply Returns_rewriteDualThemes | intros ? ?].
  apply bind_throws; [apply Returns_pickLengthMode | intros ? ?].
  apply bind_throws; [apply Returns_pickWeekUnique; discriminate | intros ? ?].
  cbn [pickIntro]. rewrite He. reflexivity.
Qed.

(** X5.  With an empty library of intros, a valid input that asks for at
    least one post makes the build throw [Cannot pick from empty array]:
    the error of [pickWeekUnique] raised for the first post is not
    caught on the way. *)
Theorem empty_intro_library_throws
    (rand : nat -> Q) (seeds : SeedLibrary) (today : Z) (fuel : nat)
    (input : GenerationInput) (ov : option string) (w : World) :
  introSeeds seeds = [] ->
  2 <= List.length (personas input) -> subreddits input <> [] -> themes input <> [] ->
  (0 < postsPerWeek input)%Z -> 1 <= fuel ->
  generateWeeklyCalendar rand seeds today fuel input ov w
  = Throw "Cannot pick from empty array".
Proof.
  intros He Hp Hs Ht Hppw Hfuel.
  destruct fuel as [|f]; [lia|].
  unfold generateWeeklyCalendar.
  rewrite (bind_of_Ok _ _ _ _ _ (resetWeekHistory_eq w)).
  replace (List.length (personas input) <? 2) with false by (symmetry; apply Nat.ltb_ge; lia).
  replace (List.length (subreddits input) =? 0) with false
    by (symmetry; apply Nat.eqb_neq; destruct (subreddits input); [contradiction | discriminate]).
  replace (List.length (themes input) =? 0) with false
    by (symmetry; apply Nat.eqb_neq; destruct (themes input); [contradiction | discriminate]).
  cbv zeta.
  destruct (shuffle_Ok rand (expandThemesToTopics (themes input))
              (mkWorld (draws w) emptyHistory (lastIntro w) (lastComment w)))
    as (sT & w1 & E1 & P1 & _).
  rewrite (bind_of_Ok _ _ _ _ _ E1).
  destruct (shuffle_Ok rand (personas input) w1) as (sP & w2 & E2 & P2 & _).
  rewrite (bind_of_Ok _ _ _ _ _ E2).
  destruct (shuffle_Ok rand (subreddits input) w2) as (sS & w3 & E3 & P3 & _).
  rewrite (bind_of_Ok _ _ _ _ _ E3).
  set (pl := mkPlan input (expandThemesToTopics (themes input)) sT sP sS
               (chooseWeekStart today ov)).
  (* the three shuffled lists are not empty *)
  destruct sT as [|t0 sT'].
  { apply Permutation_length in P1. rewrite expandThemesToTopics_length in P1.
    destruct (themes input); [contradiction | cbn in P1; lia]. }
  destruct sP as [|p0 sP'].
  { apply Permutation_length in P2. cbn in P2. lia. }
  destruct sS as [|s0 sS'].
  { symmetry in P3. apply Permutation_nil in P3. contradiction. }
  (* the first day, the first slot *)
  assert (Hw : moreWanted pl initialSched = true).
  { unfold moreWanted. cbn [initialSched s_posts List.length pl p_input]. apply Z.ltb_lt. lia. }
  cbn [weekLoop]. rewrite Hw. cbv zeta.
  set (st0 := mkSched (s_posts initialSched) (usedTopics initialSched)
                (match map_get (usedSubredditsPerDay initialSched) 0 with
                 | Some _ => usedSubredditsPerDay initialSched
                 | None => map_set (usedSubredditsPerDay initialSched) 0 []
                 end)
                (lastSubreddit initialSched) (topicIndex initialSched)
                (subredditIndex initialSched) (personaIndex initialSched)).
  assert (Hq : exists l, Z.to_nat (postsToday pl 0 st0) = S l).
  { unfold postsToday. cbn [st0 initialSched s_posts List.length pl p_input Z.of_nat].
    destruct (ceilDiv_bounds (postsPerWeek input - 0) (7 - 0) ltac:(lia)) as [H1 _].
    exists (Nat.pred (Z.to_nat (ceilDiv (postsPerWeek input - 0) (7 - 0)))). lia. }
  destruct Hq as (l & ->).
  cbn [dayLoop].
  change (moreWanted pl st0) with (moreWanted pl initialSched). rewrite Hw.
  assert (Hslot : forall ds w0, scheduleSlot rand seeds (S f) pl 0 ds st0 w0
                                = Throw "Cannot pick from empty array").
  { intros ds w0. unfold scheduleSlot, st0, pl.
    cbn [initialSched s_posts usedTopics topicIndex usedSubredditsPerDay lastSubreddit
         subredditIndex personaIndex map_get map_set Nat.eqb List.length
         shuffledTopics shuffledSubreddits shuffledPersonas allTopics p_input].
    cbn [selectTopic nextTopic shuffledTopics List.length Nat.leb set_has existsb andb nth
         p_input].
    cbn [selectSubreddit shuffledSubreddits same_as set_has existsb orb andb].
    rewrite Nat.Div0.mod_0_l. cbn [nth_error].
    destruct (pickDifferentPersona_returns rand pl ltac:(discriminate) p0 w0) as (c & w' & Ec).
    cbn [pl shuffledPersonas] in Ec. rewrite (bind_of_Ok _ _ _ _ _ Ec).
    apply bind_of_Throw. apply generateHybridPost_without_intros. exact He. }
  do 3 apply bind_of_Throw. apply Hslot.
Qed.

(** ** The community loop *)

Lemma selectSubreddit_spec (fuel : nat) (pl : Plan) (day : list string)
    (last : option string) (idx att : nat) (raw : string) (idx' : nat) :
  selectSubreddit fuel pl day last idx att = Some (raw, idx') ->
  let n := List.length (shuffledSubreddits pl) in
  idx < idx'
  /\ raw = nth ((idx' - 1) mod n) (shuffledSubreddits pl) ""
  /\ (idx' - idx) + att <= Nat.max (S att) (n * 3)
  /\ ((set_has day raw || same_as last raw) = false \/ n * 3 <= (idx' - idx) + att).
Proof.
  intros H n. revert idx att H. induction fuel as [|f IH]; intros idx att H; [discriminate|].
  cbn [selectSubreddit] in H. cbv zeta in H. fold n in H.
  destruct (set_has day (nth (idx mod n) (shuffledSubreddits pl) "")
            || same_as last (nth (idx mod n) (shuffledSubreddits pl) "")) eqn:Ec.
  - destruct (S att <? n * 3) eqn:Ea; cbn [andb] in H.
    + apply Nat.ltb_lt in Ea. destruct (IH _ _ H) as (H1 & H2 & H3 & H4).
      split; [lia|]. split; [exact H2|]. split; [lia|].
      destruct H4 as [H4|H4]; [now left | right; lia].
    + apply Nat.ltb_ge in Ea. apply Some_pair_eq in H as [<- <-].
      split; [lia|]. split; [now rewrite Nat.sub_1_r|]. split; [lia | right; lia].
  - cbn [andb] in H. apply Some_pair_eq in H as [<- <-].
    split; [lia|]. split; [now rewrite Nat.sub_1_r|]. split; [lia | now left].
Qed.

(** X6.  The loop that picks the community of a slot ends within three
    rounds per shuffled community.  What it returns is one of the
    shuffled communities, and when it ends before its last round, that
    community is neither used on the day already nor the community of
    the slot before. *)
Theorem community_loop_is_bounded (fuel : nat) (pl : Plan) (day : list string)
    (last : option string) (idx : nat) :
  let n := List.length (shuffledSubreddits pl) in
  0 < n -> n * 3 <= fuel ->
  exists raw idx',
    selectSubreddit fuel pl day last idx 0 = Some (raw, idx')
    /\ In raw (shuffledSubreddits pl)
    /\ idx < idx' <= idx + n * 3
    /\ (idx' < idx + n * 3 -> ~ In raw day /\ last <> Some raw).
Proof.
  intros n Hn Hf.
  pose proof (selectSubreddit_bounded pl day last fuel idx 0 ltac:(fold n; lia) ltac:(lia)) as Hb.
  destruct (selectSubreddit fuel pl day last idx 0) as [[raw idx']|] eqn:E; [|contradiction].
  exists raw, idx'. split; [reflexivity|].
  destruct (selectSubreddit_spec _ _ _ _ _ _ _ _ E) as (H1 & H2 & H3 & H4). fold n in H2, H3, H4.
  split; [|split; [lia|]].
  - rewrite H2. apply nth_In. apply Nat.mod_upper_bound. fold n. lia.
  - intros Hlt. destruct H4 as [H4|H4]; [|lia].
    apply orb_false_elim in H4 as [Hd Hl]. split.
    + intros Hin. apply set_has_In in Hin. congruence.
    + intros ->. cbn [same_as] in Hl. now rewrite String.eqb_refl in Hl.
Qed.

(** ** Dates *)

Lemma civil_roundtrip (z : Z) :
  let '(y, m, d) := civilFromDays z in
  (1 <= m <= 12)%Z /\ (1 <= d <= 31)%Z /\ (daysFromCivil y m + d - 1 = z)%Z
  /\ (-683003 <= z -> 100 <= y)%Z.
Proof.
  unfold civilFromDays, daysFromCivil. cbv zeta.
  set (z0 := (z + 719468)%Z).
  set (era := (z0 / 146097)%Z).
  set (doe := (z0 - era * 146097)%Z).
  assert (Hz : (z = era * 146097 + doe - 719468)%Z) by (unfold doe, z0; lia).
  assert (Hdoe : (0 <= doe < 146097)%Z).
  { unfold doe, era. pose proof (Z.div_mod z0 146097 ltac:(lia)).
    pose proof (Z.mod_pos_bound z0 146097 ltac:(lia)). lia. }
  clearbody doe era. clear z0.
  set (yoe := ((doe - doe / 1460 + doe / 36524 - doe / 146096) / 365)%Z).
  assert (Hyoe : (0 <= yoe <= 399)%Z).
  { unfold yoe. Z.div_mod_to_equations. lia. }
  set (doy := (doe - (365 * yoe + yoe / 4 - yoe / 100))%Z).
  assert (Hdoy : (0 <= doy <= 365)%Z).
  { unfold doy, yoe. Z.div_mod_to_equations. lia. }
  assert (Hdoe' : (doe = 365 * yoe + yoe / 4 - yoe / 100 + doy)%Z) by (unfold doy; lia).
  assert (Hy : (-683003 <= z -> 0 <= era /\ (era = 0 -> 99 <= yoe /\ (yoe = 99 -> 306 <= doy)))%Z).
  { intros Hc. split; [lia|]. intros ->.
    assert (36465 <= doe)%Z by lia.
    unfold doy, yoe. Z.div_mod_to_equations. lia. }
  clearbody doy yoe.
  set (mp := ((5 * doy + 2) / 153)%Z).
  assert (Hmp : (0 <= mp <= 11)%Z) by (unfold mp; Z.div_mod_to_equations; lia).
  set (dd := (doy - (153 * mp + 2) / 5 + 1)%Z).
  assert (Hdd : (1 <= dd <= 31)%Z) by (unfold dd, mp; Z.div_mod_to_equations; lia).
  assert (Hdoy' : (doy = (153 * mp + 2) / 5 + dd - 1)%Z) by (unfold dd; lia).
  assert (Hmpdef : (mp = (5 * doy + 2) / 153)%Z) by reflexivity.
  clearbody dd mp.
  destruct (mp <? 10)%Z eqn:E10; [apply Z.ltb_lt in E10 | apply Z.ltb_ge in E10].
  - split; [lia|]. split; [exact Hdd|].
    destruct (mp + 3 <=? 2)%Z eqn:E2; [apply Z.leb_le in E2; lia|].
    replace (2 <? mp + 3)%Z with true by (symmetry; apply Z.ltb_lt; lia).
    replace (yoe + era * 400 + 0)%Z with (era * 400 + yoe)%Z by lia.
    replace ((era * 400 + yoe) / 400)%Z with era
      by (apply (Z.div_unique_pos _ _ _ yoe); lia).
    replace (mp + 3 - 3)%Z with mp by lia.
    replace (era * 400 + yoe - era * 400)%Z with yoe by lia.
    split; [lia|]. intros Hc. destruct (Hy Hc) as [He Hy9].
    assert (Hmp306 : (306 <= doy -> 10 <= mp)%Z)
      by (intros; rewrite Hmpdef; Z.div_mod_to_equations; lia).
    lia.
  - split; [lia|]. split; [exact Hdd|].
    replace (mp - 9 <=? 2)%Z with true by (symmetry; apply Z.leb_le; lia).
    replace (2 <? mp - 9)%Z with false by (symmetry; apply Z.ltb_ge; lia).
    replace (yoe + era * 400 + 1 - 1)%Z with (era * 400 + yoe)%Z by lia.
    replace ((era * 400 + yoe) / 400)%Z with era
      by (apply (Z.div_unique_pos _ _ _ yoe); lia).
    replace (mp - 9 + 9)%Z with mp by lia.
    replace (era * 400 + yoe - era * 400)%Z with yoe by lia.
    split; [lia|]. intros Hc. destruct (Hy Hc) as [He Hy9]. lia.
Qed.

(** *** Decimal numerals *)

Definition numeral (l : chars) : Prop := l <> [] /\ forallb is_digit l = true.

Definition numeralValue (l : chars) : Z :=
  fold_left (fun acc c => (10 * acc + Z.of_nat (digit_val c))%Z) l 0%Z.

Lemma digit_char (k : nat) :
  k < 10 ->
  is_digit (ascii_of_nat (48 + k)) = true /\ digit_val (ascii_of_nat (48 + k)) = k.
Proof.
  intros H. do 10 (destruct k as [|k]; [split; reflexivity|]). lia.
Qed.

Lemma digitsN_app (fuel n : nat) (acc : chars) :
  digitsN fuel n acc = digitsN fuel n [] ++ acc.
Proof.
  revert n acc. induction fuel as [|f IH]; intros n acc; [reflexivity|].
  cbn [digitsN]. destruct (n <? 10); [reflexivity|].
  rewrite (IH (n / 10) (_ :: acc)), (IH (n / 10) [_]), <- app_assoc. reflexivity.
Qed.

Lemma numeralValue_snoc (l : chars) (c : ascii) :
  numeralValue (l ++ [c]) = (10 * numeralValue l + Z.of_nat (digit_val c))%Z.
Proof. unfold numeralValue. now rewrite fold_left_app. Qed.

Lemma digitsN_numeral (fuel n : nat) :
  n < fuel ->
  numeral (digitsN fuel n []) /\ numeralValue (digitsN fuel n []) = Z.of_nat n.
Proof.
  revert n. induction fuel as [|f IH]; intros n Hn; [lia|].
  cbn [digitsN]. destruct (digit_char (n mod 10)) as [Hd Hv];
    [apply Nat.mod_upper_bound; lia|].
  destruct (n <? 10) eqn:E.
  - apply Nat.ltb_lt in E. rewrite Nat.mod_small in * by exact E.
    split; [split; [discriminate | cbn [forallb]; now rewrite Hd]|].
    unfold numeralValue. cbn [fold_left]. rewrite Hv. lia.
  - apply Nat.ltb_ge in E. rewrite digitsN_app.
    assert (Hlt : n / 10 < f).
    { pose proof (Nat.div_mod_eq n 10). pose proof (Nat.mod_upper_bound n 10 ltac:(lia)). lia. }
    destruct (IH _ Hlt) as [[Hne Hall] Hval].
    split; [split|].
    + intros H. now apply app_eq_nil in H.
    + rewrite forallb_app, Hall. cbn [forallb]. now rewrite Hd.
    + rewrite numeralValue_snoc, Hval, Hv.
      pose proof (Nat.div_mod_eq n 10). lia.
Qed.

Lemma natToString_numeral (n : nat) :
  numeral (s2l (natToString n)) /\ numeralValue (s2l (natToString n)) = Z.of_nat n.
Proof. unfold natToString. rewrite s2l_l2s. apply digitsN_numeral. lia. Qed.

Lemma numberOf_numeral (s : string) :
  numeral (s2l s) -> numberOf s = Some (numeralValue (s2l s)).
Proof. intros [_ H]. unfold numberOf. now rewrite H. Qed.

Lemma s2l_app (a b : string) : s2l (a +++ b) = s2l a ++ s2l b.
Proof. unfold s2l. induction a as [|c a IH]; cbn; [reflexivity | now rewrite IH]. Qed.

Lemma padStart0_numeral (n : nat) (s : string) :
  numeral (s2l s) ->
  numeral (s2l (padStart0 n s))
  /\ numeralValue (s2l (padStart0 n s)) = numeralValue (s2l s).
Proof.
  intros [Hne Hall]. unfold padStart0. rewrite s2l_app, s2l_l2s.
  induction (n - String.length s) as [|k [[IH1 IH2] IH3]]; cbn [repeat app].
  - repeat split; assumption.
  - split; [split; [discriminate|]|].
    + cbn [forallb]. now rewrite IH2.
    + unfold numeralValue in *. cbn [fold_left]. exact IH3.
Qed.

Lemma numeral_dashFree (l : chars) : numeral l -> ~ In "-"%char l.
Proof.
  intros [_ H] Hin. rewrite forallb_forall in H. specialize (H _ Hin). discriminate.
Qed.

(** *** Splitting at dashes *)

Lemma splitL_segment (a rest cur : chars) (fuel : nat) :
  ~ In "-"%char a -> List.length a < fuel ->
  splitL fuel ["-"%char] (a ++ "-"%char :: rest) cur
  = (rev cur ++ a) :: splitL (fuel - List.length a - 1) ["-"%char] rest [].
Proof.
  revert cur fuel. induction a as [|x a IH]; intros cur fuel Hd Hf.
  - destruct fuel as [|f]; [cbn in Hf; lia|]. cbn [app List.length splitL].
    cbn [prefixL]. rewrite Ascii.eqb_refl. cbn [andb skipn List.length].
    rewrite app_nil_r. do 2 f_equal. lia.
  - destruct fuel as [|f]; [cbn in Hf; lia|]. cbn [app splitL prefixL].
    replace (Ascii.eqb "-"%char x) with false
      by (symmetry; apply Ascii.eqb_neq; intros E; apply Hd; now left).
    cbn [andb]. rewrite IH; [|intros H; apply Hd; now right | cbn in Hf; lia].
    cbn [rev List.length]. rewrite <- app_assoc. reflexivity.
Qed.

Lemma splitL_last (c cur : chars) (fuel : nat) :
  ~ In "-"%char c -> splitL fuel ["-"%char] c cur = [rev cur ++ c].
Proof.
  revert cur fuel. induction c as [|x c IH]; intros cur fuel Hd.
  - destruct fuel; cbn [splitL]; now rewrite ?app_nil_r.
  - destruct fuel as [|f]; [reflexivity|]. cbn [splitL prefixL].
    replace (Ascii.eqb "-"%char x) with false
      by (symmetry; apply Ascii.eqb_neq; intros E; apply Hd; now left).
    cbn [andb]. rewrite IH by (intros H; apply Hd; now right).
    cbn [rev]. now rewrite <- app_assoc.
Qed.

Lemma split_three (a b c : string) :
  ~ In "-"%char (s2l a) -> ~ In "-"%char (s2l b) -> ~ In "-"%char (s2l c) ->
  split (a +++ "-" +++ b +++ "-" +++ c) "-" = [a; b; c].
Proof.
  intros Ha Hb Hc. unfold split.
  rewrite !s2l_app. change (s2l "-") with ["-"%char]. cbn [app].
  assert (Hlen : String.length (a +++ "-" +++ b +++ "-" +++ c)
                 = List.length (s2l a) + 1 + (List.length (s2l b) + 1 + List.length (s2l c))).
  { rewrite <- String_length_s2l, !s2l_app, !length_app. cbn. lia. }
  rewrite Hlen.
  rewrite splitL_segment by (assumption || lia).
  rewrite splitL_segment by (assumption || lia).
  rewrite splitL_last by assumption.
  cbn [rev app map]. now rewrite !l2s_s2l.
Qed.

(** *** The round trip *)

Lemma ZToString_numeral (z : Z) :
  (0 <= z)%Z ->
  numeral (s2l (ZToString z)) /\ numeralValue (s2l (ZToString z)) = z.
Proof.
  intros Hz. unfold ZToString.
  replace (z <? 0)%Z with false by (symmetry; apply Z.ltb_ge; exact Hz).
  destruct (natToString_numeral (Z.to_nat z)) as [H1 H2]. split; [exact H1 | lia].
Qed.

Lemma formatDate_parseDate (z : Z) :
  (-683003 <= z)%Z -> parseDate (formatDate (Some z)) = Some z.
Proof.
  intros Hz. unfold formatDate.
  pose proof (civil_roundtrip z) as Hc.
  destruct (civilFromDays z) as [[y m] d]. destruct Hc as (Hm & Hd & Hdays & Hy).
  specialize (Hy Hz).
  destruct (ZToString_numeral y ltac:(lia)) as [Ny Vy].
  destruct (ZToString_numeral m ltac:(lia)) as [Nm Vm].
  destruct (ZToString_numeral d ltac:(lia)) as [Nd Vd].
  destruct (padStart0_numeral 2 _ Nm) as [Nm' Vm'].
  destruct (padStart0_numeral 2 _ Nd) as [Nd' Vd'].
  unfold parseDate.
  rewrite split_three by (apply numeral_dashFree; assumption).
  cbn [map].
  rewrite (numberOf_numeral _ Ny), (numberOf_numeral _ Nm'), (numberOf_numeral _ Nd').
  rewrite Vy, Vm', Vm, Vd', Vd. f_equal.
  unfold makeDate.
  replace ((0 <=? y)%Z && (y <=? 99)%Z) with false
    by (symmetry; apply andb_false_iff; right; apply Z.leb_gt; lia).
  replace ((m - 1) / 12)%Z with 0%Z by (symmetry; apply Z.div_small; lia).
  replace ((m - 1) mod 12)%Z with (m - 1)%Z by (symmetry; apply Z.mod_small; lia).
  replace (y + 0)%Z with y by lia. replace (m - 1 + 1)%Z with m by lia. exact Hdays.
Qed.

(** [date.getDay ()]: the day of the week of a day number, 0 for Sunday *)
Definition getDay (z : Z) : Z := ((z + 4) mod 7)%Z.

(** X7.  [getMondayOfWeek] gives the Monday on or before today: a day
    whose [getDay] is 1 and from which today is at most six days away;
    on a Sunday it is the Monday six days earlier, not the next day. *)
Theorem getMondayOfWeek_is_the_monday_before (today : Z) :
  exists monday,
    getMondayOfWeek today = Some monday
    /\ getDay monday = 1%Z
    /\ (monday <= today < monday + 7)%Z
    /\ (getDay today = 0%Z -> monday = today - 6)%Z.
Proof.
  unfold getMondayOfWeek, getDay. cbv zeta.
  pose proof (Z.mod_pos_bound (today + 4) 7 ltac:(lia)) as Hb.
  pose proof (Z.div_mod (today + 4) 7 ltac:(lia)) as Hd.
  destruct ((today + 4) mod 7 =? 0)%Z eqn:E;
    [apply Z.eqb_eq in E | apply Z.eqb_neq in E];
    eexists; (split; [reflexivity|]).
  - rewrite E. split; [|split; [lia | intros _; lia]].
    replace (today - 0 + -6 + 4)%Z with (1 + ((today + 4) / 7 - 1) * 7)%Z by lia.
    rewrite Z.mod_add by lia. reflexivity.
  - split; [|split; [lia | intros H; contradiction]].
    replace (today - (today + 4) mod 7 + 1 + 4)%Z with (1 + ((today + 4) / 7) * 7)%Z by lia.
    rewrite Z.mod_add by lia. reflexivity.
Qed.

(** The days from 1 January 100 to 31 December 275759.  Before the
    first, a year has two digits, which [parseDate] reads as a year of
    the twentieth century.  After the last begins the year in which the
    dates of the program end (100,000,000 days after 1 January 1970, at
    midnight of universal time): within the range, a day is a valid
    date in every time zone. *)
Definition firstDay : Z := (-683003)%Z.
Definition lastDay : Z := 99999743%Z.

(** X8.  From the year 100 to the year 275759, [parseDate] reads back
    the date that [formatDate] wrote, also after [addDays] when the
    date reached is in that range; the invalid date is written as
    [NaN-NaN-NaN] and read back as invalid.  The lower bound is sharp:
    the last day of the year 99 is written with a two-digit year, which
    [parseDate] reads as 1999. *)
Theorem dates_survive_formatting :
  (forall z, (firstDay <= z <= lastDay)%Z -> parseDate (formatDate (Some z)) = Some z)
  /\ (forall z k, (firstDay <= z <= lastDay)%Z -> (firstDay <= z + k <= lastDay)%Z ->
        parseDate (formatDate (addDays (parseDate (formatDate (Some z))) k))
        = Some (z + k)%Z)
  /\ parseDate (formatDate None) = None
  /\ formatDate (Some firstDay) = "100-01-01"
  /\ formatDate (Some lastDay) = "275759-12-31"
  /\ formatDate (Some 19723%Z) = "2024-01-01"
  /\ formatDate (addDays (parseDate "2024-01-29") 7) = "2024-02-05"
  /\ formatDate (Some (-683004)%Z) = "99-12-31"
  /\ parseDate "99-12-31" = parseDate "1999-12-31".
Proof.
  unfold firstDay, lastDay.
  split; [intros z Hz; apply formatDate_parseDate; lia|]. split.
  - intros z k Hz Hzk. rewrite (formatDate_parseDate z) by lia. cbn [addDays option_map].
    apply formatDate_parseDate. lia.
  - repeat split; vm_compute; reflexivity.
Qed.

(** ** The dates of a returned calendar *)

Lemma datesFrom_In (ws : Date) (d : nat) (qs : list nat) (x : string) :
  In x (datesFrom ws d qs) ->
  exists i, d <= i < d + List.length qs /\ x = formatDate (addDays ws (Z.of_nat i)).
Proof.
  revert d. induction qs as [|k qs IH]; intros d H; [destruct H|].
  cbn [datesFrom] in H. apply in_app_or in H as [H|H].
  - apply repeat_spec in H. exists d. cbn [List.length]. split; [lia | exact H].
  - destruct (IH _ H) as (i & Hi & E). exists i. cbn [List.length]. split; [lia | exact E].
Qed.

Lemma slotsPerDay_length (ppw : Z) : List.length (slotsPerDay ppw) = 7.
Proof. reflexivity. Qed.

(** X9.  A returned calendar has exactly [postsPerWeek] posts and the
    formatted week start.  The posts are in date order: with [q] and [s]
    the quotient and the remainder of [postsPerWeek] by 7, the first [s]
    days of the week carry [q + 1] posts and the other days [q]; so
    every date is one of the seven days from the week start. *)
Theorem returned_calendar_has_the_requested_slots
    (rand : nat -> Q) (seeds : SeedLibrary) (today : Z) (fuel : nat)
    (input : GenerationInput) (ov : option string) (w w' : World)
    (cal : WeeklyCalendar) :
  (0 <= postsPerWeek input)%Z ->
  generateWeeklyCalendar rand seeds today fuel input ov w = Ok (cal, w') ->
  let start := chooseWeekStart today ov in
  let q := Z.to_nat (postsPerWeek input / 7) in
  let s := Z.to_nat (postsPerWeek input mod 7) in
  List.length (posts cal) = Z.to_nat (postsPerWeek input)
  /\ weekStart cal = formatDate start
  /\ map date (posts cal) = datesFrom start 0 (repeat (S q) s ++ repeat q (7 - s))
  /\ Forall (fun p => exists d, d < 7 /\ date p = formatDate (addDays start (Z.of_nat d)))
       (posts cal).
Proof.
  intros Hp H start q s.
  destruct (returned_calendar_layout rand seeds today fuel input ov w w' cal Hp H)
    as (Hlen & Hws & Hdates).
  split; [exact Hlen|]. split; [exact Hws|]. split.
  - rewrite Hdates. f_equal. apply slotsPerDay_closed. exact Hp.
  - apply Forall_forall. intros p Hin.
    apply (in_map date) in Hin. rewrite Hdates in Hin.
    apply datesFrom_In in Hin as (i & Hi & E). rewrite slotsPerDay_length in Hi.
    exists i. split; [lia | exact E].
Qed.

(** ** The start of the week *)

Lemma formatDate_nonempty (d : Date) : formatDate d <> "".
Proof.
  destruct d as [z|]; [|discriminate]. unfold formatDate.
  destruct (civilFromDays z) as [[y m] dd]. intros E.
  apply (f_equal s2l) in E. rewrite s2l_app in E. change (s2l "") with (@nil ascii) in E.
  apply app_eq_nil in E as [_ E]. discriminate.
Qed.

Lemma parseDate_short (s : string) : List.length (split s "-") < 3 -> parseDate s = None.
Proof.
  unfold parseDate. destruct (split s "-") as [|a [|b [|c t]]]; cbn [map List.length]; intros H.
  - reflexivity.
  - now destruct (numberOf a).
  - destruct (numberOf a); [|reflexivity]. now destruct (numberOf b).
  - lia.
Qed.

Lemma datesFrom_invalid (d : nat) (qs : list nat) (x : string) :
  In x (datesFrom None d qs) -> x = "NaN-NaN-NaN".
Proof. intros H. apply datesFrom_In in H as (i & _ & ->). reflexivity. Qed.

(** X10.  The week start of a returned calendar follows the override.  An
    override in the format of [formatDate], for a week that lies
    between the year 100 and the year 275759, is the week start as
    given, and the dates run from it.  An override with fewer than three fields
    between dashes is not refused: the week start and every date are
    [NaN-NaN-NaN].  Without an override, or with the empty string, the
    week starts at the Monday of the current week, the current day
    being in that range. *)
Theorem week_start_follows_the_override
    (rand : nat -> Q) (seeds : SeedLibrary) (today : Z) (fuel : nat)
    (input : GenerationInput) (ov : option string) (w w' : World)
    (cal : WeeklyCalendar) :
  (0 <= postsPerWeek input)%Z ->
  generateWeeklyCalendar rand seeds today fuel input ov w = Ok (cal, w') ->
  (forall z, (firstDay <= z)%Z -> (z + 6 <= lastDay)%Z ->
     ov = Some (formatDate (Some z)) ->
     weekStart cal = formatDate (Some z)
     /\ map date (posts cal) = datesFrom (Some z) 0 (slotsPerDay (postsPerWeek input)))
  /\ (forall s, ov = Some s -> s <> "" -> List.length (split s "-") < 3 ->
        weekStart cal = "NaN-NaN-NaN"
        /\ Forall (fun p => date p = "NaN-NaN-NaN") (posts cal))
  /\ (ov = None \/ ov = Some "" -> (firstDay + 6 <= today <= lastDay)%Z ->
      weekStart cal = formatDate (getMondayOfWeek today)).
Proof.
  intros Hp H.
  destruct (returned_calendar_layout rand seeds today fuel input ov w w' cal Hp H)
    as (_ & Hws & Hdates).
  split; [|split].
  - intros z Hz Hz6 ->. unfold firstDay in Hz. unfold chooseWeekStart in Hws, Hdates.
    replace (formatDate (Some z) =? "")%string with false in Hws, Hdates
      by (symmetry; apply String.eqb_neq; apply formatDate_nonempty).
    rewrite (formatDate_parseDate z Hz) in Hws, Hdates. split; assumption.
  - intros s -> Hne Hshort. unfold chooseWeekStart in Hws, Hdates.
    replace (s =? "")%string with false in Hws, Hdates
      by (symmetry; apply String.eqb_neq; exact Hne).
    rewrite (parseDate_short s Hshort) in Hws, Hdates.
    split; [exact Hws|]. apply Forall_forall. intros p Hin.
    apply (in_map date) in Hin. rewrite Hdates in Hin. eapply datesFrom_invalid; exact Hin.
  - intros [->| ->] _; exact Hws.
Qed.

(** ** Picks that avoid recent values *)

Arguments cat_get {T} _ _.
Arguments cat_set {T} _ _ _.

Section WeekUnique.

Variable rand : nat -> Q.
Context {T : Type}.
Variable eqb : T -> T -> bool.
Hypothesis eqb_spec : forall x y, eqb x y = true <-> x = y.
Variable c : Category T.
Hypothesis get_set : forall l h, cat_get c (cat_set c l h) = l.

Lemma existsb_eqb (x : T) (l : list T) : existsb (eqb x) l = true <-> In x l.
Proof.
  rewrite existsb_exists. split.
  - intros (y & Hy & E). apply eqb_spec in E. now subst.
  - intros H. exists x. split; [exact H | now apply eqb_spec].
Qed.

(** the history after a recorded pick: the new value is pushed, and the
    oldest one dropped when more than ten are held *)
Definition pushed (history : list T) (x : T) : list T :=
  if 10 <? List.length (history ++ [x]) then tl (history ++ [x]) else history ++ [x].

Lemma pushed_length (history : list T) (x : T) :
  List.length history <= 10 -> List.length (pushed history x) <= 10.
Proof.
  intros H. unfold pushed. destruct (10 <? _) eqn:E.
  - destruct (history ++ [x]) eqn:Eh; [cbn; lia|].
    apply (f_equal (@List.length _)) in Eh. rewrite length_app in Eh. cbn in *. lia.
  - apply Nat.ltb_ge in E. exact E.
Qed.

Lemma pickWeekUnique_fresh (arr : list T) (w : World) :
  2 <= List.length arr ->
  (exists x, In x arr /\ ~ In x (lastTwo (cat_get c (weekSeedHistory w)))) ->
  exists x,
    pickWeekUnique rand eqb arr c w
    = Ok (x, mkWorld (S (draws w))
               (cat_set c (pushed (cat_get c (weekSeedHistory w)) x) (weekSeedHistory w))
               (lastIntro w) (lastComment w))
    /\ In x arr
    /\ ~ In x (lastTwo (cat_get c (weekSeedHistory w))).
Proof.
  intros Hlen (y & Hy & Hny). unfold pickWeekUnique.
  destruct arr as [|a [|b t]]; [cbn in Hlen; lia | cbn in Hlen; lia |].
  set (arr := a :: b :: t) in *.
  unfold bind at 1. unfold getW at 1.
  set (hist := cat_get c (weekSeedHistory w)) in *.
  destruct (filter (fun item => negb (existsb (eqb item) (lastTwo hist))) arr)
    as [|z f] eqn:E.
  - exfalso.
    assert (Hf : In y (filter (fun item => negb (existsb (eqb item) (lastTwo hist))) arr)).
    { apply filter_In. split; [exact Hy|].
      destruct (existsb (eqb y) (lastTwo hist)) eqn:Ex; [|reflexivity].
      apply existsb_eqb in Ex. contradiction. }
    rewrite E in Hf. destruct Hf.
  - set (x := nth (floorMul (frac (rand (draws w))) (List.length (z :: f))) (z :: f) z).
    assert (Hx : In x (z :: f)) by (apply nth_In, floorMul_frac_lt; cbn; lia).
    rewrite <- E in Hx. apply filter_In in Hx as [Hx1 Hx2].
    exists x. split; [|split; [exact Hx1|]].
    + unfold bind. rewrite pick_eq. reflexivity.
    + intros Hin. apply existsb_eqb in Hin. now rewrite Hin in Hx2.
Qed.

Lemma pickWeekUnique_stale (arr : list T) (w : World) :
  2 <= List.length arr ->
  (forall x, In x arr -> In x (lastTwo (cat_get c (weekSeedHistory w)))) ->
  exists x, pickWeekUnique rand eqb arr c w = Ok (x, tick w) /\ In x arr.
Proof.
  intros Hlen Hall. unfold pickWeekUnique.
  destruct arr as [|a [|b t]]; [cbn in Hlen; lia | cbn in Hlen; lia |].
  set (arr := a :: b :: t) in *.
  unfold bind at 1. unfold getW at 1.
  set (hist := cat_get c (weekSeedHistory w)) in *.
  destruct (filter (fun item => negb (existsb (eqb item) (lastTwo hist))) arr)
    as [|z f] eqn:E.
  - unfold arr. rewrite pick_eq. eexists. split; [reflexivity|].
    apply nth_In, floorMul_frac_lt. cbn. lia.
  - exfalso. assert (Hz : In z (z :: f)) by now left.
    rewrite <- E in Hz. apply filter_In in Hz as [Hz1 Hz2].
    apply Hall, existsb_eqb in Hz1. now rewrite Hz1 in Hz2.
Qed.

End WeekUnique.

(** X11.  Given two candidates or more, one of them not among the last
    two entries of the history of its category, [pickWeekUnique] returns
    a candidate that is not among these two, pushes it to the history of
    the category, which stays within ten entries, and makes one draw;
    the rest of the state is untouched. *)
Theorem pickWeekUnique_avoids_the_last_two
    (rand : nat -> Q) {T : Type} (eqb : T -> T -> bool) (c : Category T)
    (arr : list T) (w : World) :
  (forall x y, eqb x y = true <-> x = y) ->
  (forall l h, cat_get c (cat_set c l h) = l) ->
  2 <= List.length arr ->
  (exists x, In x arr /\ ~ In x (lastTwo (cat_get c (weekSeedHistory w)))) ->
  exists x w',
    pickWeekUnique rand eqb arr c w = Ok (x, w')
    /\ In x arr
    /\ ~ In x (lastTwo (cat_get c (weekSeedHistory w)))
    /\ cat_get c (weekSeedHistory w') = pushed (cat_get c (weekSeedHistory w)) x
    /\ (List.length (cat_get c (weekSeedHistory w)) <= 10 ->
        List.length (cat_get c (weekSeedHistory w')) <= 10)
    /\ draws w' = S (draws w) /\ lastIntro w' = lastIntro w /\ lastComment w' = lastComment w.
Proof.
  intros Heq Hlens Hlen Hex.
  destruct (pickWeekUnique_fresh rand eqb Heq c arr w Hlen Hex) as (x & E & Hin & Hnot).
  eexists. eexists. split; [exact E|].
  cbn [weekSeedHistory draws lastIntro lastComment]. rewrite Hlens.
  repeat split; try assumption. apply pushed_length.
Qed.

(** X12.  The edges of [pickWeekUnique]: an empty list of candidates
    throws; a single candidate is returned without a draw and without an
    entry in the history; and when every candidate is among the last two
    entries of the history, one of them is returned all the same, by one
    draw, and the history is left as it was. *)
Theorem pickWeekUnique_edge_cases
    (rand : nat -> Q) {T : Type} (eqb : T -> T -> bool) (c : Category T) (w : World) :
  (forall x y, eqb x y = true <-> x = y) ->
  pickWeekUnique rand eqb [] c w = Throw "Cannot pick from empty array"
  /\ (forall x, pickWeekUnique rand eqb [x] c w = Ok (x, w))
  /\ (forall arr, 2 <= List.length arr ->
        (forall x, In x arr -> In x (lastTwo (cat_get c (weekSeedHistory w)))) ->
        exists x, pickWeekUnique rand eqb arr c w = Ok (x, tick w) /\ In x arr).
Proof.
  intros Heq. split; [reflexivity|]. split; [reflexivity|].
  intros arr Hlen Hall. now apply pickWeekUnique_stale.
Qed.

(** ** The length of a post *)

Lemma pickWeightedLoop_In {T} (items : list (T * Q)) (x : Q) (last : T) :
  In (pickWeightedLoop items x last) (map fst items) \/ pickWeightedLoop items x last = last.
Proof.
  revert x. induction items as [|[t wt] rest IH]; intros x; cbn [pickWeightedLoop].
  - now right.
  - destruct (Qle_bool (x - wt) 0); [left; now left|].
    destruct (IH (x - wt)%Q) as [H|H]; [left; now right | now right].
Qed.

Lemma pickWeighted_keys {T} (rand : nat -> Q) (dflt : T) (weights : list (T * Q)) (w : World) :
  weights <> [] ->
  exists t, pickWeighted rand dflt weights w = Ok (t, tick w) /\ In t (map fst weights).
Proof.
  intros Hne. unfold pickWeighted, bind, random, ret. eexists. split; [reflexivity|].
  match goal with |- In (pickWeightedLoop ?i ?x ?l) _ =>
    destruct (pickWeightedLoop_In i x l) as [H|H]; [exact H | rewrite H] end.
  destruct weights as [|p ws]; [contradiction|].
  destruct (@exists_last _ (map fst (p :: ws)) ltac:(discriminate)) as (l' & a & E).
  rewrite E, last_last. apply in_or_app. right. now left.
Qed.

(** X14.  [pickLengthMode] makes one draw and records the mode it returns
    as [lastLengthMode].  The mode is never [short] for a complex topic,
    and never [short] when the mode recorded before is [short]. *)
Theorem pickLengthMode_never_short_twice (rand : nat -> Q) (topic : string) (w : World) :
  exists mode w',
    pickLengthMode rand topic w = Ok (mode, w')
    /\ lastLengthMode (weekSeedHistory w') = Some mode
    /\ (isTopicComplex topic = true -> mode <> short)
    /\ (lastLengthMode (weekSeedHistory w) = Some short -> mode <> short)
    /\ draws w' = S (draws w)
    /\ lastIntro w' = lastIntro w /\ lastComment w' = lastComment w.
Proof.
  unfold pickLengthMode. unfold bind at 1. unfold getW at 1.
  destruct (isTopicComplex topic) eqn:Ec.
  - destruct (pickWeighted_keys rand long [(medium, pct 55); (long, pct 35)] w
                ltac:(discriminate)) as (m & E & Hin).
    rewrite (bind_of_Ok _ _ _ _ _ E). exists m. eexists. split; [reflexivity|].
    cbn. repeat split; try reflexivity.
    + intros _ ->. cbn in Hin. destruct Hin as [H|[H|[]]]; discriminate.
    + intros _ ->. cbn in Hin. destruct Hin as [H|[H|[]]]; discriminate.
  - destruct (lastLengthMode (weekSeedHistory w)) as [[| |]|] eqn:El.
    + destruct (pickWeighted_keys rand long [(medium, pct 60); (long, pct 40)] w
                  ltac:(discriminate)) as (m & E & Hin).
      rewrite (bind_of_Ok _ _ _ _ _ E). exists m. eexists. split; [reflexivity|].
      cbn. repeat split; try reflexivity; try discriminate.
      intros _ ->. cbn in Hin. destruct Hin as [H|[H|[]]]; discriminate.
    + destruct (pickWeighted_keys rand long
                  [(short, pct 10); (medium, pct 55); (long, pct 35)] w
                  ltac:(discriminate)) as (m & E & Hin).
      rewrite (bind_of_Ok _ _ _ _ _ E). exists m. eexists. split; [reflexivity|].
      cbn. repeat split; try reflexivity; discriminate.
    + destruct (pickWeighted_keys rand long
                  [(short, pct 10); (medium, pct 55); (long, pct 35)] w
                  ltac:(discriminate)) as (m & E & Hin).
      rewrite (bind_of_Ok _ _ _ _ _ E). exists m. eexists. split; [reflexivity|].
      cbn. repeat split; try reflexivity; discriminate.
    + destruct (pickWeighted_keys rand long
                  [(short, pct 10); (medium, pct 55); (long, pct 35)] w
                  ltac:(discriminate)) as (m & E & Hin).
      rewrite (bind_of_Ok _ _ _ _ _ E). exists m. eexists. split; [reflexivity|].
      cbn. repeat split; try reflexivity; discriminate.
Qed.

(** ** Stock comments *)

(** X15.  When the first draw of [generateHybridComment] is below 0.20,
    the comment is one of the seven stock comments, two draws are made,
    and nothing is recorded: the week history, [lastIntro] and
    [lastComment] stay as they were. *)
Theorem stock_comment_leaves_no_trace
    (rand : nat -> Q) (seeds : SeedLibrary) (persona : Persona) (topic : string)
    (company : CompanyInfo) (postLength : option LengthMode) (w : World) :
  Qltb (frac (rand (draws w))) (pct 20) = true ->
  exists c,
    generateHybridComment rand seeds persona topic company postLength w
    = Ok (c, mkWorld (S (S (draws w))) (weekSeedHistory w) (lastIntro w) (lastComment w))
    /\ In c noIntroComments.
Proof.
  intros H.
  assert (E : generateHybridComment rand seeds persona topic company postLength w
              = pick rand noIntroComments (tick w)).
  { unfold generateHybridComment, chance, bind at 1, bind at 1, random. now rewrite H. }
  rewrite E. unfold noIntroComments. rewrite pick_eq.
  eexists. split; [reflexivity|].
  apply nth_In. apply floorMul_frac_lt. cbn. lia.
Qed.

(** ** Posts carry no white space at their ends *)

Definition trimmed (s : string) : Prop := trim s = s.

(** a list of characters with no white space at either end *)
Definition tight (l : chars) : Prop := no_lead l /\ no_lead (rev l).

Lemma tight_trimL (l : chars) : tight l -> trimL l = l.
Proof.
  intros [H1 H2]. unfold trimL, trimEndL.
  rewrite (trimStartL_fix l H1), (trimStartL_fix (rev l) H2). apply rev_involutive.
Qed.

Lemma trimL_tight (l : chars) : tight (trimL l).
Proof.
  split.
  - apply trimEndL_no_lead, trimStartL_no_lead.
  - unfold trimL, trimEndL. rewrite rev_involutive. apply trimStartL_no_lead.
Qed.

Lemma trimmed_tight (s : string) : trimmed s <-> tight (s2l s).
Proof.
  unfold trimmed, trim. split.
  - intros E. rewrite <- E at 1. rewrite s2l_l2s. apply trimL_tight.
  - intros H. rewrite (tight_trimL _ H). apply l2s_s2l.
Qed.

Lemma tight_join (a b : chars) :
  tight a -> a <> [] -> tight b -> b <> [] -> tight (a ++ " "%char :: b).
Proof.
  intros [Ha _] Hna [_ Hb] Hnb. split.
  - destruct a; [contradiction | exact Ha].
  - rewrite rev_app_distr. cbn [rev]. rewrite <- app_assoc.
    destruct (rev b) eqn:E; [|exact Hb].
    apply (f_equal (@rev _)) in E. rewrite rev_involutive in E. contradiction.
Qed.

Lemma joinL_tight (ss : list string) :
  Forall (fun s => tight (s2l s) /\ s <> "") ss ->
  tight (s2l (joinL " " ss)) /\ (ss <> [] -> joinL " " ss <> "").
Proof.
  induction ss as [|x t IH]; intros H.
  - split; [split; exact I | intros E; contradiction].
  - apply Forall_cons_iff in H as [[Hx Hnx] Ht]. specialize (IH Ht).
    destruct t as [|y t'].
    + cbn [joinL]. split; [exact Hx | intros _; exact Hnx].
    + change (joinL " " (x :: y :: t')) with (x +++ " " +++ joinL " " (y :: t')).
      destruct IH as [IH1 IH2]. split.
      * rewrite s2l_app. change (s2l (" " +++ joinL " " (y :: t')))
          with (" "%char :: s2l (joinL " " (y :: t'))).
        apply tight_join; [exact Hx | | exact IH1 |].
        -- intros E. apply Hnx. rewrite <- (l2s_s2l x), E. reflexivity.
        -- intros E. apply IH2; [discriminate|]. rewrite <- (l2s_s2l (joinL _ _)), E. reflexivity.
      * intros _ E. destruct x; [contradiction | discriminate].
Qed.

Lemma dedupSentences_tight (parts : list string) (last : string) :
  Forall (fun s => tight (s2l s) /\ s <> "") (dedupSentences parts last).
Proof.
  revert last. induction parts as [|p t IH]; intros last; cbn [dedupSentences]; [constructor|].
  cbv zeta. destruct (negb (trim p =? "")%string) eqn:E1; cbn [andb]; [|apply IH].
  destruct (negb (toLowerCase (trim p) =? toLowerCase last)%string); [|apply IH].
  constructor; [|apply IH]. split.
  - apply trimmed_tight. apply trim_idem.
  - apply negb_true_iff, String.eqb_neq in E1. exact E1.
Qed.

Lemma removeDuplicateSentences_trimmed (text : string) :
  trimmed text -> trimmed (removeDuplicateSentences text).
Proof.
  intros Ht. unfold removeDuplicateSentences.
  destruct ((text =? "")%string || (String.length (trim text) =? 0)); [exact Ht|].
  apply trimmed_tight. apply joinL_tight. apply dedupSentences_tight.
Qed.

Lemma Ok_pair_eq {A} (a c : A) (w w' : World) : Ok (a, w) = Ok (c, w') -> a = c /\ w = w'.
Proof. intros H. injection H as -> ->. split; reflexivity. Qed.

Lemma ret_Ok {A} (a r : A) (w w' : World) : ret a w = Ok (r, w') -> r = a.
Proof. intros H. apply Ok_pair_eq in H as [-> _]. reflexivity. Qed.

Lemma smoothText_trimmed (rand : nat -> Q) (str : string) (w w' : World) (r : string) :
  smoothText rand str w = Ok (r, w') -> trimmed r.
Proof.
  unfold smoothText. destruct (str =? "")%string.
  - intros H. apply ret_Ok in H. subst r. reflexivity.
  - cbv zeta. intros H.
    inv_bind H as s1 w1 H1. inv_bind H as s2 w2 H2.
    apply ret_Ok in H. subst r. apply trim_idem.
Qed.

Lemma cleanupPipeline_trimmed (rand : nat -> Q) (topicSimple result : string)
    (w w' : World) (r : string) :
  cleanupPipeline rand topicSimple result w = Ok (r, w') -> trimmed r.
Proof.
  unfold cleanupPipeline. cbv zeta. intros H.
  inv_bind H as s1 w1 H1. inv_bind H as s2 w2 H2. inv_bind H as s3 w3 H3.
  eapply smoothText_trimmed. exact H.
Qed.

Tactic Notation "inv_binds" integer(n) "in" hyp(H) :=
  do n (apply bind_Ok in H; destruct H as (? & ? & _ & H)).

(** X16.  The text that [generateHybridPost] returns has no white space
    at its start or at its end, on each of its return paths. *)
Theorem post_text_is_trimmed
    (rand : nat -> Q) (seeds : SeedLibrary) (fuel : nat) (persona : Persona)
    (topic : string) (company : CompanyInfo) (w w' : World) (text : string) :
  generateHybridPost rand seeds fuel persona topic company w = Ok (text, w') ->
  trim text = text.
Proof.
  unfold generateHybridPost. cbv zeta. intros H.
  apply bind_Ok in H; destruct H as (? & ? & _ & H).
  apply bind_Ok in H; destruct H as (? & ? & _ & H).
  apply bind_Ok in H; destruct H as (mode & ? & _ & H).
  inv_binds 10 in H.
  destruct mode.
  - inv_binds 6 in H.
    apply bind_Ok in H; destruct H as (r & ? & Hr & H).
    apply ret_Ok in H. subst text.
    apply removeDuplicateSentences_trimmed. eapply cleanupPipeline_trimmed. exact Hr.
  - inv_binds 8 in H. eapply cleanupPipeline_trimmed. exact H.
  - inv_binds 8 in H. eapply cleanupPipeline_trimmed. exact H.
Qed.

(** ** No adjacent repeated sentence *)




(** ** The request validator ([app/api/generateCalendar/route.ts])

    The body of a request is a parsed JSON value; a number is a finite
    one, given as a rational.  An object is the list of its own
    properties.  Reading a property that an object does not have gives
    [undefined]; the validators read properties of objects and arrays
    only, and none of the names they read is a property of an array or
    of the object prototype. *)

#[warnings="-register-all"] Inductive JValue : Type :=
| JUndefined : JValue
| JNull : JValue
| JBool : bool -> JValue
| JNum : Q -> JValue
| JStr : string -> JValue
| JArr : list JValue -> JValue
| JObj : list (string * JValue) -> JValue.   (* the first binding of a name counts *)

(** [!!v] *)
Definition truthy (v : JValue) : bool :=
  match v with
  | JUndefined | JNull => false
  | JBool b => b
  | JNum q => negb (Qeq_bool q 0)
  | JStr s => negb (s =? "")%string
  | JArr _ | JObj _ => true
  end.

(** [typeof v === 'object'] *)
Definition isObject (v : JValue) : bool :=
  match v with
  | JNull | JArr _ | JObj _ => true
  | _ => false
  end.

Fixpoint lookup (key : string) (props : list (string * JValue)) : JValue :=
  match props with
  | [] => JUndefined
  | (k, v) :: t => if (k =? key)%string then v else lookup key t
  end.

(** [v.key] *)
Definition getProp (v : JValue) (key : string) : JValue :=
  match v with
  | JObj props => lookup key props
  | _ => JUndefined
  end.

(** [typeof v === 'string' && v.trim () !== ''] *)
Definition isFilledString (v : JValue) : bool :=
  match v with
  | JStr s => negb (trim s =? "")%string
  | _ => false
  end.

Definition validateCompanyInfo (company : JValue) : bool :=
  truthy company && isObject company
  && isFilledString (getProp company "name")
  && isFilledString (getProp company "valueProp")
  && isFilledString (getProp company "idealCustomer")
  && isFilledString (getProp company "tone").

(** [Array.isArray (v) && v.every (...)] *)
Definition isArrayOfFilledStrings (v : JValue) : bool :=
  match v with
  | JArr items => forallb isFilledString items
  | _ => false
  end.

Definition validatePersona (persona : JValue) : bool :=
  truthy persona && isObject persona
  && isFilledString (getProp persona "name")
  && isFilledString (getProp persona "background")
  && isFilledString (getProp persona "voice")
  && isArrayOfFilledStrings (getProp persona "painPoints").

(** [{ valid: true }] or [{ valid: false, error }] *)
Inductive Validation : Type :=
| Valid : Validation
| Invalid : string -> Validation.

(** the loop over the personas: the index of the first one that fails *)
Fixpoint firstInvalidPersona (i : nat) (personas : list JValue) : option nat :=
  match personas with
  | [] => None
  | p :: t => if validatePersona p then firstInvalidPersona (S i) t else Some i
  end.

(** [Number.isInteger] of a finite number *)
Definition isInteger (q : Q) : bool := (Qnum q mod Zpos (Qden q) =? 0)%Z.

Definition validateGenerationInput (input : JValue) : Validation :=
  if negb (truthy input) || negb (isObject input) then Invalid "Invalid request body"
  else if negb (validateCompanyInfo (getProp input "company")) then
    Invalid "Missing or invalid company fields. Required: name, valueProp, idealCustomer, tone"
  else
    match getProp input "personas" with
    | JArr (p :: ps) =>
        match firstInvalidPersona 0 (p :: ps) with
        | Some i =>
            Invalid ("Invalid persona at index " +++ natToString i
                     +++ ". Required: name, background, voice, painPoints (array of strings)")
        | None =>
            match getProp input "subreddits" with
            | JArr (s :: ss) =>
                if negb (forallb isFilledString (s :: ss)) then
                  Invalid "Missing or invalid subreddits. Must be a non-empty array of strings"
                else
                  match getProp input "themes" with
                  | JArr (t :: ts) =>
                      if negb (forallb isFilledString (t :: ts)) then
                        Invalid "Missing or invalid themes. Must be a non-empty array of strings"
                      else
                        match getProp input "postsPerWeek" with
                        | JNum q =>
                            if Qle_bool q 0 || negb (isInteger q) then
                              Invalid "Missing or invalid postsPerWeek. Must be a positive integer"
                            else if List.length (p :: ps) <? 2 then
                              Invalid "At least 2 personas are required for calendar generation"
                            else Valid
                        | _ =>
                            Invalid "Missing or invalid postsPerWeek. Must be a positive integer"
                        end
                  | _ => Invalid "Missing or invalid themes. Must be a non-empty array of strings"
                  end
            | _ => Invalid "Missing or invalid subreddits. Must be a non-empty array of strings"
            end
        end
    | _ => Invalid "Missing or invalid personas. Must be a non-empty array"
    end.

(** The input as the generator reads it from a validated body. *)
Definition asString (v : JValue) : string :=
  match v with JStr s => s | _ => "" end.

Definition asList (v : JValue) : list JValue :=
  match v with JArr items => items | _ => [] end.

Definition asCompany (v : JValue) : CompanyInfo :=
  mkCompany (asString (getProp v "name")) (asString (getProp v "valueProp"))
    (asString (getProp v "idealCustomer")) (asString (getProp v "tone")).

Definition asPersona (v : JValue) : Persona :=
  mkPersona (asString (getProp v "name")) (asString (getProp v "background"))
    (asString (getProp v "voice")) (map asString (asList (getProp v "painPoints"))).

Definition asInput (body : JValue) : GenerationInput :=
  mkInput (asCompany (getProp body "company"))
    (map asPersona (asList (getProp body "personas")))
    (map asString (asList (getProp body "subreddits")))
    (map asString (asList (getProp body "themes")))
    (match getProp body "postsPerWeek" with JNum q => Qfloor q | _ => 0%Z end).
Lemma generateWeeklyCalendar_NoThrow (rand : nat -> Q) (seeds : SeedLibrary) (today : Z)
    (fuel : nat) (input : GenerationInput) (ov : option string) :
  seedsNonEmpty seeds ->
  2 <= List.length (personas input) -> subreddits input <> [] -> themes input <> [] ->
  NoThrow (generateWeeklyCalendar rand seeds today fuel input ov).
Proof.
  intros Hseeds Hp Hs Ht w msg. unfold generateWeeklyCalendar.
  rewrite (bind_of_Ok _ _ _ _ _ (resetWeekHistory_eq w)).
  replace (List.length (personas input) <? 2) with false by (symmetry; apply Nat.ltb_ge; lia).
  replace (List.length (subreddits input) =? 0) with false
    by (symmetry; apply Nat.eqb_neq; destruct (subreddits input); [contradiction | discriminate]).
  replace (List.length (themes input) =? 0) with false
    by (symmetry; apply Nat.eqb_neq; destruct (themes input); [contradiction | discriminate]).
  cbv zeta.
  destruct (shuffle_Ok rand (expandThemesToTopics (themes input))
              (mkWorld (draws w) emptyHistory (lastIntro w) (lastComment w)))
    as (sT & w1 & E1 & _).
  rewrite (bind_of_Ok _ _ _ _ _ E1).
  destruct (shuffle_Ok rand (personas input) w1) as (sP & w2 & E2 & P2 & _).
  rewrite (bind_of_Ok _ _ _ _ _ E2).
  destruct (shuffle_Ok rand (subreddits input) w2) as (sS & w3 & E3 & _).
  rewrite (bind_of_Ok _ _ _ _ _ E3).
  apply NoThrow_bind; [|intros; apply NoThrow_ret].
  apply NoThrow_weekLoop; [exact Hseeds|]. cbn [shuffledPersonas].
  intros E. apply Permutation_length in P2. rewrite E in P2. cbn in P2. lia.
Qed.

Lemma isFilledString_spec (v : JValue) :
  isFilledString v = true -> exists s, v = JStr s /\ trim s <> "".
Proof.
  destruct v; try discriminate. cbn [isFilledString]. intros H.
  apply negb_true_iff, String.eqb_neq in H. eauto.
Qed.

Lemma forallb_filled (items : list JValue) :
  forallb isFilledString items = true ->
  Forall (fun s => trim s <> "") (map asString items).
Proof.
  induction items as [|v t IH]; cbn [forallb map]; intros H; [constructor|].
  apply andb_prop in H as [Hv Ht]. constructor; [|now apply IH].
  apply isFilledString_spec in Hv as (s & -> & Hs). exact Hs.
Qed.

Lemma firstInvalidPersona_None (i : nat) (ps : list JValue) :
  firstInvalidPersona i ps = None <-> forallb validatePersona ps = true.
Proof.
  revert i. induction ps as [|p t IH]; intros i; cbn [firstInvalidPersona forallb];
    [tauto|].
  destruct (validatePersona p); cbn [andb]; [apply IH | split; discriminate].
Qed.

Lemma firstInvalidPersona_Some (i k : nat) (ps : list JValue) :
  firstInvalidPersona i ps = Some k ->
  i <= k
  /\ (exists p, nth_error ps (k - i) = Some p /\ validatePersona p = false)
  /\ (forall j p, j < k - i -> nth_error ps j = Some p -> validatePersona p = true).
Proof.
  revert i. induction ps as [|p t IH]; intros i; cbn [firstInvalidPersona]; [discriminate|].
  destruct (validatePersona p) eqn:E.
  - intros H. destruct (IH _ H) as (Hle & (q & Hq & Hv) & Hbefore).
    split; [lia|]. split.
    + exists q. split; [|exact Hv].
      replace (k - i) with (S (k - S i)) by lia. exact Hq.
    + intros j r Hj Hr. destruct j as [|j]; [cbn in Hr; congruence|].
      apply (Hbefore j r); [lia | exact Hr].
  - intros H. assert (k = i) by congruence. subst k.
    split; [lia|]. rewrite Nat.sub_diag. split.
    + exists p. now split.
    + intros j r Hj. lia.
Qed.

Lemma isInteger_floor (q : Q) : isInteger q = true -> (inject_Z (Qfloor q) == q)%Q.
Proof.
  unfold isInteger. destruct q as [n d]. cbn [Qnum Qden Qfloor]. intros H.
  apply Z.eqb_eq in H. unfold Qeq, inject_Z. cbn [Qnum Qden].
  pose proof (Z.div_mod n (Zpos d) ltac:(lia)). lia.
Qed.

Lemma validatePersona_fields (p : JValue) :
  validatePersona p = true ->
  trim (name (asPersona p)) <> "" /\ trim (voice (asPersona p)) <> "".
Proof.
  unfold validatePersona. intros H.
  repeat (apply andb_prop in H as [H ?]).
  repeat match goal with
         | Hf : isFilledString _ = true |- _ =>
             apply isFilledString_spec in Hf as (? & ? & ?)
         end.
  unfold asPersona. cbn [name voice].
  repeat match goal with Hg : getProp p _ = JStr _ |- _ => rewrite Hg; clear Hg end.
  cbn [asString]. split; assumption.
Qed.

Lemma validateCompanyInfo_valueProp (c : JValue) :
  validateCompanyInfo c = true -> trim (valueProp (asCompany c)) <> "".
Proof.
  unfold validateCompanyInfo. intros H.
  repeat (apply andb_prop in H as [H ?]).
  repeat match goal with
         | Hf : isFilledString _ = true |- _ =>
             apply isFilledString_spec in Hf as (? & ? & ?)
         end.
  unfold asCompany. cbn [valueProp].
  repeat match goal with Hg : getProp c _ = JStr _ |- _ => rewrite Hg; clear Hg end.
  cbn [asString]. assumption.
Qed.

(** What is left of [validateGenerationInput] once the body is known to
    be accepted. *)
Lemma validateGenerationInput_Valid (body : JValue) :
  validateGenerationInput body = Valid ->
  (truthy body && isObject body = true)
  /\ validateCompanyInfo (getProp body "company") = true
  /\ (exists p1 p2 ps, getProp body "personas" = JArr (p1 :: p2 :: ps)
                       /\ forallb validatePersona (p1 :: p2 :: ps) = true)
  /\ (exists s ss, getProp body "subreddits" = JArr (s :: ss)
                   /\ forallb isFilledString (s :: ss) = true)
  /\ (exists t ts, getProp body "themes" = JArr (t :: ts)
                   /\ forallb isFilledString (t :: ts) = true)
  /\ (exists q, getProp body "postsPerWeek" = JNum q
                /\ Qle_bool q 0 = false /\ isInteger q = true).
Proof.
  unfold validateGenerationInput. intros H.
  destruct (truthy body); [|discriminate]. destruct (isObject body); [|discriminate].
  cbn [negb orb] in H. split; [reflexivity|].
  destruct (validateCompanyInfo (getProp body "company")); [|discriminate].
  cbn [negb] in H. split; [reflexivity|].
  destruct (getProp body "personas") as [| | | | |[|p ps]|]; try discriminate.
  destruct (firstInvalidPersona 0 (p :: ps)) eqn:Ef; [discriminate|].
  apply firstInvalidPersona_None in Ef.
  destruct (getProp body "subreddits") as [| | | | |[|s ss]|]; try discriminate.
  destruct (forallb isFilledString (s :: ss)) eqn:Es; [|discriminate]. cbn [negb] in H.
  destruct (getProp body "themes") as [| | | | |[|t ts]|]; try discriminate.
  destruct (forallb isFilledString (t :: ts)) eqn:Et; [|discriminate]. cbn [negb] in H.
  destruct (getProp body "postsPerWeek") as [| | |q| | |]; try discriminate.
  destruct (Qle_bool q 0) eqn:Eq; [discriminate|].
  destruct (isInteger q) eqn:Ei; [|discriminate]. cbn [negb orb] in H.
  destruct ps as [|p2 ps]; [discriminate|].
  split; [now exists p, p2, ps|]. split; [now exists s, ss|]. split; [now exists t, ts|].
  now exists q.
Qed.

(** X18.  A request body that [validateGenerationInput] accepts gives the
    generator what it requires: at least two personas, a subreddit and a
    theme, a [postsPerWeek] that is a positive integer, and no blank
    string among the names and the voices of the personas, the
    subreddits, the themes and the value proposition.  So the generator
    raises none of its own errors on it, whatever the override and the
    draws, as long as no seed library is empty. *)
Theorem accepted_request_is_fit_for_the_generator (body : JValue) :
  validateGenerationInput body = Valid ->
  let input := asInput body in
  2 <= List.length (personas input)
  /\ subreddits input <> [] /\ themes input <> []
  /\ (0 < postsPerWeek input)%Z
  /\ (exists q, getProp body "postsPerWeek" = JNum q
                /\ (inject_Z (postsPerWeek input) == q)%Q)
  /\ Forall (fun p => trim (name p) <> "" /\ trim (voice p) <> "") (personas input)
  /\ Forall (fun s => trim s <> "") (subreddits input)
  /\ Forall (fun t => trim t <> "") (themes input)
  /\ trim (valueProp (company input)) <> ""
  /\ forall rand seeds today fuel ov w msg,
       seedsNonEmpty seeds ->
       generateWeeklyCalendar rand seeds today fuel input ov w <> Throw msg.
Proof.
  intros H input.
  destruct (validateGenerationInput_Valid body H)
    as (_ & Hc & (p1 & p2 & ps & Ep & Hps) & (s & ss & Es & Hss) & (t & ts & Et & Hts)
        & (q & Eq & Hq0 & Hqi)).
  assert (Hpers : personas input = map asPersona (p1 :: p2 :: ps))
    by (unfold input, asInput; cbn [personas]; now rewrite Ep).
  assert (Hsubs : subreddits input = map asString (s :: ss))
    by (unfold input, asInput; cbn [subreddits]; now rewrite Es).
  assert (Hthemes : themes input = map asString (t :: ts))
    by (unfold input, asInput; cbn [themes]; now rewrite Et).
  assert (Hppw : postsPerWeek input = Qfloor q)
    by (unfold input, asInput; cbn [postsPerWeek]; now rewrite Eq).
  assert (Hfloor : (inject_Z (Qfloor q) == q)%Q) by (now apply isInteger_floor).
  assert (Hpos : (0 < Qfloor q)%Z).
  { destruct (Z_lt_le_dec 0 (Qfloor q)) as [Hl|Hl]; [exact Hl|].
    exfalso. assert (Hle : (q <= 0)%Q).
    { rewrite <- Hfloor. change 0%Q with (inject_Z 0). now rewrite <- Zle_Qle. }
    apply Qle_bool_iff in Hle. congruence. }
  assert (H2 : 2 <= List.length (personas input)) by (rewrite Hpers; cbn; lia).
  assert (Hs : subreddits input <> []) by (rewrite Hsubs; discriminate).
  assert (Ht : themes input <> []) by (rewrite Hthemes; discriminate).
  split; [exact H2|]. split; [exact Hs|]. split; [exact Ht|].
  split; [now rewrite Hppw|].
  split; [exists q; split; [exact Eq | now rewrite Hppw]|].
  split.
  { rewrite Hpers. apply Forall_forall. intros p Hin. apply in_map_iff in Hin as (v & <- & Hv).
    apply validatePersona_fields. rewrite forallb_forall in Hps. now apply Hps. }
  split; [rewrite Hsubs; now apply forallb_filled|].
  split; [rewrite Hthemes; now apply forallb_filled|].
  split; [unfold input, asInput; cbn [company]; now apply validateCompanyInfo_valueProp|].
  intros rand seeds today fuel ov w msg Hseeds.
  now apply generateWeeklyCalendar_NoThrow.
Qed.

(** *** The order of the checks *)

Definition isFilledStringArray (v : JValue) : bool :=
  match v with
  | JArr (x :: t) => forallb isFilledString (x :: t)
  | _ => false
  end.

Definition isPositiveInteger (v : JValue) : bool :=
  match v with
  | JNum q => negb (Qle_bool q 0) && isInteger q
  | _ => false
  end.

Definition personaError (i : nat) : string :=
  "Invalid persona at index " +++ natToString i
  +++ ". Required: name, background, voice, painPoints (array of strings)".

(** X19.  The error of a rejected body is that of the first check that
    fails, in the order body, company, personas array, each persona,
    subreddits, themes, [postsPerWeek], number of personas: every check
    before it has passed.  The index in the message about a persona is
    that of the first invalid persona, and the message about the number
    of personas arises only for a body with exactly one persona and
    nothing else wrong. *)
Theorem rejections_follow_the_order_of_the_checks (body : JValue) (msg : string) :
  validateGenerationInput body = Invalid msg ->
  let given := asList (getProp body "personas") in
  (msg = "Invalid request body" /\ truthy body && isObject body = false)
  \/ truthy body && isObject body = true
     /\ ((msg = "Missing or invalid company fields. Required: name, valueProp, idealCustomer, tone"
          /\ validateCompanyInfo (getProp body "company") = false)
         \/ validateCompanyInfo (getProp body "company") = true
            /\ ((msg = "Missing or invalid personas. Must be a non-empty array"
                 /\ given = [])
                \/ (exists i p, msg = personaError i
                      /\ nth_error given i = Some p /\ validatePersona p = false
                      /\ forall j r, j < i -> nth_error given j = Some r ->
                                     validatePersona r = true)
                \/ given <> [] /\ forallb validatePersona given = true
                   /\ ((msg = "Missing or invalid subreddits. Must be a non-empty array of strings"
                        /\ isFilledStringArray (getProp body "subreddits") = false)
                       \/ isFilledStringArray (getProp body "subreddits") = true
                          /\ ((msg = "Missing or invalid themes. Must be a non-empty array of strings"
                               /\ isFilledStringArray (getProp body "themes") = false)
                              \/ isFilledStringArray (getProp body "themes") = true
                                 /\ ((msg = "Missing or invalid postsPerWeek. Must be a positive integer"
                                      /\ isPositiveInteger (getProp body "postsPerWeek") = false)
                                     \/ isPositiveInteger (getProp body "postsPerWeek") = true
                                        /\ msg = "At least 2 personas are required for calendar generation"
                                        /\ List.length given = 1))))).
Proof.
  intros H given. unfold validateGenerationInput in H.
  destruct (truthy body && isObject body) eqn:Eb.
  2:{ left. apply andb_false_iff in Eb as [Eb|Eb]; rewrite Eb in H; cbn [negb orb] in H;
        [|rewrite orb_true_r in H]; split; congruence. }
  right. split; [reflexivity|].
  apply andb_prop in Eb as [Eb1 Eb2]. rewrite Eb1, Eb2 in H. cbn [negb orb] in H.
  destruct (validateCompanyInfo (getProp body "company")) eqn:Ec; cbn [negb] in H.
  2:{ left. split; congruence. }
  right. split; [reflexivity|]. unfold given.
  destruct (getProp body "personas") as [| | | | |[|p ps]|] eqn:Ep; cbn [asList];
    try (left; split; congruence).
  right.
  destruct (firstInvalidPersona 0 (p :: ps)) as [i|] eqn:Ef.
  { left. apply firstInvalidPersona_Some in Ef as (_ & (q & Hq & Hv) & Hbefore).
    rewrite Nat.sub_0_r in Hq, Hbefore.
    exists i, q. split; [unfold personaError; congruence|]. split; [exact Hq|].
    split; [exact Hv | exact Hbefore]. }
  right. apply firstInvalidPersona_None in Ef. split; [discriminate|]. split; [exact Ef|].
  unfold isFilledStringArray, isPositiveInteger.
  destruct (getProp body "subreddits") as [| | | | |[|s ss]|]; try (left; split; congruence).
  destruct (forallb isFilledString (s :: ss)); cbn [negb] in H; [|left; split; congruence].
  right. split; [reflexivity|].
  destruct (getProp body "themes") as [| | | | |[|t ts]|]; try (left; split; congruence).
  destruct (forallb isFilledString (t :: ts)); cbn [negb] in H; [|left; split; congruence].
  right. split; [reflexivity|].
  destruct (getProp body "postsPerWeek") as [| | |q| | |]; try (left; split; congruence).
  destruct (Qle_bool q 0); cbn [negb orb andb] in H |- *; [left; split; congruence|].
  destruct (isInteger q); cbn [negb] in H |- *; [|left; split; congruence].
  right. split; [reflexivity|].
  destruct ps as [|p2 ps]; cbn [List.length Nat.ltb Nat.leb] in H;
    [split; [congruence | reflexivity] | discriminate].
Qed.

(** X20.  The verdict of [validateGenerationInput] depends on the five
    properties [company], [personas], [subreddits], [themes] and
    [postsPerWeek] alone: two bodies that agree on them get the same
    verdict, so that [weekStart] and any other property are not
    validated. *)
Theorem validation_reads_five_properties_only (a b : JValue) :
  truthy a = truthy b -> isObject a = isObject b ->
  (forall key, In key ["company"; "personas"; "subreddits"; "themes"; "postsPerWeek"] ->
     getProp a key = getProp b key) ->
  validateGenerationInput a = validateGenerationInput b.
Proof.
  intros Ht Ho Hk. unfold validateGenerationInput.
  rewrite Ht, Ho.
  rewrite (Hk "company"), (Hk "personas"), (Hk "subreddits"), (Hk "themes"),
    (Hk "postsPerWeek") by (cbn; tauto).
  reflexivity.
Qed.
(** ** Shuffling, again *)

Lemma withKeys_keys {T} (rand : nat -> Q) (arr : list T) (w : World) :
  withKeys rand arr w
  = Ok (combine arr (map (fun i => frac (rand (draws w + i))) (seq 0 (List.length arr))),
        mkWorld (draws w + List.length arr) (weekSeedHistory w) (lastIntro w) (lastComment w)).
Proof.
  revert w. induction arr as [|x t IH]; intros w; cbn [withKeys].
  - unfold ret. cbn [List.length seq map combine]. rewrite Nat.add_0_r. now destruct w.
  - unfold bind at 1. unfold random. rewrite (bind_of_Ok _ _ _ _ _ (IH (tick w))).
    unfold ret. cbn [tick draws weekSeedHistory lastIntro lastComment List.length seq map combine].
    rewrite Nat.add_0_r. rewrite <- seq_shift, map_map.
    f_equal. f_equal.
    + f_equal. f_equal. apply map_ext. intros i. f_equal. f_equal. lia.
    + f_equal. lia.
Qed.

(** the keys do not decrease along the list *)
Fixpoint keysAscend {T} (l : list (T * Q)) : Prop :=
  match l with
  | [] => True
  | p :: t => match t with
              | [] => True
              | q :: _ => (snd p <= snd q)%Q
              end /\ keysAscend t
  end.

Lemma sortByKey_ascending {T} (l : list (T * Q)) : keysAscend l -> sortByKey l = l.
Proof.
  induction l as [|p t IH]; [reflexivity|].
  intros [Hp Ht]. cbn [sortByKey fold_right]. fold (sortByKey t). rewrite (IH Ht).
  destruct t as [|q t']; [reflexivity|].
  cbn [insertByKey]. unfold Qltb.
  replace (Qle_bool (snd p) (snd q)) with true by (symmetry; apply Qle_bool_iff; exact Hp).
  reflexivity.
Qed.

Lemma combine_ascend {T} (arr : list T) (keys : list Q) :
  List.length keys = List.length arr ->
  (forall i, S i < List.length keys -> (nth i keys 0 <= nth (S i) keys 0)%Q) ->
  keysAscend (combine arr keys).
Proof.
  revert keys. induction arr as [|x t IH]; intros keys Hl Hk; [exact I|].
  destruct keys as [|k ks]; [discriminate|]. cbn [combine keysAscend].
  split.
  - destruct t as [|y t']; [exact I|]. destruct ks as [|k2 ks']; [discriminate|].
    cbn [combine snd]. apply (Hk 0). cbn. lia.
  - apply IH; [cbn in Hl; lia|]. intros i Hi. apply (Hk (S i)). cbn. lia.
Qed.

Lemma fst_combine {A B} (l : list A) (keys : list B) :
  List.length keys = List.length l -> map fst (combine l keys) = l.
Proof.
  revert keys. induction l as [|x t IH]; intros [|k ks] Hl; try discriminate; [reflexivity|].
  cbn [combine map fst]. f_equal. apply IH. cbn in Hl. lia.
Qed.

(** X21.  [shuffle] always returns: a rearrangement of the array it was
    given, after one draw per element, with the rest of the state
    untouched.  When the draws do not decrease, the array comes back in
    its own order. *)
Theorem shuffle_rearranges {T} (rand : nat -> Q) (arr : list T) (w : World) :
  exists l,
    shuffle rand arr w
    = Ok (l, mkWorld (draws w + List.length arr) (weekSeedHistory w) (lastIntro w)
               (lastComment w))
    /\ Permutation arr l
    /\ ((forall i, S i < List.length arr ->
           (frac (rand (draws w + i)%nat) <= frac (rand (draws w + S i)%nat))%Q) ->
        l = arr).
Proof.
  set (keys := map (fun i => frac (rand (draws w + i))) (seq 0 (List.length arr))).
  assert (Hlen : List.length keys = List.length arr)
    by (unfold keys; now rewrite length_map, length_seq).
  exists (map fst (sortByKey (combine arr keys))).
  split; [|split].
  - unfold shuffle. rewrite (bind_of_Ok _ _ _ _ _ (withKeys_keys rand arr w)). reflexivity.
  - rewrite <- sortByKey_perm.
    now rewrite (fst_combine arr keys Hlen).
  - intros Hasc. rewrite sortByKey_ascending.
    + exact (fst_combine arr keys Hlen).
    + apply combine_ascend; [exact Hlen|].
      intros i Hi. rewrite Hlen in Hi. unfold keys.
      rewrite !(nth_indep _ 0%Q (frac (rand (draws w + 0))))
        by (rewrite length_map, length_seq; lia).
      rewrite !(map_nth (fun i => frac (rand (draws w + i)))).
      rewrite !seq_nth by lia. cbn [Nat.add]. apply Hasc. exact Hi.
Qed.

(** ** [pickUnique] ([textTools])

    [item !== lastValue] is the test [eqb]; [null] is [None]. *)
Definition pickUnique {T} (rand : nat -> Q) (eqb : T -> T -> bool) (arr : list T)
    (lastValue : option T) : M T :=
  if List.length arr =? 0 then throw "Cannot pick from empty array"
  else match arr with
       | [x] => ret x
       | _ =>
           let filtered := match lastValue with
                           | Some l => filter (fun item => negb (eqb item l)) arr
                           | None => arr
                           end in
           if List.length filtered =? 0 then pick rand arr else pick rand filtered
       end.

Lemma pick_In {T} (rand : nat -> Q) (arr : list T) (w : World) :
  arr <> [] -> exists x, pick rand arr w = Ok (x, tick w) /\ In x arr.
Proof.
  destruct arr as [|d t]; [contradiction|]. intros _. rewrite pick_eq.
  eexists. split; [reflexivity|]. apply nth_In, floorMul_frac_lt. cbn. lia.
Qed.

(** X22.  [pickUnique] throws on an empty array and returns the only
    element of a one-element array without a draw, even when it is the
    last value.  From two elements on it makes one draw and returns an
    element of the array, which differs from the last value whenever
    some element of the array does. *)
Theorem pickUnique_avoids_the_last_value
    {T} (rand : nat -> Q) (eqb : T -> T -> bool) (lastValue : option T) (w : World) :
  (forall x y, eqb x y = true <-> x = y) ->
  pickUnique rand eqb [] lastValue w = Throw "Cannot pick from empty array"
  /\ (forall x, pickUnique rand eqb [x] lastValue w = Ok (x, w))
  /\ (forall arr, 2 <= List.length arr ->
        exists x,
          pickUnique rand eqb arr lastValue w = Ok (x, tick w)
          /\ In x arr
          /\ (forall l, lastValue = Some l -> (exists y, In y arr /\ y <> l) -> x <> l)).
Proof.
  intros Heq. split; [reflexivity|]. split; [reflexivity|].
  intros arr Hlen. destruct arr as [|a [|b t]]; cbn [List.length] in Hlen; try lia.
  unfold pickUnique. cbn [List.length Nat.eqb]. cbv zeta.
  set (arr := a :: b :: t).
  destruct lastValue as [l|].
  - destruct (filter (fun item => negb (eqb item l)) arr) as [|f fs] eqn:E.
    + cbn [List.length Nat.eqb].
      destruct (pick_In rand arr w ltac:(discriminate)) as (x & Ex & Hin).
      exists x. split; [exact Ex|]. split; [exact Hin|].
      intros l' [= <-] (y & Hy & Hne). exfalso.
      assert (Hf : In y (filter (fun item => negb (eqb item l)) arr)).
      { apply filter_In. split; [exact Hy|]. apply negb_true_iff.
        destruct (eqb y l) eqn:Ey; [|reflexivity]. apply Heq in Ey. contradiction. }
      rewrite E in Hf. destruct Hf.
    + cbn [List.length Nat.eqb].
      destruct (pick_In rand (f :: fs) w ltac:(discriminate)) as (x & Ex & Hin).
      exists x. split; [exact Ex|].
      rewrite <- E in Hin. apply filter_In in Hin as [Hin Hx].
      split; [exact Hin|]. intros l' [= <-] _ ->.
      apply negb_true_iff in Hx.
      assert (Hl : eqb l l = true) by now apply Heq. congruence.
  - cbn [List.length Nat.eqb].
    destruct (pick_In rand arr w ltac:(discriminate)) as (x & Ex & Hin).
    exists x. split; [exact Ex|]. split; [exact Hin|]. discriminate.
Qed.

(* ================================================================== *)
(** ** The theorems above on the sample week *)

(** the sample library without its intros *)
Definition noIntroSeeds : SeedLibrary :=
  mkSeeds [] (reflectionSeeds sampleSeeds) (struggleSeeds sampleSeeds)
    (adviceSeeds sampleSeeds) (closingSeeds sampleSeeds) (shortReplySeeds sampleSeeds)
    (affirmationSeeds sampleSeeds) (humorSeeds sampleSeeds).

(** a plan with two communities *)
Definition twoCommunitiesPlan : Plan :=
  mkPlan twoCommunitiesInput [] [] [alex; blair] ["r/running"; "r/cycling"]
    (Some monday2024).

(** a request body that the validator accepts *)
Definition sampleBody : JValue :=
  JObj [ ("company", JObj [ ("name", JStr "Acme");
                            ("valueProp", JStr "smart task prioritization");
                            ("idealCustomer", JStr "busy teams");
                            ("tone", JStr "friendly") ]);
         ("personas", JArr [ JObj [ ("name", JStr "Alex"); ("background", JStr "developer");
                                    ("voice", JStr "casual");
                                    ("painPoints", JArr [JStr "time"]) ];
                             JObj [ ("name", JStr "Blair"); ("background", JStr "manager");
                                    ("voice", JStr "formal");
                                    ("painPoints", JArr [JStr "focus"]) ] ]);
         ("subreddits", JArr [JStr "r/productivity"; JStr "running"]);
         ("themes", JArr [JStr "task prioritization"; JStr "focus"]);
         ("postsPerWeek", JNum 3) ].

(** a body whose second persona lacks its voice, and whose subreddits are [null] *)
Definition brokenPersonaBody : JValue :=
  JObj [ ("company", getProp sampleBody "company");
         ("personas", JArr [ JObj [ ("name", JStr "Alex"); ("background", JStr "developer");
                                    ("voice", JStr "casual");
                                    ("painPoints", JArr [JStr "time"]) ];
                             JObj [ ("name", JStr "Blair"); ("background", JStr "manager");
                                    ("painPoints", JArr [JStr "focus"]) ] ]);
         ("subreddits", JNull);
         ("themes", JArr [JStr "focus"]);
         ("postsPerWeek", JNum 3) ].

Lemma sample_pool_distinct : NoDup (expandThemesToTopics (themes sampleInput)).
Proof. nodup_strings. Qed.

Lemma sample_intros_distinct : NoDup (introSeeds sampleSeeds).
Proof. nodup_strings. Qed.

Lemma sample_week_returns (ov : option string) :
  exists cal w',
    generateWeeklyCalendar sampleRand sampleSeeds monday2024 40 sampleInput ov freshWorld
    = Ok (cal, w').
Proof.
  apply generateWeeklyCalendar_returns;
    [ exact sampleSeeds_nonempty | exact sample_intros_distinct | cbn; lia | cbn; lia
    | discriminate | discriminate | exact sample_pool_distinct | lia | cbn; lia ].
Qed.

Lemma calendar_entries_come_from_input_witness :
  exists cal w',
    generateWeeklyCalendar sampleRand sampleSeeds monday2024 40 sampleInput None freshWorld
    = Ok (cal, w')
    /\ Forall (fromInput sampleInput) (posts cal).
Proof.
  destruct (sample_week_returns None) as (cal & w' & E). exists cal, w'.
  split; [exact E|].
  exact (calendar_entries_come_from_input sampleRand sampleSeeds monday2024 40 sampleInput
           None freshWorld w' cal E).
Defined.

Lemma posters_take_turns_witness :
  exists cal w',
    generateWeeklyCalendar sampleRand sampleSeeds monday2024 40 sampleInput None freshWorld
    = Ok (cal, w')
    /\ exists sP,
         Permutation [alex; blair] sP
         /\ forall i p, nth_error (posts cal) i = Some p ->
              option_map name (nth_error sP (i mod 2)) = Some (poster p).
Proof.
  destruct (sample_week_returns None) as (cal & w' & E). exists cal, w'.
  split; [exact E|].
  exact (posters_take_turns sampleRand sampleSeeds monday2024 40 sampleInput
           None freshWorld w' cal E).
Defined.

Lemma topics_distinct_while_pool_lasts_witness :
  NoDup (expandThemesToTopics (themes sampleInput))
  /\ exists cal w',
       generateWeeklyCalendar sampleRand sampleSeeds monday2024 40 sampleInput None freshWorld
       = Ok (cal, w')
       /\ NoDup (firstn (List.length (expandThemesToTopics (themes sampleInput)))
                   (map topic (posts cal))).
Proof.
  pose proof sample_pool_distinct as Hpool.
  split; [exact Hpool|].
  destruct (sample_week_returns None) as (cal & w' & E). exists cal, w'.
  split; [exact E|].
  exact (proj1 (proj2 (topics_distinct_while_pool_lasts sampleRand sampleSeeds monday2024 40
                         sampleInput None freshWorld w' cal Hpool E))).
Defined.

Lemma build_returns_when_pool_is_distinct_witness :
  exists cal w',
    generateWeeklyCalendar sampleRand sampleSeeds monday2024 40 sampleInput None freshWorld
    = Ok (cal, w').
Proof.
  apply (build_returns_when_pool_is_distinct sampleRand sampleSeeds monday2024 40 sampleInput
           None freshWorld);
    [ exact sampleSeeds_nonempty | exact sample_intros_distinct | cbn; lia | cbn; lia
    | discriminate | discriminate | exact sample_pool_distinct | lia | cbn; lia ].
Defined.

Lemma empty_intro_library_throws_witness :
  generateWeeklyCalendar sampleRand noIntroSeeds monday2024 40 sampleInput None freshWorld
  = Throw "Cannot pick from empty array".
Proof.
  apply (empty_intro_library_throws sampleRand noIntroSeeds monday2024 40 sampleInput
           None freshWorld);
    [ reflexivity | cbn; lia | discriminate | discriminate | reflexivity | lia ].
Defined.

Lemma community_loop_is_bounded_witness :
  exists raw idx',
    selectSubreddit 6 twoCommunitiesPlan ["r/running"] (Some "r/running") 0 0
    = Some (raw, idx')
    /\ In raw ["r/running"; "r/cycling"]
    /\ 0 < idx' <= 6.
Proof.
  destruct (community_loop_is_bounded 6 twoCommunitiesPlan ["r/running"] (Some "r/running") 0)
    as (raw & idx' & E & Hin & Hidx & _); [cbn; lia | cbn; lia |].
  exists raw, idx'. split; [exact E|]. split; [exact Hin | exact Hidx].
Defined.

Lemma returned_calendar_has_the_requested_slots_witness :
  exists cal w',
    generateWeeklyCalendar sampleRand sampleSeeds monday2024 40 sampleInput None freshWorld
    = Ok (cal, w')
    /\ List.length (posts cal) = 3
    /\ weekStart cal = formatDate (chooseWeekStart monday2024 None).
Proof.
  destruct (sample_week_returns None) as (cal & w' & E). exists cal, w'.
  split; [exact E|].
  destruct (returned_calendar_has_the_requested_slots sampleRand sampleSeeds monday2024 40
              sampleInput None freshWorld w' cal ltac:(cbn; lia) E) as (Hl & Hw & _).
  split; [exact Hl | exact Hw].
Defined.

Lemma week_start_follows_the_override_witness :
  exists cal w',
    generateWeeklyCalendar sampleRand sampleSeeds monday2024 40 sampleInput
      (Some "2024-01-08") freshWorld = Ok (cal, w')
    /\ weekStart cal = "2024-01-08"
    /\ map date (posts cal) = ["2024-01-08"; "2024-01-09"; "2024-01-10"].
Proof.
  destruct (sample_week_returns (Some "2024-01-08")) as (cal & w' & E). exists cal, w'.
  split; [exact E|].
  destruct (week_start_follows_the_override sampleRand sampleSeeds monday2024 40
              sampleInput (Some "2024-01-08") freshWorld w' cal ltac:(cbn; lia) E)
    as (Hov & _ & _).
  exact (Hov 19730%Z ltac:(unfold firstDay; lia) ltac:(unfold lastDay; lia) eq_refl).
Defined.

Lemma pickWeekUnique_avoids_the_last_two_witness :
  exists x w',
    pickWeekUnique sampleRand String.eqb ["a"; "b"; "c"] cIntros freshWorld = Ok (x, w')
    /\ In x ["a"; "b"; "c"]
    /\ intros_ (weekSeedHistory w') = [x].
Proof.
  destruct (pickWeekUnique_avoids_the_last_two sampleRand String.eqb cIntros ["a"; "b"; "c"]
              freshWorld String.eqb_eq (fun l h => eq_refl) ltac:(cbn; lia)
              (ex_intro _ "a" (conj (or_introl eq_refl) (fun H : False => H))))
    as (x & w' & E & Hin & _ & Hpush & _).
  exists x, w'. split; [exact E|]. split; [exact Hin | exact Hpush].
Defined.

Lemma pickWeekUnique_edge_cases_witness :
  pickWeekUnique sampleRand String.eqb [] cIntros freshWorld
  = Throw "Cannot pick from empty array"
  /\ pickWeekUnique sampleRand String.eqb ["a"] cIntros freshWorld = Ok ("a", freshWorld).
Proof.
  destruct (pickWeekUnique_edge_cases sampleRand String.eqb cIntros freshWorld String.eqb_eq)
    as (Hempty & Hone & _).
  split; [exact Hempty | exact (Hone "a")].
Defined.

Lemma stock_comment_leaves_no_trace_witness :
  exists c,
    generateHybridComment sampleRand sampleSeeds alex "focus" acme None freshWorld
    = Ok (c, mkWorld 2 emptyHistory "" "")
    /\ In c noIntroComments.
Proof.
  apply (stock_comment_leaves_no_trace sampleRand sampleSeeds alex "focus" acme None
           freshWorld).
  vm_compute. reflexivity.
Defined.

Lemma post_text_is_trimmed_witness :
  exists text w',
    generateHybridPost sampleRand sampleSeeds 2 alex "focus" acme freshWorld = Ok (text, w')
    /\ trim text = text.
Proof.
  destruct (Returns_generateHybridPost sampleRand sampleSeeds sampleSeeds_nonempty
              sample_intros_distinct ltac:(cbn; lia) 0 alex "focus" acme freshWorld)
    as (text & w' & E).
  exists text, w'. split; [exact E|].
  exact (post_text_is_trimmed sampleRand sampleSeeds 2 alex "focus" acme freshWorld w' text E).
Defined.

Lemma accepted_request_is_fit_for_the_generator_witness :
  validateGenerationInput sampleBody = Valid
  /\ asInput sampleBody = sampleInput
  /\ forall fuel ov w msg,
       generateWeeklyCalendar sampleRand sampleSeeds monday2024 fuel (asInput sampleBody) ov w
       <> Throw msg.
Proof.
  assert (Hv : validateGenerationInput sampleBody = Valid) by (vm_compute; reflexivity).
  split; [exact Hv|]. split; [reflexivity|].
  intros fuel ov w msg.
  destruct (accepted_request_is_fit_for_the_generator sampleBody Hv)
    as (_ & _ & _ & _ & _ & _ & _ & _ & _ & Hgen).
  exact (Hgen sampleRand sampleSeeds monday2024 fuel ov w msg sampleSeeds_nonempty).
Defined.

Lemma rejections_follow_the_order_of_the_checks_witness :
  validateGenerationInput brokenPersonaBody = Invalid (personaError 1)
  /\ isFilledStringArray (getProp brokenPersonaBody "subreddits") = false
  /\ exists i p,
       personaError 1 = personaError i
       /\ nth_error (asList (getProp brokenPersonaBody "personas")) i = Some p
       /\ validatePersona p = false.
Proof.
  assert (Hv : validateGenerationInput brokenPersonaBody = Invalid (personaError 1))
    by (vm_compute; reflexivity).
  split; [exact Hv|]. split; [reflexivity|].
  destruct (rejections_follow_the_order_of_the_checks brokenPersonaBody _ Hv)
    as [[Hm _]|(_ & [[Hm _]|(_ & [[_ Hg]|[(i & p & Hm & Hp & Hf & _)|(_ & Hall & _)]])])].
  - vm_compute in Hm. discriminate Hm.
  - vm_compute in Hm. discriminate Hm.
  - vm_compute in Hg. discriminate Hg.
  - exists i, p. split; [exact Hm|]. split; [exact Hp | exact Hf].
  - vm_compute in Hall. discriminate Hall.
Defined.

Lemma validation_reads_five_properties_only_witness :
  validateGenerationInput
    (JObj (("weekStart", JStr "2024-01-08") :: ("note", JNull)
           :: match sampleBody with JObj props => props | _ => [] end))
  = validateGenerationInput sampleBody.
Proof.
  apply validation_reads_five_properties_only; [reflexivity | reflexivity |].
  intros key [<-|[<-|[<-|[<-|[<-|[]]]]]]; reflexivity.
Defined.

Lemma pickUnique_avoids_the_last_value_witness :
  exists x,
    pickUnique sampleRand String.eqb ["a"; "b"; "a"] (Some "a") freshWorld
    = Ok (x, tick freshWorld)
    /\ x <> "a".
Proof.
  destruct (pickUnique_avoids_the_last_value sampleRand String.eqb (Some "a") freshWorld
              String.eqb_eq) as (_ & _ & Hmany).
  destruct (Hmany ["a"; "b"; "a"] ltac:(cbn; lia)) as (x & E & _ & Hne).
  exists x. split; [exact E|].
  apply (Hne "a" eq_refl). exists "b". split; [right; now left | discriminate].
Defined.

(* ================================================================== *)
(** * Communities, the value proposition and the cleanup passes, in
      general *)

(** every character is an ASCII character; on such text [trim], the
    [i] flag and [toLowerCase] are those of JavaScript *)
Definition isAscii (s : string) : bool :=
  forallb (fun c => (ascii_n c <? 128)%N) (s2l s).


(* ================================================================== *)
(** ** The communities of a day *)

Section Communities.

Variable fuel : nat.
Variable pl : Plan.

(** a community that the loop accepts: not used on the day, and not
    the community of the slot before *)
Definition freeFor (day : list string) (last : option string) (x : string) : Prop :=
  (set_has day x || same_as last x) = false.

(** [n] consecutive indices reach every community. *)
Lemma rotation_covers (idx : nat) (x : string) :
  In x (shuffledSubreddits pl) -> exists i, idx <= i < idx + (List.length (shuffledSubreddits pl)) /\ nth (i mod (List.length (shuffledSubreddits pl))) (shuffledSubreddits pl) "" = x.
Proof.
  intros Hin. destruct (In_nth (shuffledSubreddits pl) x "" Hin) as (j & Hj & Ej).
  assert (Hn : (List.length (shuffledSubreddits pl)) <> 0) by lia.
  pose proof (Nat.mod_upper_bound idx (List.length (shuffledSubreddits pl)) Hn) as Hr.
  pose proof (Nat.div_mod_eq idx (List.length (shuffledSubreddits pl))) as Hd.
  set (r := idx mod (List.length (shuffledSubreddits pl))) in *.
  destruct (Nat.le_gt_cases r j) as [Hle|Hgt].
  - exists (idx + (j - r)). split; [lia|].
    replace ((idx + (j - r)) mod (List.length (shuffledSubreddits pl))) with j; [exact Ej|].
    apply (Nat.mod_unique _ (List.length (shuffledSubreddits pl)) (idx / (List.length (shuffledSubreddits pl)))); [exact Hj | lia].
  - exists (idx + ((List.length (shuffledSubreddits pl)) + j - r)). split; [lia|].
    replace ((idx + ((List.length (shuffledSubreddits pl)) + j - r)) mod (List.length (shuffledSubreddits pl))) with j; [exact Ej|].
    apply (Nat.mod_unique _ (List.length (shuffledSubreddits pl)) (S (idx / (List.length (shuffledSubreddits pl))))); [exact Hj | lia].
Qed.

(** Every candidate that the loop passed over was refused. *)
Lemma selectSubreddit_tried (day : list string) (last : option string)
    (idx att : nat) (raw : string) (idx' : nat) :
  selectSubreddit fuel pl day last idx att = Some (raw, idx') ->
  forall i, idx <= i -> S i < idx' -> ~ freeFor day last (nth (i mod (List.length (shuffledSubreddits pl))) (shuffledSubreddits pl) "").
Proof.
  revert idx att. induction fuel as [|f IH]; intros idx att H; [discriminate|].
  cbn [selectSubreddit] in H. cbv zeta in H.
  destruct (set_has day (nth (idx mod (List.length (shuffledSubreddits pl))) (shuffledSubreddits pl) "") || same_as last (nth (idx mod (List.length (shuffledSubreddits pl))) (shuffledSubreddits pl) ""))
    eqn:Ec.
  - destruct (S att <? (List.length (shuffledSubreddits pl)) * 3) eqn:Ea; cbn [andb] in H.
    + intros i Hi Hi'. destruct (Nat.eq_dec i idx) as [->|Hne].
      * unfold freeFor. rewrite Ec. discriminate.
      * apply (IH _ _ H); lia.
    + apply Some_pair_eq in H as [_ <-]. intros i Hi Hi'. lia.
  - cbn [andb] in H. apply Some_pair_eq in H as [_ <-]. intros i Hi Hi'. lia.
Qed.

(** When some community is free, the loop returns a free one. *)
Lemma selectSubreddit_free (day : list string) (last : option string)
    (idx : nat) (raw : string) (idx' : nat) :
  0 < (List.length (shuffledSubreddits pl)) ->
  (exists x, In x (shuffledSubreddits pl) /\ freeFor day last x) ->
  selectSubreddit fuel pl day last idx 0 = Some (raw, idx') ->
  freeFor day last raw.
Proof.
  intros Hn (x & Hin & Hx) H.
  destruct (selectSubreddit_spec fuel pl day last idx 0 raw idx' H) as (_ & _ & _ & [Hf|Hlong]).
  - exact Hf.
  - exfalso.
    destruct (rotation_covers idx x Hin) as (i & Hi & Ei).
    apply (selectSubreddit_tried day last idx 0 raw idx' H i); [lia | lia |].
    now rewrite Ei.
Qed.

Hypothesis two : 2 <= (List.length (shuffledSubreddits pl)).
Hypothesis distinct : NoDup (shuffledSubreddits pl).

(** Fewer than [n] strings leave one community out. *)
Lemma community_left (F : list string) :
  List.length F < (List.length (shuffledSubreddits pl)) -> exists x, In x (shuffledSubreddits pl) /\ ~ In x F.
Proof.
  intros HF.
  destruct (Forall_Exists_dec (fun x => In x F) (fun x => in_dec string_dec x F) (shuffledSubreddits pl))
    as [Hall|Hex].
  - exfalso. rewrite Forall_forall in Hall.
    pose proof (NoDup_incl_length distinct Hall) as Hle. lia.
  - apply Exists_exists in Hex as (x & Hin & Hx). now exists x.
Qed.

Lemma set_has_false (s : list string) (x : string) : set_has s x = false <-> ~ In x s.
Proof.
  rewrite <- set_has_In. destruct (set_has s x); split; congruence.
Qed.

Lemma same_as_false (last : option string) (x : string) :
  same_as last x = false <-> last <> Some x.
Proof.
  destruct last as [l|]; cbn [same_as].
  - rewrite String.eqb_neq. split; congruence.
  - split; [discriminate | reflexivity].
Qed.

Lemma freeFor_spec (day : list string) (last : option string) (x : string) :
  freeFor day last x <-> ~ In x day /\ last <> Some x.
Proof.
  unfold freeFor. rewrite orb_false_iff, set_has_false, same_as_false. reflexivity.
Qed.

(** The communities that successive turns of the loop pick on one day,
    from the set [day] and the last community [last] on. *)
Fixpoint RawChain (day : list string) (last : option string) (raws : list string) : Prop :=
  match raws with
  | [] => True
  | r :: t =>
      (exists idx idx', selectSubreddit fuel pl day last idx 0 = Some (r, idx'))
      /\ RawChain (set_add day r) (Some r) t
  end.

(** The first pick of a day is not the community of the slot before. *)
Lemma RawChain_head (last : option string) (r : string) (t : list string) :
  RawChain [] last (r :: t) -> last <> Some r.
Proof.
  intros [(idx & idx' & H) _].
  assert (Hfree : exists x, In x (shuffledSubreddits pl) /\ freeFor [] last x).
  { destruct (community_left (match last with Some l => [l] | None => [] end))
      as (x & Hin & Hx); [destruct last; cbn; lia|].
    exists x. split; [exact Hin|]. apply freeFor_spec. split; [intros []|].
    destruct last as [l|]; [|discriminate]. intros E. apply Hx. injection E as ->. now left. }
  apply (selectSubreddit_free [] last idx r idx' ltac:(lia) Hfree) in H.
  now apply freeFor_spec in H.
Qed.

(** On a day of at most [n] slots every pick is new to the day. *)
Lemma RawChain_distinct (raws : list string) :
  forall day last,
    RawChain day last raws ->
    NoDup day ->
    day = [] \/ (exists l, last = Some l /\ In l day) ->
    List.length day + List.length raws <= (List.length (shuffledSubreddits pl)) ->
    NoDup (day ++ raws).
Proof.
  induction raws as [|r t IH]; intros day last Hc Hnd Hlast Hlen.
  - now rewrite app_nil_r.
  - destruct Hc as [(idx & idx' & H) Hc]. cbn [List.length] in Hlen.
    assert (Hfree : exists x, In x (shuffledSubreddits pl) /\ freeFor day last x).
    { destruct Hlast as [->|(l & -> & Hl)].
      - destruct (community_left (match last with Some l => [l] | None => [] end))
          as (x & Hin & Hx); [destruct last; cbn; lia|].
        exists x. split; [exact Hin|]. apply freeFor_spec. split; [intros []|].
        destruct last as [l|]; [|discriminate].
        intros E. apply Hx. injection E as ->. now left.
      - destruct (community_left day) as (x & Hin & Hx); [lia|].
        exists x. split; [exact Hin|]. apply freeFor_spec. split; [exact Hx|].
        intros E. injection E as ->. contradiction. }
    apply (selectSubreddit_free day last idx r idx' ltac:(lia) Hfree) in H.
    apply freeFor_spec in H as [Hr _].
    assert (Eadd : set_add day r = day ++ [r]).
    { unfold set_add. now rewrite (proj2 (set_has_false day r) Hr). }
    rewrite Eadd in Hc.
    replace (day ++ r :: t) with ((day ++ [r]) ++ t) by (now rewrite <- app_assoc).
    apply (IH _ _ Hc).
    + apply NoDup_app; [exact Hnd | repeat constructor; intros [] |].
      intros x Hx [<-|[]]. contradiction.
    + right. exists r. split; [reflexivity|]. apply in_or_app. right. now left.
    + rewrite length_app. cbn. lia.
Qed.

End Communities.


(** ** The communities of a week, day by day *)

(** the last community after the picks [raws] *)
Definition lastOf (last : option string) (raws : list string) : option string :=
  fold_left (fun _ r => Some r) raws last.

Lemma lastOf_app (last : option string) (a b : list string) :
  lastOf last (a ++ b) = lastOf (lastOf last a) b.
Proof. apply fold_left_app. Qed.

Lemma lastOf_last (last : option string) (raws : list string) (x : string) :
  nth_error raws (List.length raws - 1) = Some x -> lastOf last raws = Some x.
Proof.
  revert last. induction raws as [|r t IH]; intros last H; [discriminate|].
  cbn [lastOf fold_left]. destruct t as [|r' t'].
  - cbn in H. exact H.
  - apply IH.
    replace (List.length (r :: r' :: t') - 1) with (S (List.length (r' :: t') - 1)) in H
      by (cbn [List.length]; lia).
    exact H.
Qed.

Section Days.

Variable fuel : nat.
Variable pl : Plan.
Hypothesis some : shuffledSubreddits pl <> [].

Lemma DayRun_raws d ds k st st' :
  DayRun fuel pl d ds k st st' ->
  exists raws new,
    List.length raws = k
    /\ RawChain fuel pl (daySet st d) (lastSubreddit st) raws
    /\ Forall (fun r => In r (shuffledSubreddits pl)) raws
    /\ s_posts st' = s_posts st ++ new
    /\ map subreddit new = map normalizeSubreddit raws
    /\ lastSubreddit st' = lastOf (lastSubreddit st) raws
    /\ (forall d', d' <> d ->
          map_get (usedSubredditsPerDay st') d' = map_get (usedSubredditsPerDay st) d').
Proof.
  intros H. induction H as [st|k st st1 st2 Hs _ IH].
  - exists [], []. repeat split; try reflexivity; [constructor | now rewrite app_nil_r].
  - destruct IH as (raws & new & Hlen & Hc & Hin & Hp & Hsub & Hlast & Hkeys).
    destruct Hs as (topic & ti & raw & si & poster & c & pt & ct & _ & Hsel & _ & _ & ->).
    cbn [s_posts lastSubreddit usedSubredditsPerDay] in *.
    assert (Eday : daySet
                     (mkSched
                        (s_posts st ++
                           [mkPost ds (normalizeSubreddit raw) (name poster) (name c)
                              topic pt ct])
                        (set_add (usedTopics st) topic)
                        (map_set (usedSubredditsPerDay st) d (set_add (daySet st d) raw))
                        (Some raw) ti si (S (personaIndex st))) d
                   = set_add (daySet st d) raw).
    { unfold daySet at 1. cbn [usedSubredditsPerDay]. now rewrite map_get_set_same. }
    rewrite Eday in Hc.
    exists (raw :: raws), (mkPost ds (normalizeSubreddit raw) (name poster) (name c)
                             topic pt ct :: new).
    split; [cbn; now rewrite Hlen|].
    split; [split; [now exists (subredditIndex st), si | exact Hc]|].
    split; [constructor; [eapply selectSubreddit_In; eassumption | exact Hin]|].
    split; [rewrite Hp, <- app_assoc; reflexivity|].
    split; [cbn [map subreddit]; now rewrite Hsub|].
    split; [exact Hlast|].
    intros d' Hd'. rewrite (Hkeys d' Hd'). now apply map_get_set_other.
Qed.

(** The picks of the days of a week: each day starts from an empty set
    and from the last community of the days before. *)
Fixpoint SegsOK (last : option string) (segs : list (list string)) : Prop :=
  match segs with
  | [] => True
  | seg :: t =>
      RawChain fuel pl [] last seg
      /\ Forall (fun r => In r (shuffledSubreddits pl)) seg
      /\ SegsOK (lastOf last seg) t
  end.

Lemma quotas_zero (days d : nat) (r : Z) :
  d + days <= 7 -> (r <= 0)%Z -> quotas days d r = repeat 0 days.
Proof.
  revert d r. induction days as [|k IH]; intros d r Hd Hr; cbn [quotas repeat];
    [reflexivity|].
  assert (Hk : Z.to_nat (ceilDiv r (7 - Z.of_nat d)) = 0).
  { pose proof (ceilDiv_nonpos r (7 - Z.of_nat d) ltac:(lia) Hr). lia. }
  rewrite Hk. cbn [Z.of_nat]. rewrite Z.sub_0_r. f_equal. apply IH; [lia | exact Hr].
Qed.

Lemma SegsOK_empty (last : option string) (k : nat) : SegsOK last (repeat [] k).
Proof.
  induction k as [|k IH]; cbn [repeat SegsOK]; [exact I|].
  split; [exact I|]. split; [constructor | exact IH].
Qed.

Lemma concat_empty {A} (k : nat) : concat (repeat (@nil A) k) = [].
Proof. induction k as [|k IH]; [reflexivity | exact IH]. Qed.

Lemma WeekRun_segments days d st st' :
  d + days <= 7 ->
  WeekRun fuel pl days d st st' ->
  (forall d', d <= d' -> map_get (usedSubredditsPerDay st) d' = None) ->
  exists segs new,
    map (@List.length string) segs
    = quotas days d (postsPerWeek (p_input pl) - Z.of_nat (List.length (s_posts st)))
    /\ SegsOK (lastSubreddit st) segs
    /\ s_posts st' = s_posts st ++ new
    /\ map subreddit new = map normalizeSubreddit (concat segs).
Proof.
  intros Hd H. induction H as [d st|days d st Hw|days d st st1 st2 Hw Hday Hrest IH];
    intros Hkeys.
  - exists [], []. repeat split. now rewrite app_nil_r.
  - exists (repeat [] days), [].
    split; [rewrite quotas_zero by (unfold wanted in Hw; lia);
            now rewrite map_repeat|].
    split; [apply SegsOK_empty|]. split; [now rewrite app_nil_r|].
    now rewrite concat_empty.
  - destruct (DayRun_raws _ _ _ _ _ Hday)
      as (raws & new1 & Hlen & Hc & Hin & Hp & Hsub & Hlast & Hother).
    assert (Eday : daySet (startDay d st) d = []).
    { unfold daySet, startDay. cbn [usedSubredditsPerDay].
      rewrite (Hkeys d (Nat.le_refl d)). now rewrite map_get_set_same. }
    rewrite Eday in Hc. cbn [startDay s_posts lastSubreddit] in Hp, Hlast, Hc.
    destruct IH as (segs & new2 & Hq & Hok & Hp2 & Hsub2); [lia| |].
    { intros d' Hd'. rewrite (Hother d' ltac:(lia)). unfold startDay.
      cbn [usedSubredditsPerDay]. rewrite (Hkeys d (Nat.le_refl d)).
      rewrite map_get_set_other by lia. apply Hkeys. lia. }
    exists (raws :: segs), (new1 ++ new2).
    split.
    { cbn [map quotas]. fold (postsToday pl d st). fold (quotaAt pl d st).
      rewrite Hlen, Hq. f_equal. f_equal. rewrite Hp, length_app.
      assert (List.length new1 = quotaAt pl d st).
      { rewrite <- (length_map subreddit), Hsub, length_map. exact Hlen. }
      lia. }
    split; [cbn [SegsOK]; rewrite <- Hlast; auto|].
    split; [rewrite Hp2, Hp; now rewrite app_assoc|].
    cbn [concat]. now rewrite !map_app, Hsub, Hsub2.
Qed.

End Days.


(** ** Positions and days, again *)

(** The slot at position [i] of a week is a slot of the day [dayOfSlot]
    says; [off] is its place in that day. *)
Lemma concat_day {A} (segs : list (list A)) (i : nat) (x : A) :
  nth_error (concat segs) i = Some x ->
  exists off,
    nth_error (nth (dayOfSlot (map (@List.length A) segs) i) segs []) off = Some x
    /\ i = list_sum (firstn (dayOfSlot (map (@List.length A) segs) i)
                       (map (@List.length A) segs)) + off.
Proof.
  revert i. induction segs as [|seg t IH]; intros i H; [now destruct i|].
  cbn [concat map dayOfSlot] in *.
  destruct (Nat.ltb_spec i (List.length seg)) as [Hi|Hi].
  - rewrite nth_error_app1 in H by exact Hi. exists i. split; [exact H | reflexivity].
  - rewrite nth_error_app2 in H by exact Hi.
    destruct (IH _ H) as (off & Hoff & E). exists off. split; [exact Hoff|].
    cbn [firstn]. rewrite list_sum_cons. lia.
Qed.

Section Week.

Variable fuel : nat.
Variable pl : Plan.
Hypothesis two : 2 <= List.length (shuffledSubreddits pl).
Hypothesis distinct : NoDup (shuffledSubreddits pl).

Lemma SegsOK_day (segs : list (list string)) :
  forall last d, SegsOK fuel pl last segs ->
    (exists l, RawChain fuel pl [] l (nth d segs []))
    /\ Forall (fun r => In r (shuffledSubreddits pl)) (nth d segs []).
Proof.
  induction segs as [|seg t IH]; intros last d H.
  - destruct d; (split; [exists None; exact I | constructor]).
  - destruct H as (Hc & Hin & Ht). destruct d as [|d]; cbn [nth].
    + split; [now exists last | exact Hin].
    + exact (IH _ d Ht).
Qed.

(** Where a day begins, the community is not the one before. *)
Lemma SegsOK_adjacent (segs : list (list string)) :
  forall last, SegsOK fuel pl last segs ->
    (forall y, nth_error (concat segs) 0 = Some y -> last <> Some y)
    /\ (forall i x y,
          nth_error (concat segs) i = Some x ->
          nth_error (concat segs) (S i) = Some y ->
          dayOfSlot (map (@List.length string) segs) i
          <> dayOfSlot (map (@List.length string) segs) (S i) ->
          x <> y).
Proof.
  induction segs as [|seg t IH]; intros last H.
  - split; [discriminate | intros [|i]; discriminate].
  - destruct H as (Hc & _ & Ht). destruct (IH _ Ht) as [IHa IHb].
    destruct seg as [|r s].
    + cbn [concat app map List.length dayOfSlot Nat.ltb Nat.leb].
      split; [exact IHa|]. intros i x y Hx Hy Hd.
      rewrite !Nat.sub_0_r in Hd. apply (IHb i x y Hx Hy). congruence.
    + split.
      * intros y Hy. cbn in Hy. injection Hy as <-. exact (RawChain_head fuel pl two distinct _ _ _ Hc).
      * intros i x y Hx Hy Hd. cbn [concat map dayOfSlot] in Hx, Hy, Hd.
        set (len := List.length (r :: s)) in *. revert Hd.
        destruct (Nat.ltb_spec i len) as [Hi|Hi];
          destruct (Nat.ltb_spec (S i) len) as [Hsi|Hsi]; intros Hd; try lia.
        -- rewrite nth_error_app1 in Hx by exact Hi.
           rewrite nth_error_app2 in Hy by exact Hsi. fold len in Hy.
           replace (S i - len) with 0 in Hy by lia.
           assert (Ei : i = len - 1) by lia. rewrite Ei in Hx.
           pose proof (lastOf_last last (r :: s) x Hx) as El.
           intros ->. apply (IHa y Hy). exact El.
        -- rewrite nth_error_app2 in Hx by exact Hi.
           rewrite nth_error_app2 in Hy by (fold len; lia). fold len in Hx, Hy.
           replace (S i - len) with (S (i - len)) in Hy, Hd by lia.
           apply (IHb _ x y Hx Hy). congruence.
Qed.

End Week.

Lemma NoDup_map_injective {A B} (f : A -> B) (l : list A) (x y : A) :
  NoDup (map f l) -> In x l -> In y l -> f x = f y -> x = y.
Proof.
  induction l as [|a l IH]; intros Hnd Hx Hy E; [destruct Hx|].
  cbn [map] in Hnd. inversion Hnd as [|? ? Ha Hl]; subst.
  destruct Hx as [->|Hx], Hy as [->|Hy].
  - reflexivity.
  - exfalso. apply Ha. rewrite E. now apply in_map.
  - exfalso. apply Ha. rewrite <- E. now apply in_map.
  - now apply IH.
Qed.


(** two communities, fifteen posts: three slots on the first day, two
    on each of the others *)
Definition denseWeekInput : GenerationInput :=
  mkInput acme [alex; blair] ["r/running"; "r/cycling"]
    ["task prioritization"; "focus"] 15.

(** C3, as the code has it.  Take [n >= 2] communities, written in
    ASCII, whose normalized labels are pairwise distinct.  The slots of
    a returned calendar are laid out day by day, [dayOfSlot] giving the
    day of a slot: in a week between the years 100 and 275759, begun at
    the Monday of the current week or at an override in the format of
    [formatDate], a slot bears the date of that day.  On every day
    that holds at most [n] slots, no two slots share a community,
    however many slots the other days hold.  The first slot of a day
    never has the community of the slot before it, the last slot of the
    day before.  That is all the code compares across days: only when
    no day holds more than [n] slots ([postsPerWeek <= 7 n]) are the
    communities taken in rotation, so that two slots less than [n]
    positions apart never share a community, and the slots of two
    consecutive days share none whenever the two days together hold at
    most [n] slots. *)
Theorem communities_rotate
    (rand : nat -> Q) (seeds : SeedLibrary) (today : Z) (fuel : nat)
    (input : GenerationInput) (ov : option string) (w w' : World)
    (cal : WeeklyCalendar) :
  let n := List.length (subreddits input) in
  let qs := slotsPerDay (postsPerWeek input) in
  2 <= n ->
  Forall (fun s => isAscii s = true) (subreddits input) ->
  NoDup (map normalizeSubreddit (subreddits input)) ->
  generateWeeklyCalendar rand seeds today fuel input ov w = Ok (cal, w') ->
  (forall z i p,
     (firstDay <= z)%Z -> (z + 6 <= lastDay)%Z ->
     ov = Some (formatDate (Some z))
     \/ ((ov = None \/ ov = Some "") /\ getMondayOfWeek today = Some z) ->
     nth_error (posts cal) i = Some p ->
     date p = formatDate (Some (z + Z.of_nat (dayOfSlot qs i))%Z))
  /\ (forall i j p q,
        nth_error (posts cal) i = Some p -> nth_error (posts cal) j = Some q ->
        i < j -> dayOfSlot qs i = dayOfSlot qs j ->
        nth (dayOfSlot qs i) qs 0 <= n ->
        subreddit p <> subreddit q)
  /\ (forall i p q,
        nth_error (posts cal) i = Some p -> nth_error (posts cal) (S i) = Some q ->
        dayOfSlot qs i <> dayOfSlot qs (S i) ->
        subreddit p <> subreddit q)
  /\ ((postsPerWeek input <= 7 * Z.of_nat n)%Z ->
      (forall i j p q,
         nth_error (posts cal) i = Some p -> nth_error (posts cal) j = Some q ->
         i < j -> j - i < n -> subreddit p <> subreddit q)
      /\ (forall i j p q,
            nth_error (posts cal) i = Some p -> nth_error (posts cal) j = Some q ->
            dayOfSlot qs j = S (dayOfSlot qs i) ->
            nth (dayOfSlot qs i) qs 0 + nth (dayOfSlot qs j) qs 0 <= n ->
            subreddit p <> subreddit q)).
Proof.
  intros n qs Hn _ Hnd H.
  assert (Hsparse : (postsPerWeek input <= 7 * Z.of_nat n)%Z ->
            (forall i j p q,
               nth_error (posts cal) i = Some p -> nth_error (posts cal) j = Some q ->
               i < j -> j - i < n -> subreddit p <> subreddit q)
            /\ (forall i j p q,
                  nth_error (posts cal) i = Some p -> nth_error (posts cal) j = Some q ->
                  dayOfSlot qs j = S (dayOfSlot qs i) ->
                  nth (dayOfSlot qs i) qs 0 + nth (dayOfSlot qs j) qs 0 <= n ->
                  subreddit p <> subreddit q)).
  { intros Hppw.
    destruct (rotation_in_sparse_weeks rand seeds today fuel input ov w w' cal Hn Hnd Hppw H)
      as (_ & H2 & _ & H4).
    split; [exact H2 | exact H4]. }
  apply generateWeeklyCalendar_Ok in H
    as (_ & _ & _ & sT & sP & sS & st & _ & _ & HS & Hrun & ->).
  cbn [posts] in *.
  set (pl := planOf today input ov sT sP sS) in *.
  assert (HlenS : List.length sS = n) by (symmetry; apply Permutation_length; exact HS).
  assert (HndN : NoDup (map normalizeSubreddit sS)).
  { eapply Permutation_NoDup; [apply Permutation_map; exact HS | exact Hnd]. }
  assert (HndS : NoDup sS) by (eapply NoDup_map_inv; exact HndN).
  assert (Htwo : 2 <= List.length (shuffledSubreddits pl)) by (cbn; lia).
  assert (Hsome : shuffledSubreddits pl <> [])
    by (cbn; intros E; rewrite E in HlenS; cbn in HlenS; lia).
  (* the layout *)
  destruct (WeekRun_layout fuel pl 7 0 _ _ ltac:(lia) Hrun) as (new & E & Hdates).
  cbn [initialSched s_posts app List.length Z.of_nat] in E, Hdates.
  rewrite Z.sub_0_r in Hdates. subst new.
  change (quotas 7 0 (postsPerWeek (p_input pl))) with qs in Hdates.
  change (p_weekStart pl) with (chooseWeekStart today ov) in Hdates.
  assert (Hlen : List.length (s_posts st) = list_sum qs).
  { rewrite <- (length_map date), Hdates. apply datesFrom_length. }
  assert (Hday : forall i p, nth_error (s_posts st) i = Some p ->
            date p = formatDate (addDays (chooseWeekStart today ov)
                                   (Z.of_nat (dayOfSlot qs i)))).
  { intros i p Hp.
    assert (Hi : i < list_sum qs).
    { rewrite <- Hlen. apply nth_error_Some. congruence. }
    pose proof (datesFrom_nth (chooseWeekStart today ov) 0 qs i Hi) as Hd.
    rewrite <- Hdates, nth_error_map, Hp in Hd. cbn in Hd. now injection Hd. }
  (* the picks, day by day *)
  destruct (WeekRun_segments fuel pl Hsome 7 0 initialSched st ltac:(lia) Hrun)
    as (segs & new & Hq & Hok & Hp & Hsub); [reflexivity|].
  cbn [initialSched s_posts app List.length Z.of_nat lastSubreddit] in Hq, Hok, Hp, Hsub.
  rewrite Z.sub_0_r in Hq. subst new.
  change (quotas 7 0 (postsPerWeek (p_input pl))) with qs in Hq.
  assert (Hraw : forall i p, nth_error (s_posts st) i = Some p ->
            exists raw, nth_error (concat segs) i = Some raw
                        /\ subreddit p = normalizeSubreddit raw
                        /\ In raw sS).
  { intros i p Hi.
    pose proof (f_equal (fun l => nth_error l i) Hsub) as Ei. cbn beta in Ei.
    rewrite !nth_error_map, Hi in Ei. cbn [option_map] in Ei.
    destruct (nth_error (concat segs) i) as [raw|] eqn:Er; [|discriminate].
    exists raw. split; [reflexivity|]. split; [now injection Ei|].
    destruct (concat_day segs i raw Er) as (off & Hoff & _).
    destruct (SegsOK_day fuel pl segs None (dayOfSlot (map (@List.length string) segs) i) Hok)
      as [_ Hin].
    rewrite Forall_forall in Hin. apply Hin. eapply nth_error_In. exact Hoff. }
  assert (Hinj : forall x y, In x sS -> In y sS -> x <> y ->
            normalizeSubreddit x <> normalizeSubreddit y).
  { intros x y Hx Hy Hne E. apply Hne.
    exact (NoDup_map_injective normalizeSubreddit sS x y HndN Hx Hy E). }
  split; [|split; [|split; [|exact Hsparse]]].
  - intros z i p Hz Hz6 Hov Hp. rewrite (Hday i p Hp).
    assert (Ews : chooseWeekStart today ov = Some z).
    { destruct Hov as [->|[[->| ->] Hm]]; [|exact Hm|exact Hm].
      unfold chooseWeekStart.
      replace (formatDate (Some z) =? "")%string with false
        by (symmetry; apply String.eqb_neq; apply formatDate_nonempty).
      apply formatDate_parseDate. unfold firstDay in Hz. exact Hz. }
    rewrite Ews. reflexivity.
  - intros i j p q Hpi Hqj Hij Hsame Hquota.
    destruct (Hraw i p Hpi) as (x & Hx & -> & Hxin).
    destruct (Hraw j q Hqj) as (y & Hy & -> & Hyin).
    apply (Hinj x y Hxin Hyin). intros <-.
    destruct (concat_day segs i x Hx) as (oi & Hoi & Ei).
    destruct (concat_day segs j x Hy) as (oj & Hoj & Ej).
    rewrite Hq in Hoi, Hoj, Ei, Ej. rewrite <- Hsame in Hoj, Ej.
    set (d := dayOfSlot qs i) in *.
    assert (Hlenseg : List.length (nth d segs []) = nth d qs 0).
    { rewrite <- Hq. change 0 with (List.length (@nil string)). now rewrite map_nth. }
    destruct (SegsOK_day fuel pl segs None d Hok) as [(l & Hc) _].
    pose proof (RawChain_distinct fuel pl Htwo HndS (nth d segs []) [] l Hc
                  (NoDup_nil _) (or_introl eq_refl)) as Hseg.
    cbn [List.length app] in Hseg.
    specialize (Hseg ltac:(rewrite Hlenseg; cbn [pl planOf shuffledSubreddits]; lia)).
    assert (Hoi' : oi < List.length (nth d segs [])) by (apply nth_error_Some; congruence).
    pose proof (proj1 (NoDup_nth_error (nth d segs [])) Hseg oi oj Hoi'
                  ltac:(congruence)) as Eo.
    lia.
  - intros i p q Hpi Hqi Hd.
    destruct (Hraw i p Hpi) as (x & Hx & -> & Hxin).
    destruct (Hraw (S i) q Hqi) as (y & Hy & -> & Hyin).
    apply (Hinj x y Hxin Hyin).
    destruct (SegsOK_adjacent fuel pl Htwo HndS segs None Hok) as [_ Hadj].
    apply (Hadj i x y Hx Hy). now rewrite Hq.
Qed.


Lemma communities_rotate_witness :
  exists cal w',
    generateWeeklyCalendar sampleRand sampleSeeds monday2024 40 denseWeekInput None freshWorld
    = Ok (cal, w')
    /\ slotsPerDay 15 = [3; 2; 2; 2; 2; 2; 2]
    /\ forall i j p q,
         nth_error (posts cal) i = Some p -> nth_error (posts cal) j = Some q ->
         i < j -> dayOfSlot (slotsPerDay 15) i = dayOfSlot (slotsPerDay 15) j ->
         1 <= dayOfSlot (slotsPerDay 15) i ->
         subreddit p <> subreddit q.
Proof.
  destruct (generateWeeklyCalendar_returns sampleRand sampleSeeds monday2024 40
              denseWeekInput None freshWorld sampleSeeds_nonempty sample_intros_distinct
              ltac:(cbn; lia) ltac:(cbn; lia) ltac:(discriminate) ltac:(discriminate)
              sample_pool_distinct ltac:(lia) ltac:(cbn; lia)) as (cal & w' & E).
  exists cal, w'. split; [exact E|]. split; [reflexivity|].
  destruct (communities_rotate sampleRand sampleSeeds monday2024 40 denseWeekInput None
              freshWorld w' cal ltac:(cbn; lia) ltac:(repeat constructor)
              ltac:(nodup_strings) E) as (_ & Hday & _).
  intros i j p q Hp Hq Hij Hsame Hlater.
  apply (Hday i j p q Hp Hq Hij Hsame).
  change (postsPerWeek denseWeekInput) with 15%Z.
  change (slotsPerDay 15) with [3; 2; 2; 2; 2; 2; 2] in *.
  set (d := dayOfSlot [3; 2; 2; 2; 2; 2; 2] i) in *. clearbody d.
  destruct d as [|[|[|[|[|[|[|[|d]]]]]]]]; cbn; lia.
Defined.

(* ================================================================== *)
(** ** Sentences

    [removeDuplicateSentences] splits its text at the white space that
    follows a full stop, an exclamation mark or a question mark. *)




































(** ** The cleanup passes, in general *)




(* ================================================================== *)
(** ** What the texts take from the company *)

Section Factors.

Variable adv : string.






End Factors.






